(** * Wealth manager web application: the mock data layer, the batch
      download orchestration, the update scheduler and the portfolio REST
      client, embedded in Rocq.

    The development follows the TypeScript sources:
    - [databaseService.ts]      -> Module [DatabaseService]
    - [financialDataService.ts] -> Module [FinancialDataService]
    - [databaseManagerService.ts] -> Module [DatabaseManagerService]
    - [portfolioService.ts]     -> Module [PortfolioService]
    - the parts of the JavaScript [Date] and [String] built-ins the services
      rely on -> Module [JSDate].

    Modelling conventions.
    - JavaScript numbers that hold integers (epoch milliseconds, counters,
      indices) are [Z] or [nat]; prices are IEEE doubles in the source and
      exact rationals ([Q]) here.
    - A [Map] keyed by ticker symbol is a [gmap string _].
    - Everything the code reads from the outside world ([Math.random],
      the clock, the time zone, whether a dynamic [import()] resolves, the
      order in which pending promises are resumed, the caller's cancel token)
      is an explicit argument. *)

From Stdlib Require Import ZArith QArith Qround Qminmax Lia Lqa Sorted.
From stdpp Require Import gmap strings list.

(* ===================================================================== *)
(** * Part I: the embedding                                               *)
(* ===================================================================== *)

(** ** The [Date] built-in, as far as the services use it *)

Module JSDate.

(** A [Date] object is its time value: milliseconds since the epoch, UTC. *)
Definition msPerDay : Z := 86400000.

(** ECMAScript [Day(t)] and [WeekDay(t)] (0 is Sunday). *)
Definition Day (t : Z) : Z := (t / msPerDay)%Z.
Definition TimeWithinDay (t : Z) : Z := (t mod msPerDay)%Z.
Definition WeekDayOfDay (day : Z) : Z := ((day + 4) mod 7)%Z.
Definition WeekDay (t : Z) : Z := WeekDayOfDay (Day t).

(** Proleptic Gregorian calendar: day number -> (year, month 0..11, day of
    month 1..31), and back.  [daysFromCivil] accepts a day of month outside
    the month, as [MakeDay] does. *)
Definition civilFromDays (day : Z) : Z * Z * Z :=
  let z := (day + 719468)%Z in
  let era := (z / 146097)%Z in
  let doe := (z - era * 146097)%Z in
  let yoe := ((doe - doe / 1460 + doe / 36524 - doe / 146096) / 365)%Z in
  let doy := (doe - (365 * yoe + yoe / 4 - yoe / 100))%Z in
  let mp := ((5 * doy + 2) / 153)%Z in
  let d := (doy - (153 * mp + 2) / 5 + 1)%Z in
  let m := (if mp <? 10 then mp + 3 else mp - 9)%Z in
  let y := (yoe + era * 400 + (if m <=? 2 then 1 else 0))%Z in
  (y, (m - 1)%Z, d).

Definition daysFromCivil (y m0 d : Z) : Z :=
  let y' := (y + m0 / 12)%Z in
  let m := (m0 mod 12 + 1)%Z in
  let y1 := (if m <=? 2 then y' - 1 else y')%Z in
  let era := (y1 / 400)%Z in
  let yoe := (y1 - era * 400)%Z in
  let mp := (if 2 <? m then m - 3 else m + 9)%Z in
  let doy := ((153 * mp + 2) / 5 + d - 1)%Z in
  let doe := (yoe * 365 + yoe / 4 - yoe / 100 + doy)%Z in
  (era * 146097 + doe - 719468)%Z.

Definition YearOfDay (day : Z) : Z := fst (fst (civilFromDays day)).
Definition MonthOfDay (day : Z) : Z := snd (fst (civilFromDays day)).
Definition DateOfDay (day : Z) : Z := snd (civilFromDays day).

(** Local time.  A time zone is its [LocalTZA(t, isUTC)]: the offset of
    local time from UTC, in milliseconds, at the UTC time value [t] when
    [isUTC] is [true] and at the local time value [t] otherwise (for a local
    time that a transition skips or repeats, the offset before the
    transition). *)
Record Zone := { LocalTZA : Z → bool → Z }.

Definition LocalTime (tz : Zone) (t : Z) : Z := (t + LocalTZA tz t true)%Z.
Definition UTC (tz : Zone) (t : Z) : Z := (t - LocalTZA tz t false)%Z.

(** A zone without transitions: [tz] minutes east of UTC all year (so
    [getTimezoneOffset()] is [- tz]).  An offset written where a zone is
    expected stands for this zone. *)
Definition fixedZone (tz : Z) : Zone := {| LocalTZA := fun _ _ => (tz * 60000)%Z |}.
Coercion fixedZone : Z >-> Zone.
Bind Scope Z_scope with Zone.

(** A zone with one transition, at the UTC time value [at_]: [before]
    minutes east of UTC until then, [after] from then on. *)
Definition oneTransition (before after at_ : Z) : Zone :=
  {| LocalTZA := fun t isUTC =>
       if isUTC
       then if (t <? at_)%Z then (before * 60000)%Z else (after * 60000)%Z
       else if (t <? at_ + Z.max before after * 60000)%Z
            then (before * 60000)%Z else (after * 60000)%Z |}.

Definition getDay (tz : Zone) (t : Z) : Z := WeekDay (LocalTime tz t).
Definition getDate (tz : Zone) (t : Z) : Z := DateOfDay (Day (LocalTime tz t)).
Definition getMonth (tz : Zone) (t : Z) : Z := MonthOfDay (Day (LocalTime tz t)).
Definition getFullYear (tz : Zone) (t : Z) : Z := YearOfDay (Day (LocalTime tz t)).

(** [d.setDate(n)]: [MakeDay(year, month, n)] is the day of the first of the
    local month plus [n - 1], the time within the day is kept. *)
Definition setDate (tz : Zone) (t n : Z) : Z :=
  let l := LocalTime tz t in
  let firstOfMonth := (Day l - (DateOfDay (Day l) - 1))%Z in
  UTC tz ((firstOfMonth + (n - 1)) * msPerDay + TimeWithinDay l)%Z.

(** [d.setFullYear(y)]: same local month, day of month and time of day. *)
Definition setFullYear (tz : Zone) (t y : Z) : Z :=
  let l := LocalTime tz t in
  UTC tz (daysFromCivil y (MonthOfDay (Day l)) (DateOfDay (Day l)) * msPerDay
          + TimeWithinDay l)%Z.

(** Date-only strings.  A string [YYYY-MM-DD] is represented by the number
    of the day it denotes; [new Date("YYYY-MM-DD")] is UTC midnight of that
    day and [d.toISOString().split('T')[0]] is the UTC day of [d]. *)
Definition IsoDate : Type := Z.
Definition parseIsoDate (s : IsoDate) : Z := (s * msPerDay)%Z.
Definition toISODate (t : Z) : IsoDate := Day t.

(** Decimal rendering of a natural number, and zero padding. *)
Definition digitChar (n : nat) : Ascii.ascii :=
  Ascii.ascii_of_nat (48 + n mod 10).

Fixpoint natDigits (fuel n : nat) (acc : string) : string :=
  match fuel with
  | O => acc
  | S fuel' =>
      let acc' := String (digitChar n) acc in
      if (n <? 10)%nat then acc' else natDigits fuel' (n / 10) acc'
  end.

Definition natToString (n : nat) : string := natDigits (S n) n "".

Fixpoint zeros (k : nat) : string :=
  match k with O => "" | S k' => "0" +:+ zeros k' end.

Definition padStart0 (width : nat) (s : string) : string :=
  zeros (width - String.length s) +:+ s.

(** [Number.prototype.toString] on a safe integer: the plain decimal
    expansion.  (From 1e21 on the source prints a mantissa and an exponent;
    the properties below are stated for safe integers.) *)
Definition numberToString (z : Z) : string :=
  if (z <? 0)%Z then "-" +:+ natToString (Z.to_nat (- z))
  else natToString (Z.to_nat z).

Definition weekdayName (w : Z) : string :=
  nth (Z.to_nat w) ["Sun"; "Mon"; "Tue"; "Wed"; "Thu"; "Fri"; "Sat"] "".

Definition monthName (m : Z) : string :=
  nth (Z.to_nat m)
      ["Jan"; "Feb"; "Mar"; "Apr"; "May"; "Jun";
       "Jul"; "Aug"; "Sep"; "Oct"; "Nov"; "Dec"] "".

Definition yearString (y : Z) : string :=
  (if (y <? 0)%Z then "-" else "") +:+ padStart0 4 (natToString (Z.abs_nat y)).

(** [d.toDateString()], e.g. ["Mon Jan 01 2024"], in local time. *)
Definition toDateString (tz : Zone) (t : Z) : string :=
  let day := Day (LocalTime tz t) in
  weekdayName (WeekDayOfDay day) +:+ " " +:+
  monthName (MonthOfDay day) +:+ " " +:+
  padStart0 2 (natToString (Z.to_nat (DateOfDay day))) +:+ " " +:+
  yearString (YearOfDay day).

(** The rendering of a date-only string. *)
Definition isoDateString (d : IsoDate) : string :=
  yearString (YearOfDay d) +:+ "-" +:+
  padStart0 2 (natToString (Z.to_nat (MonthOfDay d + 1))) +:+ "-" +:+
  padStart0 2 (natToString (Z.to_nat (DateOfDay d))).

(** [d.toTimeString().slice(0, 5)]: local ["HH:MM"]. *)
Definition toTimeHHMM (tz : Zone) (t : Z) : string :=
  let w := TimeWithinDay (LocalTime tz t) in
  padStart0 2 (natToString (Z.to_nat (w / 3600000))) +:+ ":" +:+
  padStart0 2 (natToString (Z.to_nat ((w / 60000) mod 60))).

(** Relational operators on strings compare code units lexicographically. *)
Definition strGt (a b : string) : bool := String.ltb b a.
Definition strGe (a b : string) : bool := String.leb b a.

(** The characters of a string, and the number a sequence of decimal
    digits denotes: the vocabulary of the properties of [natToString]. *)
Definition isDigit (c : Ascii.ascii) : Prop :=
  (48 ≤ Ascii.nat_of_ascii c ≤ 57)%nat.

Definition digitValue (c : Ascii.ascii) : nat := (Ascii.nat_of_ascii c - 48)%nat.

Definition valueFrom (a : nat) (l : list Ascii.ascii) : nat :=
  foldl (fun acc c => (10 * acc + digitValue c)%nat) a l.

Definition isSlash (c : Ascii.ascii) : Prop := Ascii.nat_of_ascii c = 47%nat.

Definition signOrDigit (c : Ascii.ascii) : Prop :=
  Ascii.nat_of_ascii c = 45%nat ∨ isDigit c.

(** A sequence of characters that is empty or starts with a slash. *)
Definition atSlash (l : list Ascii.ascii) : Prop :=
  match l with [] => True | c :: _ => isSlash c end.

End JSDate.

(** ** databaseService.ts: the simulated MongoDB store *)

Module DatabaseService.
Import JSDate.

Record PriceData := {
  date : IsoDate;
  open : Q;
  high : Q;
  low : Q;
  close : Q;
  volume : Z;
  adjustedClose : Q
}.

Record CompanyInfo := {
  name : string;
  sector : string;
  industry : string;
  marketCap : Z;
  enterpriseValue : Z;
  trailingPE : Q;
  forwardPE : Q;
  pegRatio : Q;
  priceToSales : Q;
  priceToBook : Q;
  enterpriseToRevenue : Q;
  enterpriseToEbitda : Q;
  beta : Q;
  fiftyTwoWeekHigh : Q;
  fiftyTwoWeekLow : Q;
  dividendYield : Q;
  dividendRate : Q;
  exDividendDate : IsoDate;
  payoutRatio : Q;
  dividendPerShare : Q
}.

Record IncomeStatement := {
  totalRevenue : Z;
  grossProfit : Z;
  operatingIncome : Z;
  netIncome : Z;
  earningsPerShare : Q;
  dilutedEPS : Q
}.

Record BalanceSheet := {
  totalAssets : Z;
  totalLiabilities : Z;
  totalStockholderEquity : Z;
  currentAssets : Z;
  currentLiabilities : Z;
  totalDebt : Z
}.

Record CashFlow := {
  operatingCashFlow : Z;
  investingCashFlow : Z;
  financingCashFlow : Z;
  freeCashFlow : Z
}.

Record FinancialStatements := {
  incomeStatement : IncomeStatement;
  balanceSheet : BalanceSheet;
  cashFlow : CashFlow
}.

Record FundamentalData := {
  fd_symbol : string;
  companyInfo : CompanyInfo;
  financialStatements : FinancialStatements
}.

(** The metadata object kept per symbol.  It is built by object spread over
    [existingSymbol || {}], so every property may be absent ([None]). *)
Record DatabaseSymbol := {
  symbol : option string;
  ds_name : option string;
  priceDataAvailable : option bool;
  fundamentalDataAvailable : option bool;
  priceDataCount : option nat;
  fundamentalDataCount : option nat;
  lastUpdated : option string;
  status : option string
}.

(** The empty object literal. *)
Definition emptyObject : DatabaseSymbol :=
  {| symbol := None; ds_name := None;
     priceDataAvailable := None; fundamentalDataAvailable := None;
     priceDataCount := None; fundamentalDataCount := None;
     lastUpdated := None; status := None |}.

(** Truthiness of an optional boolean property. *)
Definition truthy (b : option bool) : bool :=
  match b with Some true => true | _ => false end.

Record DownloadProgress := {
  dp_symbol : string;
  type : string;
  progress : Z;
  dp_status : string;
  message : string
}.

(** [db]: the three collections of [MONGODB_CONFIG.collections]. *)
Record Collections := {
  symbols : gmap string DatabaseSymbol;
  priceData : gmap string (list PriceData);
  fundamentalData : gmap string FundamentalData
}.

(** The module-level variables [db] and [isConnected]. *)
Record Store := {
  db : option Collections;
  isConnected : bool
}.

Definition newCollections : Collections :=
  {| symbols := ∅; priceData := ∅; fundamentalData := ∅ |}.

(** The state of the module when it is loaded. *)
Definition initialStore : Store := {| db := None; isConnected := false |}.

Definition connectToDatabase (st : Store) : Store :=
  match db st with
  | None => {| db := Some newCollections; isConnected := true |}
  | Some _ => st
  end.

Definition disconnectFromDatabase (st : Store) : Store :=
  match db st with
  | Some _ => if isConnected st then {| db := None; isConnected := false |} else st
  | None => st
  end.

(** [if (!db || !isConnected) await connectToDatabase()].  The check, the
    simulated connection delay and the access that follows are one step:
    nothing else runs in between. *)
Definition ensureConnected (st : Store) : Store :=
  match db st with
  | None => connectToDatabase st
  | Some _ => if isConnected st then st else connectToDatabase st
  end.

(** [savePriceDataToMongoDB(symbol, priceData)]; [stamp] is
    [new Date().toISOString()].  The branch without collections stands for
    the [TypeError] of [db![...]] on [null], which [ensureConnected]
    excludes. *)
Definition savePriceDataToMongoDB
  (sym : string) (data : list PriceData) (stamp : string) (st : Store) : Store :=
  let st1 := ensureConnected st in
  match db st1 with
  | None => st1
  | Some c =>
      let existingSymbol := default emptyObject (symbols c !! sym) in
      let record :=
        {| symbol := Some sym;
           ds_name := ds_name existingSymbol;
           priceDataAvailable := Some true;
           fundamentalDataAvailable := fundamentalDataAvailable existingSymbol;
           priceDataCount := Some (length data);
           fundamentalDataCount := fundamentalDataCount existingSymbol;
           lastUpdated := Some stamp;
           status := Some (if truthy (fundamentalDataAvailable existingSymbol)
                           then "complete" else "partial") |} in
      {| db := Some {| symbols := <[sym := record]> (symbols c);
                       priceData := <[sym := data]> (priceData c);
                       fundamentalData := fundamentalData c |};
         isConnected := isConnected st1 |}
  end.

(** [saveFundamentalDataToMongoDB(symbol, fundamentalData)] *)
Definition saveFundamentalDataToMongoDB
  (sym : string) (data : FundamentalData) (stamp : string) (st : Store) : Store :=
  let st1 := ensureConnected st in
  match db st1 with
  | None => st1
  | Some c =>
      let existingSymbol := default emptyObject (symbols c !! sym) in
      let record :=
        {| symbol := Some sym;
           ds_name := ds_name existingSymbol;
           priceDataAvailable := priceDataAvailable existingSymbol;
           fundamentalDataAvailable := Some true;
           priceDataCount := priceDataCount existingSymbol;
           fundamentalDataCount := Some 1;
           lastUpdated := Some stamp;
           status := Some (if truthy (priceDataAvailable existingSymbol)
                           then "complete" else "partial") |} in
      {| db := Some {| symbols := <[sym := record]> (symbols c);
                       priceData := priceData c;
                       fundamentalData := <[sym := data]> (fundamentalData c) |};
         isConnected := isConnected st1 |}
  end.

(** [getPriceDataFromMongoDB(symbol)]: the stored array, or [[]] when the
    collection has no entry (an array, even an empty one, is truthy). *)
Definition getPriceDataFromMongoDB (sym : string) (st : Store)
  : list PriceData * Store :=
  let st1 := ensureConnected st in
  match db st1 with
  | None => ([], st1)
  | Some c => (default [] (priceData c !! sym), st1)
  end.

(** [getFundamentalDataFromMongoDB(symbol)] *)
Definition getFundamentalDataFromMongoDB (sym : string) (st : Store)
  : option FundamentalData * Store :=
  let st1 := ensureConnected st in
  match db st1 with
  | None => (None, st1)
  | Some c => (fundamentalData c !! sym, st1)
  end.

(** [deleteSymbolFromMongoDB(symbol)] *)
Definition deleteSymbolFromMongoDB (sym : string) (st : Store) : Store :=
  let st1 := ensureConnected st in
  match db st1 with
  | None => st1
  | Some c =>
      {| db := Some {| symbols := delete sym (symbols c);
                       priceData := delete sym (priceData c);
                       fundamentalData := delete sym (fundamentalData c) |};
         isConnected := isConnected st1 |}
  end.

(** What the three collections hold for a symbol; nothing while [db] is
    [null]. *)
Definition storedPrice (st : Store) (sym : string) : option (list PriceData) :=
  c ← db st; priceData c !! sym.

Definition storedFundamental (st : Store) (sym : string) : option FundamentalData :=
  c ← db st; fundamentalData c !! sym.

Definition storedSymbol (st : Store) (sym : string) : option DatabaseSymbol :=
  c ← db st; symbols c !! sym.

(** The writes of the module, as data, and their effect on the store. *)
Inductive Operation :=
| SavePrice (sym : string) (data : list PriceData) (stamp : string)
| SaveFundamental (sym : string) (data : FundamentalData) (stamp : string)
| DeleteSymbol (sym : string).

Definition perform (op : Operation) (st : Store) : Store :=
  match op with
  | SavePrice sym data stamp => savePriceDataToMongoDB sym data stamp st
  | SaveFundamental sym data stamp => saveFundamentalDataToMongoDB sym data stamp st
  | DeleteSymbol sym => deleteSymbolFromMongoDB sym st
  end.

Definition performAll (ops : list Operation) (st : Store) : Store :=
  foldl (fun s op => perform op s) st ops.

(** The relation between [status] and the two availability flags. *)
Definition isTrue (b : option bool) : Prop := b = Some true.

Definition exactlyOne (a b : option bool) : Prop :=
  (isTrue a ∧ ¬ isTrue b) ∨ (¬ isTrue a ∧ isTrue b).

Definition statusConsistent (r : DatabaseSymbol) : Prop :=
  (status r = Some "complete" ↔
     isTrue (priceDataAvailable r) ∧ isTrue (fundamentalDataAvailable r)) ∧
  (status r = Some "partial" ↔
     exactlyOne (priceDataAvailable r) (fundamentalDataAvailable r)).

(** The shape every stored metadata record has: at least one flag is
    [true] and [status] is computed from the two flags. *)
Definition shaped (r : DatabaseSymbol) : Prop :=
  truthy (priceDataAvailable r) || truthy (fundamentalDataAvailable r) = true ∧
  status r = Some (if truthy (priceDataAvailable r)
                      && truthy (fundamentalDataAvailable r)
                   then "complete" else "partial").

Definition allShaped (st : Store) : Prop :=
  ∀ sym r, storedSymbol st sym = Some r → shaped r.

(** Sample data. *)
Definition sampleRecord : PriceData :=
  {| date := 19723%Z; open := 100%Q; high := 101%Q; low := 99%Q;
     close := 100%Q; volume := 1000000%Z; adjustedClose := 100%Q |}.

Definition sampleFundamentals : FundamentalData :=
  {| fd_symbol := "AAPL";
     companyInfo :=
       {| name := "AAPL Corporation"; sector := "Technology";
          industry := "Hardware"; marketCap := 100000000%Z;
          enterpriseValue := 100000000%Z; trailingPE := 5%Q; forwardPE := 10%Q;
          pegRatio := 0.5%Q; priceToSales := 1%Q; priceToBook := 1%Q;
          enterpriseToRevenue := 2%Q; enterpriseToEbitda := 5%Q; beta := 0%Q;
          fiftyTwoWeekHigh := 150%Q; fiftyTwoWeekLow := 50%Q;
          dividendYield := 0%Q; dividendRate := 0%Q; exDividendDate := 19723%Z;
          payoutRatio := 0%Q; dividendPerShare := 0%Q |};
     financialStatements :=
       {| incomeStatement :=
            {| totalRevenue := 10000000%Z; grossProfit := 5000000%Z;
               operatingIncome := 2000000%Z; netIncome := 1000000%Z;
               earningsPerShare := 1%Q; dilutedEPS := 0.5%Q |};
          balanceSheet :=
            {| totalAssets := 20000000%Z; totalLiabilities := 10000000%Z;
               totalStockholderEquity := 10000000%Z; currentAssets := 5000000%Z;
               currentLiabilities := 2500000%Z; totalDebt := 5000000%Z |};
          cashFlow :=
            {| operatingCashFlow := 2000000%Z; investingCashFlow := (-1000000)%Z;
               financingCashFlow := 1000000%Z; freeCashFlow := 1500000%Z |} |} |}.

Definition sampleOps : list Operation :=
  [SavePrice "AAPL" [sampleRecord] "t0";
   SavePrice "MSFT" [] "t1";
   SaveFundamental "AAPL" sampleFundamentals "t2";
   DeleteSymbol "MSFT";
   SaveFundamental "MSFT" sampleFundamentals "t3"].

(** *** The queries and the connection *)

(** [isDatabaseConnected()] *)
Definition isDatabaseConnected (st : Store) : bool := isConnected st.

(** [x || dflt] for an optional string property: [undefined] and the empty
    string are falsy. *)
Definition orElse (x : option string) (dflt : string) : string :=
  match x with
  | Some s => if String.eqb s "" then dflt else s
  | None => dflt
  end.

(** [collection.forEach(f)] visits the entries of a [Map] in the order in
    which the keys were first inserted.  A [gmap] does not record that
    order, so the sequence of entries a traversal visits is an argument of
    the functions that iterate; [visitsAll] says that it enumerates the map,
    each entry once, and [keyOrder] is one such traversal. *)
Definition Traversal : Type := ∀ A : Type, gmap string A → list (string * A).

Definition visitsAll {A : Type} (forEach : Traversal) (m : gmap string A) : Prop :=
  forEach A m ≡ₚ map_to_list m.

Definition keyOrder : Traversal := fun A m => map_to_list m.

(** An element of the array [getSymbolsFromMongoDB] returns: every
    property is present. *)
Record SymbolRow := {
  row_symbol : string;
  row_name : string;
  row_priceDataAvailable : bool;
  row_fundamentalDataAvailable : bool;
  row_priceDataCount : nat;
  row_fundamentalDataCount : nat;
  row_lastUpdated : string;
  row_status : string
}.

(** The object pushed for one entry of the symbols collection. *)
Definition symbolRow (sym : string) (symbolData : DatabaseSymbol) : SymbolRow :=
  {| row_symbol := sym;
     row_name := orElse (ds_name symbolData) sym;
     row_priceDataAvailable := truthy (priceDataAvailable symbolData);
     row_fundamentalDataAvailable := truthy (fundamentalDataAvailable symbolData);
     row_priceDataCount := default 0%nat (priceDataCount symbolData);
     row_fundamentalDataCount := default 0%nat (fundamentalDataCount symbolData);
     row_lastUpdated := orElse (lastUpdated symbolData) "Never";
     row_status := orElse (status symbolData) "missing" |}.

(** [getSymbolsFromMongoDB()] *)
Definition getSymbolsFromMongoDB (forEach : Traversal) (st : Store)
  : list SymbolRow * Store :=
  let st1 := ensureConnected st in
  match db st1 with
  | None => ([], st1)
  | Some c =>
      ((fun entry => symbolRow entry.1 entry.2) <$> forEach _ (symbols c), st1)
  end.

(** The result of [getDatabaseStatsFromMongoDB]; [lastUpdate] is [None]
    for [null] and for [undefined]. *)
Record DatabaseStats := {
  totalSymbols : nat;
  symbolsWithPriceData : nat;
  symbolsWithFundamentalData : nat;
  totalPriceRecords : nat;
  totalFundamentalRecords : nat;
  lastUpdate : option string
}.

(** [if (!lastUpdate || symbolData.lastUpdated > lastUpdate)
       lastUpdate = symbolData.lastUpdated] *)
Definition laterUpdate (lastUpdate : option string) (symbolData : DatabaseSymbol)
  : option string :=
  match lastUpdate with
  | None => lastUpdated symbolData
  | Some current =>
      if String.eqb current "" then lastUpdated symbolData
      else match lastUpdated symbolData with
           | Some s => if strGt s current then Some s else lastUpdate
           | None => lastUpdate
           end
  end.

(** The callback of [symbolsCollection.forEach] in
    [getDatabaseStatsFromMongoDB], on the counters it updates. *)
Definition countSymbol (acc : DatabaseStats) (symbolData : DatabaseSymbol)
  : DatabaseStats :=
  {| totalSymbols := S (totalSymbols acc);
     symbolsWithPriceData :=
       if truthy (priceDataAvailable symbolData)
       then S (symbolsWithPriceData acc) else symbolsWithPriceData acc;
     symbolsWithFundamentalData :=
       if truthy (fundamentalDataAvailable symbolData)
       then S (symbolsWithFundamentalData acc) else symbolsWithFundamentalData acc;
     totalPriceRecords := totalPriceRecords acc;
     totalFundamentalRecords := totalFundamentalRecords acc;
     lastUpdate := laterUpdate (lastUpdate acc) symbolData |}.

(** The callback of [priceCollection.forEach]. *)
Definition countPriceRecords (acc : DatabaseStats) (priceData : list PriceData)
  : DatabaseStats :=
  {| totalSymbols := totalSymbols acc;
     symbolsWithPriceData := symbolsWithPriceData acc;
     symbolsWithFundamentalData := symbolsWithFundamentalData acc;
     totalPriceRecords := (totalPriceRecords acc + length priceData)%nat;
     totalFundamentalRecords := totalFundamentalRecords acc;
     lastUpdate := lastUpdate acc |}.

Definition noStats : DatabaseStats :=
  {| totalSymbols := 0; symbolsWithPriceData := 0; symbolsWithFundamentalData := 0;
     totalPriceRecords := 0; totalFundamentalRecords := 0; lastUpdate := None |}.

(** [getDatabaseStatsFromMongoDB()] *)
Definition getDatabaseStatsFromMongoDB (forEach : Traversal) (st : Store)
  : DatabaseStats * Store :=
  let st1 := ensureConnected st in
  match db st1 with
  | None => (noStats, st1)
  | Some c =>
      let counted := foldl countSymbol noStats (forEach _ (symbols c)).*2 in
      let summed := foldl countPriceRecords counted (forEach _ (priceData c)).*2 in
      ({| totalSymbols := totalSymbols summed;
          symbolsWithPriceData := symbolsWithPriceData summed;
          symbolsWithFundamentalData := symbolsWithFundamentalData summed;
          totalPriceRecords := totalPriceRecords summed;
          totalFundamentalRecords := size (fundamentalData c);
          lastUpdate := lastUpdate summed |}, st1)
  end.

(** Every exported function of the module, as a call on the store.  The
    four reads change nothing but the connection. *)
Inductive Call :=
| Connect
| Disconnect
| Update (op : Operation)
| Query.

Definition call (c : Call) (st : Store) : Store :=
  match c with
  | Connect => connectToDatabase st
  | Disconnect => disconnectFromDatabase st
  | Update op => perform op st
  | Query => ensureConnected st
  end.

Definition callAll (calls : list Call) (st : Store) : Store :=
  foldl (fun s c => call c s) st calls.

(** The symbol an operation writes. *)
Definition target (op : Operation) : string :=
  match op with
  | SavePrice sym _ _ => sym
  | SaveFundamental sym _ _ => sym
  | DeleteSymbol sym => sym
  end.

(** Metadata and collections agree: a symbol has a price series exactly
    when its metadata says so, with the right count, and likewise for its
    fundamentals. *)
Definition priceAgrees (c : Collections) (sym : string) : Prop :=
  match priceData c !! sym with
  | Some data =>
      ∃ r, symbols c !! sym = Some r ∧ priceDataAvailable r = Some true ∧
           priceDataCount r = Some (length data)
  | None =>
      ∀ r, symbols c !! sym = Some r →
           priceDataAvailable r = None ∧ priceDataCount r = None
  end.

Definition fundamentalAgrees (c : Collections) (sym : string) : Prop :=
  match fundamentalData c !! sym with
  | Some _ =>
      ∃ r, symbols c !! sym = Some r ∧ fundamentalDataAvailable r = Some true ∧
           fundamentalDataCount r = Some 1%nat
  | None =>
      ∀ r, symbols c !! sym = Some r →
           fundamentalDataAvailable r = None ∧ fundamentalDataCount r = None
  end.

(** The invariant of the collections, and of the module state. *)
Record agree (c : Collections) : Prop := {
  agree_price : ∀ sym, priceAgrees c sym;
  agree_fundamental : ∀ sym, fundamentalAgrees c sym;
  agree_rows : ∀ sym r, symbols c !! sym = Some r →
                 symbol r = Some sym ∧ ds_name r = None ∧
                 (∃ stamp, lastUpdated r = Some stamp) ∧ shaped r
}.

Record coherent (st : Store) : Prop := {
  coherent_connection : isConnected st = true ↔ is_Some (db st);
  coherent_collections : ∀ c, db st = Some c → agree c
}.

(** The listing of a store and the traversals that fit it. *)
Definition listing (forEach : Traversal) (st : Store) : list SymbolRow :=
  (getSymbolsFromMongoDB forEach st).1.

Definition traverses (forEach : Traversal) (st : Store) : Prop :=
  ∀ c, db (ensureConnected st) = Some c →
       visitsAll forEach (symbols c) ∧ visitsAll forEach (priceData c).

(** A session of the module from the moment it is loaded. *)
Definition sampleSession : list Call :=
  [Query; Update (SavePrice "AAPL" [sampleRecord] "2024-01-06T01:00:02.000Z");
   Update (SaveFundamental "MSFT" sampleFundamentals "2024-01-06T01:00:03.000Z");
   Disconnect; Connect;
   Update (SaveFundamental "AAPL" sampleFundamentals "2024-01-06T01:00:04.000Z");
   Update (SavePrice "IBM" [sampleRecord; sampleRecord] "2024-01-06T01:00:05.000Z")].

(** *** Calls in flight together *)

(** The functions above describe a call from the moment it is made to the
    moment it resolves when nothing else runs in between.  The source
    functions are asynchronous.  Each starts with
    [if (!db || !isConnected) await connectToDatabase()] and has no other
    [await]; [connectToDatabase], when it finds [db] null, waits for a
    timer of one second and then installs new, empty collections without
    looking at [db] again.  So a call that finds the connection runs to its
    end in one step, whatever else is in flight.  A call that finds none is
    suspended; when its timer fires it installs new collections, dropping
    what [db] holds by then, and runs the rest of its body.  The timers all
    wait the same second, so they fire in the order in which the calls were
    made. *)
Record Session := {
  current : Store;               (* [db] and [isConnected] now *)
  suspended : list Operation     (* the calls waiting in [connectToDatabase] *)
}.

(** The module when it is loaded: nothing is in flight. *)
Definition loaded : Session := {| current := initialStore; suspended := [] |}.

Inductive Happening :=
| Called (op : Operation)   (* one of the three writes is called *)
| TimerFired.               (* the oldest connection timer fires *)

(** [db = { ... new Map() ... }; isConnected = true], without a test. *)
Definition installed : Store := {| db := Some newCollections; isConnected := true |}.

Definition happen (s : Session) (h : Happening) : Session :=
  match h with
  | Called op =>
      match db (current s) with
      | None => {| current := current s; suspended := suspended s ++ [op] |}
      | Some _ => {| current := perform op (current s); suspended := suspended s |}
      end
  | TimerFired =>
      match suspended s with
      | op :: rest => {| current := perform op installed; suspended := rest |}
      | [] => s
      end
  end.

Definition happenAll (hs : list Happening) (s : Session) : Session :=
  foldl happen s hs.

(** The session when a call made in [s] has resolved and nothing else has
    happened meanwhile: at once when the call finds the connection, after
    the next timer otherwise. *)
Definition resolved (op : Operation) (s : Session) : Session :=
  match db (current s) with
  | Some _ => happen s (Called op)
  | None => happen (happen s (Called op)) TimerFired
  end.

(** No older call stands between a call made now and its own resumption:
    the call finds the connection, or no call is suspended. *)
Definition unhindered (s : Session) : Prop :=
  is_Some (db (current s)) ∨ suspended s = [].

(** Two saves made together on a module that was just loaded, as the tasks
    of a batch make them. *)
Definition saveAapl : Operation :=
  SavePrice "AAPL" [sampleRecord] "2024-01-06T01:00:02.000Z".

Definition saveMsft : Operation :=
  SavePrice "MSFT" [sampleRecord; sampleRecord] "2024-01-06T01:00:03.000Z".

End DatabaseService.

(** ** financialDataService.ts: the simulated market-data provider *)

Module FinancialDataService.
Import JSDate DatabaseService.

(** [Number(x.toFixed(2))]: the nearest multiple of 1/100, the larger one on
    a tie, the sign handled apart. *)
Definition roundHalfUp2 (x : Q) : Q := (Qfloor (x * 100 + (1 # 2))%Q # 100).

Definition toFixed2 (x : Q) : Q :=
  if Qle_bool 0 x then roundHalfUp2 x else (- roundHalfUp2 (- x))%Q.

(** What one call of [downloadPriceData] reads from the outside world.
    The only step of the function that can reject is the dynamic
    [import('./databaseService')], a chunk load in the browser. *)
Record DownloadEnv := {
  random : nat → Q;        (* the successive results of Math.random() *)
  nowEnd : Z;              (* new Date() for [end] *)
  nowStart : Z;            (* new Date() for [defaultStartDate] *)
  importResolves : bool;   (* does await import('./databaseService') resolve *)
  stamp : string           (* new Date().toISOString() inside the save *)
}.

(** What the task started for one symbol of a batch reads. *)
Record TaskEnv := {
  lastRandom : Q;              (* Math.random() in getLastAvailableDate *)
  lastNow : Z;                 (* Date.now() in getLastAvailableDate *)
  incNow : Z;                  (* new Date() in downloadIncrementalPriceData *)
  dl : DownloadEnv;            (* the downloadPriceData call *)
  saveImportResolves : bool;   (* the import() inside savePriceData *)
  saveStamp : string           (* new Date().toISOString() inside that save *)
}.

(** The caller's cancel token object. *)
Record CancelToken := {
  cancelled : bool;
  reason : option string
}.

Section WithTimeZone.
Variable tz : Zone.

(** [d.setDate(d.getDate() + 1)] *)
Definition nextDay (d : Z) : Z := setDate tz d (getDate tz d + 1)%Z.

(** [d.getDay() === 0 || d.getDay() === 6] *)
Definition isWeekend (d : Z) : bool :=
  (getDay tz d =? 0)%Z || (getDay tz d =? 6)%Z.

(** The body of the loop for a day that is kept: the new [currentPrice] and
    the record pushed; [k] is the number of [Math.random()] calls so far. *)
Definition mockRecord (rnd : nat → Q) (k : nat) (d : Z) (currentPrice : Q)
  : Q * PriceData :=
  let volatility := (0.02 + rnd k * 0.03)%Q in
  let change := ((rnd (k + 1)%nat - 0.5) * volatility * currentPrice)%Q in
  let currentPrice := Qmax (currentPrice + change)%Q 1%Q in
  let high := (currentPrice + rnd (k + 2)%nat * currentPrice * 0.02)%Q in
  let low := (currentPrice - rnd (k + 3)%nat * currentPrice * 0.02)%Q in
  let open := (low + rnd (k + 4)%nat * (high - low))%Q in
  let volume := (Qfloor (rnd (k + 5)%nat * 10000000)%Q + 1000000)%Z in
  (currentPrice,
   {| date := toISODate d;
      open := toFixed2 open;
      high := toFixed2 high;
      low := toFixed2 low;
      close := toFixed2 currentPrice;
      volume := volume;
      adjustedClose := toFixed2 currentPrice |}).

(** [for (let d = new Date(start); d <= end; d.setDate(d.getDate() + 1))];
    [None] when the fuel runs out before the loop condition fails. *)
Fixpoint priceLoop (fuel : nat) (rnd : nat → Q) (k : nat) (d endT : Z)
  (currentPrice : Q) (priceData : list PriceData) : option (list PriceData) :=
  match fuel with
  | O => None
  | S fuel' =>
      if (d <=? endT)%Z then
        if isWeekend d then
          priceLoop fuel' rnd k (nextDay d) endT currentPrice priceData
        else
          let '(currentPrice', record) := mockRecord rnd k d currentPrice in
          priceLoop fuel' rnd (k + 6) (nextDay d) endT currentPrice'
                    (priceData ++ [record])
      else Some priceData
  end.

(** Twice the number of days between the two ends, and one more: enough
    for the loop whenever [setDate(getDate() + 1)] moves the time value
    forward by half a day or more, as it does in a zone whose transitions
    shift the clock by hours. *)
Definition loopFuel (start endT : Z) : nat :=
  S (Z.to_nat (2 * ((endT - start) / msPerDay + 1))).

(** [start] and [end]: the arguments when given, else forty years before
    now and now. *)
Definition loopStart (e : DownloadEnv) (startDate : option IsoDate) : Z :=
  let defaultStartDate :=
    setFullYear tz (nowStart e) (getFullYear tz (nowStart e) - 40)%Z in
  match startDate with Some s => parseIsoDate s | None => defaultStartDate end.

Definition loopEnd (e : DownloadEnv) (endDate : option IsoDate) : Z :=
  match endDate with Some s => parseIsoDate s | None => nowEnd e end.


(** The array built by [downloadPriceData]: [random 0] is drawn for the
    simulated delay, [random 1] for the initial price. *)
Definition generatePriceData (e : DownloadEnv) (startDate endDate : option IsoDate)
  : list PriceData :=
  let endT := loopEnd e endDate in
  let start := loopStart e startDate in
  let currentPrice := (100 + random e 1%nat * 200)%Q in
  default [] (priceLoop (loopFuel start endT) (random e) 2 start endT currentPrice []).

(** [downloadPriceData(symbol, startDate?, endDate?)]: the generated array
    is saved to the store and returned; [None] is the rethrown error. *)
Definition downloadPriceData (e : DownloadEnv) (sym : string)
  (startDate endDate : option IsoDate) (st : Store)
  : option (list PriceData) * Store :=
  let priceData := generatePriceData e startDate endDate in
  if importResolves e
  then (Some priceData, savePriceDataToMongoDB sym priceData (stamp e) st)
  else (None, st).

(** [getLastAvailableDate(symbol)]: a day of the last thirty. *)
Definition getLastAvailableDate (r : Q) (now : Z) : option IsoDate :=
  let daysAgo := Qfloor (r * 30)%Q in
  Some (toISODate (now - daysAgo * msPerDay)%Z).

(** The two arguments [downloadIncrementalPriceData] passes on. *)
Definition incrementalStart (lastAvailableDate : IsoDate) : IsoDate :=
  toISODate (nextDay (parseIsoDate lastAvailableDate)).

Definition incrementalEnd (e : TaskEnv) : IsoDate := toISODate (incNow e).

Definition downloadIncrementalPriceData (e : TaskEnv) (sym : string)
  (lastAvailableDate : IsoDate) (st : Store) : option (list PriceData) * Store :=
  downloadPriceData (dl e) sym
    (Some (incrementalStart lastAvailableDate)) (Some (incrementalEnd e)) st.

(** [savePriceData(symbol, priceData)]: [false] is the rethrown error. *)
Definition savePriceData (e : TaskEnv) (sym : string) (priceData : list PriceData)
  (st : Store) : bool * Store :=
  if saveImportResolves e
  then (true, savePriceDataToMongoDB sym priceData (saveStamp e) st)
  else (false, st).

(** [deletePriceData(symbol)] only waits and logs: the store is not
    touched. *)
Definition deletePriceData (sym : string) (st : Store) : Store := st.

End WithTimeZone.

(** *** The batch download *)

Definition batchSize : nat := 100.

(** What a run leaves behind for an observer.  [pos] is the position of
    the symbol in the [symbols] argument. *)
Inductive Event :=
| Progress (snapshot : list DownloadProgress)
| Dispatched (pos : nat) (sym : string)
| LastDateQueried (pos : nat) (sym : string) (result : option IsoDate)
| Downloaded (pos : nat) (sym : string) (startDate endDate : option IsoDate)
             (result : option (list PriceData))
| PriceDataDeleted (pos : nat) (sym : string)
| Saved (pos : nat) (sym : string) (priceData : list PriceData) (ok : bool)
| BatchCompleted (number total successful failed : nat).

(** The state shared by the tasks of a call: the store, the [progress]
    array and the events so far. *)
Record Shared := {
  store : Store;
  progressArray : list DownloadProgress;
  events : list Event
}.

Definition emit (ev : Event) (sh : Shared) : Shared :=
  {| store := store sh; progressArray := progressArray sh;
     events := events sh ++ [ev] |}.

Definition withStore (st : Store) (sh : Shared) : Shared :=
  {| store := st; progressArray := progressArray sh; events := events sh |}.

Definition withProgress (p : list DownloadProgress) (sh : Shared) : Shared :=
  {| store := store sh; progressArray := p; events := events sh |}.

(** Where the async callback of one symbol stands between two awaits. *)
Inductive TaskState :=
| Start
| LookedUp (lastDate : option IsoDate)
| Fetched (priceData : list PriceData)
| Deleted (priceData : list PriceData)
| Finished (success : bool).

Definition isFinished (ts : TaskState) : bool :=
  match ts with Finished _ => true | _ => false end.

Definition succeeded (ts : TaskState) : bool :=
  match ts with Finished true => true | _ => false end.

(** [symbols.indexOf(symbol)] *)
Fixpoint indexOf (l : list string) (sym : string) : option nat :=
  match l with
  | [] => None
  | x :: l' => if String.eqb x sym then Some 0%nat else S <$> indexOf l' sym
  end.

(** [progress[index] = { ...progress[index], ...changes }], for an index
    inside the array. *)
Definition updateProgress (index : option nat)
  (changes : DownloadProgress → DownloadProgress)
  (p : list DownloadProgress) : list DownloadProgress :=
  match index with
  | Some g => alter changes g p
  | None => p
  end.

Definition initialEntry (sym : string) : DownloadProgress :=
  {| dp_symbol := sym; type := "price"; progress := 0;
     dp_status := "pending"; message := "Waiting to start..." |}.

Definition markDownloading (override : bool) (p : DownloadProgress) : DownloadProgress :=
  {| dp_symbol := dp_symbol p; type := type p; progress := progress p;
     dp_status := "downloading";
     message := if override then "Downloading (override mode)..."
                else "Downloading price data..." |}.

Definition markComplete (override : bool) (count : nat) (p : DownloadProgress)
  : DownloadProgress :=
  {| dp_symbol := dp_symbol p; type := type p; progress := 100;
     dp_status := "complete";
     message := if override
                then "Downloaded " +:+ natToString count +:+ " records (override)"
                else "Downloaded " +:+ natToString count +:+ " records" |}.

Definition markFailed (p : DownloadProgress) : DownloadProgress :=
  {| dp_symbol := dp_symbol p; type := type p; progress := progress p;
     dp_status := "error"; message := "Download failed" |}.

(** [cancelToken.reason || 'Download was cancelled'] *)
Definition reasonText (t : CancelToken) : string :=
  match reason t with
  | Some r => if String.eqb r "" then "Download was cancelled" else r
  | None => "Download was cancelled"
  end.

Definition markCancelled (t : CancelToken) (p : DownloadProgress) : DownloadProgress :=
  {| dp_symbol := dp_symbol p; type := type p; progress := progress p;
     dp_status := "error"; message := "Cancelled: " +:+ reasonText t |}.

Section Batch.
Variable tz : Zone.
Variable symbols : list string.
(** Was an [onProgress] callback passed. *)
Variable onProgress : bool.
(** [options.override], [false] when absent. *)
Variable override : bool.
(** [options.cancelToken]: the state of the caller's object when the loop
    reaches its k-th batch boundary. *)
Variable cancelToken : option (nat → CancelToken).
(** The environment of the task at each position. *)
Variable envs : nat → TaskEnv.
(** For each batch, the order in which the event loop resumes its tasks:
    indices into the batch, one per resumption. *)
Variable sched : nat → list nat.

(** [if (onProgress) onProgress([...progress])]: the callback, when there
    is one, is handed the array as it stands.  (The very first call hands
    over the live array rather than a copy; the event records what the
    array holds at the time of the call.) *)
Definition report (sh : Shared) : Shared :=
  if onProgress then emit (Progress (progressArray sh)) sh else sh.

(** The call of [downloadPriceData] with its outcome: the record of the
    call, then either the data or the [catch] branch of the task. *)
Definition afterDownload (pos : nat) (sym : string)
  (startDate endDate : option IsoDate)
  (outcome : option (list PriceData) * Store) (sh : Shared) : TaskState * Shared :=
  let sh1 := emit (Downloaded pos sym startDate endDate outcome.1)
                  (withStore outcome.2 sh) in
  match outcome.1 with
  | Some priceData => (Fetched priceData, sh1)
  | None =>
      (Finished false,
       withProgress (updateProgress (indexOf symbols sym) markFailed
                                    (progressArray sh1)) sh1)
  end.

(** [await this.savePriceData(symbol, priceData)] and what follows it. *)
Definition saveStep (pos : nat) (sym : string) (e : TaskEnv)
  (priceData : list PriceData) (sh : Shared) : TaskState * Shared :=
  let outcome := savePriceData e sym priceData (store sh) in
  let sh1 := emit (Saved pos sym priceData outcome.1) (withStore outcome.2 sh) in
  if outcome.1
  then (Finished true,
        withProgress (updateProgress (indexOf symbols sym)
                        (markComplete override (length priceData))
                        (progressArray sh1)) sh1)
  else (Finished false,
        withProgress (updateProgress (indexOf symbols sym) markFailed
                                     (progressArray sh1)) sh1).

(** One resumption of the task of the symbol at [pos]: it runs up to its
    next await. *)
Definition taskStep (pos : nat) (sym : string) (e : TaskEnv)
  (ts : TaskState) (sh : Shared) : TaskState * Shared :=
  match ts with
  | Start =>
      if override
      then afterDownload pos sym None None
             (downloadPriceData tz (dl e) sym None None (store sh)) sh
      else let lastDate := getLastAvailableDate (lastRandom e) (lastNow e) in
           (LookedUp lastDate, emit (LastDateQueried pos sym lastDate) sh)
  | LookedUp lastDate =>
      match lastDate with
      | Some d =>
          afterDownload pos sym
            (Some (incrementalStart tz d)) (Some (incrementalEnd e))
            (downloadIncrementalPriceData tz e sym d (store sh)) sh
      | None =>
          afterDownload pos sym None None
            (downloadPriceData tz (dl e) sym None None (store sh)) sh
      end
  | Fetched priceData =>
      if override
      then (Deleted priceData,
            emit (PriceDataDeleted pos sym)
                 (withStore (deletePriceData sym (store sh)) sh))
      else saveStep pos sym e priceData sh
  | Deleted priceData => saveStep pos sym e priceData sh
  | Finished success => (Finished success, sh)
  end.

(** The tasks of the batch that starts at index [i], with the shared
    state. *)
Definition BatchState : Type := list TaskState * Shared.

(** Resume task [j] of the batch. *)
Definition resume (i : nat) (bs : BatchState) (j : nat) : BatchState :=
  match bs.1 !! j, symbols !! (i + j)%nat with
  | Some ts, Some sym =>
      let r := taskStep (i + j) sym (envs (i + j)%nat) ts bs.2 in
      (<[j := r.1]> bs.1, r.2)
  | _, _ => bs
  end.

(** After the scheduled resumptions every task is resumed until it has
    settled: three rounds over the batch, since no task has more than three
    awaits. *)
Definition settleOrder (size : nat) : list nat :=
  seq 0 size ++ seq 0 size ++ seq 0 size.

(** [batch.forEach((symbol, batchIndex) => progress[i + batchIndex] = ...)] *)
Definition markBatch (i size : nat) (p : list DownloadProgress)
  : list DownloadProgress :=
  foldl (fun acc j => updateProgress (Some (i + j)%nat) (markDownloading override) acc)
        p (seq 0 size).

(** [batch.map(async (symbol) => ...)]: every task of the batch is started. *)
Definition dispatch (i : nat) (batch : list string) (sh : Shared) : Shared :=
  foldl (fun acc ev => emit ev acc) sh
        (imap (fun batchIndex sym => Dispatched (i + batchIndex) sym) batch).

(** [Math.ceil(symbols.length / batchSize)] *)
Definition totalBatches : nat := ((length symbols + (batchSize - 1)) / batchSize)%nat.

(** One iteration of the loop past the cancellation check. *)
Definition processBatch (i : nat) (sh : Shared) : Shared :=
  let batch := take batchSize (drop i symbols) in
  let sh1 := withProgress (markBatch i (length batch) (progressArray sh)) sh in
  let sh2 := dispatch i batch (report sh1) in
  let settled :=
    foldl (resume i) (replicate (length batch) Start, sh2)
          (sched (i / batchSize)%nat ++ settleOrder (length batch)) in
  let successful := length (filter (fun ts => succeeded ts = true) settled.1) in
  let failed := length (filter (fun ts => succeeded ts = false) settled.1) in
  emit (BatchCompleted (i / batchSize + 1) totalBatches successful failed)
       (report settled.2).

(** [cancelToken?.cancelled] at the boundary before batch [k]. *)
Definition tokenAt (k : nat) : option CancelToken :=
  (fun f => f k) <$> cancelToken.

(** The [if (cancelToken?.cancelled)] branch: every entry of [progress] is
    reported as cancelled, when there is a callback, and the call returns. *)
Definition cancelReport (t : CancelToken) (sh : Shared) : Shared :=
  if onProgress
  then emit (Progress (map (markCancelled t) (progressArray sh))) sh
  else sh.

(** [for (let i = 0; i < symbols.length; i += batchSize)] *)
Fixpoint batchLoop (fuel i : nat) (sh : Shared) : option Shared :=
  match fuel with
  | O => None
  | S fuel' =>
      if (i <? length symbols)%nat then
        match tokenAt (i / batchSize) with
        | Some t =>
            if cancelled t then Some (cancelReport t sh)
            else batchLoop fuel' (i + batchSize) (processBatch i sh)
        | None => batchLoop fuel' (i + batchSize) (processBatch i sh)
        end
      else Some sh
  end.

(** [downloadBatchPriceData(symbols, onProgress, options)], started on the
    store [st]; [None] only if the loop ran out of fuel. *)
Definition downloadBatchPriceData (st : Store) : option Shared :=
  let progress := map initialEntry symbols in
  batchLoop (S (length symbols)) 0
    (report {| store := st; progressArray := progress; events := [] |}).

End Batch.

(** The batch an index belongs to, and its events. *)
Definition batchAt (symbols : list string) (k : nat) : list string :=
  take batchSize (drop (k * batchSize) symbols).

Definition eventBatch (ev : Event) : option nat :=
  match ev with
  | Progress _ => None
  | Dispatched pos _ => Some (pos / batchSize)%nat
  | LastDateQueried pos _ _ => Some (pos / batchSize)%nat
  | Downloaded pos _ _ _ _ => Some (pos / batchSize)%nat
  | PriceDataDeleted pos _ => Some (pos / batchSize)%nat
  | Saved pos _ _ _ => Some (pos / batchSize)%nat
  | BatchCompleted number _ _ _ => Some (number - 1)%nat
  end.

(** *** Vocabulary of the properties *)

(** A price record whose open and close lie between low and high and
    whose close is at least 1. *)
Definition wellFormed (r : PriceData) : Prop :=
  (low r <= open r)%Q ∧ (open r <= high r)%Q ∧
  (low r <= close r)%Q ∧ (close r <= high r)%Q ∧ (1 <= close r)%Q.

(** The record is dated on a Sunday or a Saturday. *)
Definition onWeekend (r : PriceData) : Prop :=
  WeekDayOfDay (date r) = 0%Z ∨ WeekDayOfDay (date r) = 6%Z.

(** The local calendar day of an instant is its UTC day. *)
Definition sameDay (tz : Zone) (t : Z) : Prop := Day (LocalTime tz t) = Day t.

(** [Math.random()] returns a number in [0, 1). *)
Definition inUnitInterval (rnd : nat → Q) : Prop :=
  ∀ n, (0 <= rnd n)%Q ∧ (rnd n < 1)%Q.

(** [ev1] occurs before [ev2] in [l]. *)
Definition before (ev1 ev2 : Event) (l : list Event) : Prop :=
  ∃ m n, (m < n)%nat ∧ l !! m = Some ev1 ∧ l !! n = Some ev2.

(** The place of an event in the succession of batches: the events of the
    tasks of batch [k] have rank [2k + 1], its completion has rank
    [2k + 2]. *)
Definition eventRank (ev : Event) : option nat :=
  match ev with
  | Progress _ => None
  | BatchCompleted number _ _ _ => Some (2 * (number - 1) + 2)%nat
  | _ => (fun k => 2 * k + 1)%nat <$> eventBatch ev
  end.

(** Events are never out of rank order. *)
Definition inBatchOrder (l : list Event) : Prop :=
  ∀ m n ev1 ev2 r1 r2,
    (m ≤ n)%nat → l !! m = Some ev1 → l !! n = Some ev2 →
    eventRank ev1 = Some r1 → eventRank ev2 = Some r2 → (r1 ≤ r2)%nat.

Definition dispatchedOf (ev : Event) : option (nat * string) :=
  match ev with Dispatched pos sym => Some (pos, sym) | _ => None end.

(** The steps a task still has before it settles. *)
Definition remaining (override : bool) (ts : TaskState) : nat :=
  match ts with
  | Start => 3
  | LookedUp _ => if override then 3 else 2
  | Fetched _ => if override then 2 else 1
  | Deleted _ => 1
  | Finished _ => 0
  end.

(** [count] iterations of the loop from batch [k] on, none cancelled. *)
Fixpoint processFrom (tz : Zone) (symbols : list string) (onProgress override : bool)
  (envs : nat → TaskEnv) (sched : nat → list nat)
  (k count : nat) (sh : Shared) : Shared :=
  match count with
  | O => sh
  | S count' =>
      processFrom tz symbols onProgress override envs sched (S k) count'
        (processBatch tz symbols onProgress override envs sched (k * batchSize) sh)
  end.

(** [cancelToken?.cancelled] as a boolean, at boundary [k]. *)
Definition cancelledAt (cancelToken : option (nat → CancelToken)) (k : nat) : bool :=
  match cancelToken with
  | Some token => cancelled (token k)
  | None => false
  end.

(** The token is absent or not cancelled at boundary [k]. *)
Definition goesOn (cancelToken : option (nat → CancelToken)) (k : nat) : Prop :=
  cancelledAt cancelToken k = false.

(** The first boundary, among those the loop can reach, at which the token
    is cancelled. *)
Definition firstCancelled (cancelToken : option (nat → CancelToken))
  (symbols : list string) : option nat :=
  fst <$> list_find (fun k => cancelledAt cancelToken k = true)
                    (seq 0 (totalBatches symbols)).

(** The number of batches a call processes. *)
Definition batchesRun (cancelToken : option (nat → CancelToken))
  (symbols : list string) : nat :=
  default (totalBatches symbols) (firstCancelled cancelToken symbols).

Definition remainingAt (override : bool) (tasks : list TaskState) (j : nat) : nat :=
  from_option (remaining override) 0%nat (tasks !! j).

(** The state of a call once its last batch has completed, and the
    progress report of a cancellation after it. *)
Definition afterBatches (tz : Zone) (symbols : list string) (onProgress override : bool)
  (cancelToken : option (nat → CancelToken))
  (envs : nat → TaskEnv) (sched : nat → list nat) (sh : Shared) : Shared :=
  processFrom tz symbols onProgress override envs sched 0
    (batchesRun cancelToken symbols) sh.

Definition finalReport (symbols : list string) (onProgress : bool)
  (cancelToken : option (nat → CancelToken)) (sh : Shared) : Shared :=
  match firstCancelled cancelToken symbols with
  | Some c =>
      match tokenAt cancelToken c with
      | Some t => cancelReport onProgress t sh
      | None => sh
      end
  | None => sh
  end.

(** The state in which the loop is entered. *)
Definition initialShared (symbols : list string) (onProgress : bool) (st : Store)
  : Shared :=
  report onProgress
    {| store := st; progressArray := map initialEntry symbols; events := [] |}.

(** A browser five hours west of UTC all year, on Saturday 2024-01-06 at
    01:00 UTC; every [Math.random()] is 1/2 and every import resolves. *)
Definition westOfUtc : Z := (-300)%Z.

Definition saturdayEnv : DownloadEnv :=
  {| random := fun _ => (1 # 2)%Q;
     nowEnd := (19728 * msPerDay + 3600000)%Z;
     nowStart := (19728 * msPerDay + 3600000)%Z;
     importResolves := true;
     stamp := "2024-01-06T01:00:02.000Z" |}.

Definition saturdayTask : TaskEnv :=
  {| lastRandom := (1 # 30)%Q;
     lastNow := (19728 * msPerDay + 3600000)%Z;
     incNow := (19728 * msPerDay + 3600000)%Z;
     dl := saturdayEnv;
     saveImportResolves := true;
     saveStamp := "2024-01-06T01:00:04.000Z" |}.

(** *** What a run guarantees about its events *)

Section Guarantees.
Variable tz : Zone.
Variable symbols : list string.
Variable override : bool.
Variable envs : nat → TaskEnv.

(** The arguments of the download that follows a lookup result. *)
Definition lookupArgs (pos : nat) (lastDate : option IsoDate)
  : option IsoDate * option IsoDate :=
  match lastDate with
  | Some d => (Some (incrementalStart tz d), Some (incrementalEnd (envs pos)))
  | None => (None, None)
  end.

(** What [downloadPriceData] returns to the task at [pos]. *)
Definition downloadOutcome (pos : nat) (startDate endDate : option IsoDate)
  : option (list PriceData) :=
  if importResolves (dl (envs pos))
  then Some (generatePriceData tz (dl (envs pos)) startDate endDate)
  else None.

(** Every download on record was made for the symbol at its position,
    returned what [downloadPriceData] returns, and took its arguments from
    the mode: none under override, else those of an earlier lookup of the
    same task. *)
Definition downloadsGenuine (l : list Event) : Prop :=
  ∀ n pos sym a b r,
    l !! n = Some (Downloaded pos sym a b r) →
    symbols !! pos = Some sym ∧
    r = downloadOutcome pos a b ∧
    if override then a = None ∧ b = None
    else ∃ m lastDate,
        (m < n)%nat ∧ l !! m = Some (LastDateQueried pos sym lastDate) ∧
        (a, b) = lookupArgs pos lastDate.

(** Every lookup on record was made without override and returned what
    [getLastAvailableDate] returns. *)
Definition lookupsGenuine (l : list Event) : Prop :=
  ∀ pos sym lastDate,
    LastDateQueried pos sym lastDate ∈ l →
    override = false ∧
    lastDate = getLastAvailableDate (lastRandom (envs pos)) (lastNow (envs pos)).

(** A symbol that was downloaded holds in the store the result of one of
    its downloads. *)
Definition storeFresh (l : list Event) (st : Store) : Prop :=
  ∀ s, (∃ pos a b d, Downloaded pos s a b (Some d) ∈ l) →
       ∃ pos a b d, Downloaded pos s a b (Some d) ∈ l ∧ storedPrice st s = Some d.

(** The events are in batch order and none is past rank [bound]. *)
Definition ranked (bound : nat) (l : list Event) : Prop :=
  inBatchOrder l ∧ ∀ ev r, ev ∈ l → eventRank ev = Some r → (r ≤ bound)%nat.

(** What the events say about a task in a given state. *)
Definition settledWell (pos : nat) (sym : string) (l : list Event) : Prop :=
  ∃ a b d,
    before (Downloaded pos sym a b (Some d)) (Saved pos sym d true) l ∧
    (override = true →
     before (Downloaded pos sym a b (Some d)) (PriceDataDeleted pos sym) l ∧
     before (PriceDataDeleted pos sym) (Saved pos sym d true) l).

Definition taskInv (pos : nat) (sym : string) (ts : TaskState) (l : list Event)
  : Prop :=
  match ts with
  | Start => True
  | LookedUp lastDate => override = false ∧ LastDateQueried pos sym lastDate ∈ l
  | Fetched d => ∃ a b, Downloaded pos sym a b (Some d) ∈ l
  | Deleted d =>
      ∃ a b, before (Downloaded pos sym a b (Some d)) (PriceDataDeleted pos sym) l
  | Finished ok =>
      (∃ a b r, Downloaded pos sym a b r ∈ l) ∧
      (if ok then settledWell pos sym l
       else importResolves (dl (envs pos)) && saveImportResolves (envs pos) = false)
  end.

(** The invariant of the loop. *)
Record RunInv (bound : nat) (sh : Shared) : Prop := {
  inv_genuine : downloadsGenuine (events sh);
  inv_lookup : lookupsGenuine (events sh);
  inv_fresh : storeFresh (events sh) (store sh);
  inv_ranked : ranked bound (events sh);
  inv_progress : map dp_symbol (progressArray sh) = symbols
}.

(** The invariant of a batch in flight: the tasks of the batch that starts
    at [i] stand where the events say. *)
Definition tasksInv (i : nat) (tasks : list TaskState) (l : list Event) : Prop :=
  ∀ j ts, tasks !! j = Some ts →
    ∃ sym, symbols !! (i + j)%nat = Some sym ∧ taskInv (i + j) sym ts l.

(** The invariant of batch [k], which starts at index [i], while its tasks
    are being resumed. *)
Definition batchInv (k i : nat) (bs : BatchState) : Prop :=
  (length bs.1 ≤ batchSize)%nat ∧
  RunInv (2 * k + 1) bs.2 ∧
  tasksInv i bs.1 (events bs.2).

(** The first [k] batches have been processed in full: their symbols were
    dispatched, once each and in order, every one of their tasks has
    settled, and every one of them was reported complete. *)
Definition processedUpTo (k : nat) (l : list Event) : Prop :=
  omap dispatchedOf l = imap pair (take (k * batchSize) symbols) ∧
  (∀ pos sym, (pos < k * batchSize)%nat → symbols !! pos = Some sym →
     ∃ ok, taskInv pos sym (Finished ok) l) ∧
  (∀ j, (j < k)%nat →
     ∃ successful failed,
       BatchCompleted (j + 1) (totalBatches symbols) successful failed ∈ l ∧
       (successful + failed)%nat = length (batchAt symbols j)).

End Guarantees.

(** [sh'] has the events of [sh] and then more, none of them a dispatch
    or a batch completion. *)
Definition extends (sh sh' : Shared) : Prop :=
  ∃ new, events sh' = events sh ++ new ∧
         omap dispatchedOf new = [] ∧
         ∀ ev, ev ∈ new → ∀ n t s f, ev ≠ BatchCompleted n t s f.

(** Sample inputs: 150 symbols (two batches), every task in the
    environment of [saturdayTask], tasks resumed out of order, and a token
    that the caller cancels while the first batch is in flight. *)
Definition sampleSymbols : list string :=
  (fun i => "SYM" +:+ natToString i) <$> seq 0 150.

Definition sampleEnvs : nat → TaskEnv := fun _ => saturdayTask.

Definition sampleSched : nat → list nat := fun _ => [1; 0; 2; 1; 0]%nat.

Definition cancelledInFlight : nat → CancelToken :=
  fun k => {| cancelled := (1 <=? k)%nat; reason := Some "User cancelled" |}.

(** Europe/Berlin around 31 March 2024: CET (UTC+1) until 01:00 UTC of
    that Sunday, CEST (UTC+2) from then on. *)
Definition berlinSpring2024 : Zone :=
  oneTransition 60 120 (19813 * msPerDay + 3600000).

(** A task run on Monday 2024-04-01 at 10:00 UTC, whose lookup answers one
    day back: Sunday 2024-03-31. *)
Definition mondayEnv : DownloadEnv :=
  {| random := fun _ => (1 # 2)%Q;
     nowEnd := (19814 * msPerDay + 36000000)%Z;
     nowStart := (19814 * msPerDay + 36000000)%Z;
     importResolves := true;
     stamp := "2024-04-01T10:00:02.000Z" |}.

Definition mondayTask : TaskEnv :=
  {| lastRandom := (1 # 16)%Q;
     lastNow := (19814 * msPerDay + 36000000)%Z;
     incNow := (19814 * msPerDay + 36000000)%Z;
     dl := mondayEnv;
     saveImportResolves := true;
     saveStamp := "2024-04-01T10:00:04.000Z" |}.




(** A store that is connected and holds nothing, and one that holds a
    series for AAPL. *)
Definition connectedStore : Store := connectToDatabase initialStore.

Definition storeWithAapl : Store :=
  savePriceDataToMongoDB "AAPL" [sampleRecord] "2024-01-02T09:00:00.000Z"
    initialStore.

(** *** The outcome of a batch download *)

Section Outcome.
Variable tz : Zone.
Variable symbols : list string.
Variable override : bool.
Variable envs : nat → TaskEnv.
(** The store when the call is made. *)
Variable st0 : Store.

(** The arguments with which the task at [pos] calls [downloadPriceData],
    and the array that call builds. *)
Definition taskArgs (pos : nat) : option IsoDate * option IsoDate :=
  if override then (None, None)
  else lookupArgs tz envs pos
         (getLastAvailableDate (lastRandom (envs pos)) (lastNow (envs pos))).

Definition taskData (pos : nat) : list PriceData :=
  generatePriceData tz (dl (envs pos)) (taskArgs pos).1 (taskArgs pos).2.

(** The entry of [progress] of a symbol whose batch has started, and the
    one its task leaves when it settles. *)
Definition startedEntry (sym : string) : DownloadProgress :=
  markDownloading override (initialEntry sym).

Definition settledEntry (pos : nat) (sym : string) : DownloadProgress :=
  if importResolves (dl (envs pos)) && saveImportResolves (envs pos)
  then markComplete override (length (taskData pos)) (startedEntry sym)
  else markFailed (startedEntry sym).

(** The price series of the symbol once its task has come back from
    [downloadPriceData]. *)
Definition settledPrice (pos : nat) (sym : string) : option (list PriceData) :=
  if importResolves (dl (envs pos)) then Some (taskData pos)
  else storedPrice st0 sym.

Definition hasDownloaded (ts : TaskState) : bool :=
  match ts with
  | Fetched _ | Deleted _ | Finished _ => true
  | Start | LookedUp _ => false
  end.

(** The entry and the stored series of the symbol at [pos], by the state
    of its task; [None] is a task not started yet. *)
Definition entryIn (pos : nat) (sym : string) (ts : option TaskState)
  : DownloadProgress :=
  match ts with
  | None => initialEntry sym
  | Some (Finished _) => settledEntry pos sym
  | Some _ => startedEntry sym
  end.

Definition priceIn (pos : nat) (sym : string) (ts : option TaskState)
  : option (list PriceData) :=
  match ts with
  | Some ts => if hasDownloaded ts then settledPrice pos sym
               else storedPrice st0 sym
  | None => storedPrice st0 sym
  end.

(** What a task in a given state has been through. *)
Definition taskOk (pos : nat) (ts : TaskState) : Prop :=
  match ts with
  | Start => True
  | LookedUp lastDate =>
      override = false ∧
      lastDate = getLastAvailableDate (lastRandom (envs pos)) (lastNow (envs pos))
  | Fetched d | Deleted d =>
      importResolves (dl (envs pos)) = true ∧ d = taskData pos
  | Finished ok =>
      ok = importResolves (dl (envs pos)) && saveImportResolves (envs pos)
  end.

(** Where the task of position [g] stands while the batch that starts at
    [i] is in flight with [tasks]: the tasks of earlier batches have
    settled, those of later batches have not started. *)
Definition stateAt (i : nat) (tasks : list TaskState) (g : nat)
  : option TaskState :=
  if (g <? i)%nat
  then Some (Finished (importResolves (dl (envs g)) && saveImportResolves (envs g)))
  else tasks !! (g - i)%nat.

(** The invariant of the store and of the progress array. *)
Record OutcomeInv (i : nat) (tasks : list TaskState) (sh : Shared) : Prop := {
  out_fundamental :
    ∀ sym, storedFundamental (store sh) sym = storedFundamental st0 sym;
  out_others :
    ∀ sym, sym ∉ symbols →
           storedPrice (store sh) sym = storedPrice st0 sym ∧
           storedSymbol (store sh) sym = storedSymbol st0 sym;
  out_length : length (progressArray sh) = length symbols;
  out_tasks : ∀ j ts, tasks !! j = Some ts → taskOk (i + j) ts;
  out_repeated :
    ∀ g sym, symbols !! g = Some sym → indexOf symbols sym ≠ Some g →
      progressArray sh !! g
      = Some (if (g <? i + length tasks)%nat then startedEntry sym
              else initialEntry sym);
  out_progress :
    NoDup symbols →
    ∀ g sym, symbols !! g = Some sym →
      progressArray sh !! g = Some (entryIn g sym (stateAt i tasks g));
  out_price :
    NoDup symbols →
    ∀ g sym, symbols !! g = Some sym →
      storedPrice (store sh) sym = priceIn g sym (stateAt i tasks g)
}.

(** The entry and the series of a position once [k] batches have run. *)
Definition entryAfter (k pos : nat) (sym : string) : DownloadProgress :=
  if (pos <? k * batchSize)%nat then settledEntry pos sym else initialEntry sym.

Definition priceAfter (k pos : nat) (sym : string) : option (list PriceData) :=
  if (pos <? k * batchSize)%nat then settledPrice pos sym else storedPrice st0 sym.

End Outcome.

(** A list that repeats a symbol, in one batch. *)
Definition repeatedSymbols : list string := ["AAPL"; "MSFT"; "AAPL"].

(** *** The rest of the provider *)







(** [getDatabaseSymbols()]: the listing of the store; [None] is the
    rethrown error of a dynamic import that does not resolve. *)
Definition getDatabaseSymbols (importResolves : bool) (forEach : Traversal)
  (st : Store) : option (list SymbolRow) * Store :=
  if importResolves
  then let r := getSymbolsFromMongoDB forEach st in (Some r.1, r.2)
  else (None, st).

(** [getSymbolStatus(data)]: no branch returns ['error']. *)
Definition getSymbolStatus (data : SymbolRow) : string :=
  if row_priceDataAvailable data && row_fundamentalDataAvailable data
  then "complete"
  else if row_priceDataAvailable data || row_fundamentalDataAvailable data
       then "partial"
       else "missing".

(** [saveFundamentalData(symbol, fundamentalData)] *)
Definition saveFundamentalData (importResolves : bool) (stamp : string)
  (sym : string) (fundamentalData : FundamentalData) (st : Store) : bool * Store :=
  if importResolves
  then (true, saveFundamentalDataToMongoDB sym fundamentalData stamp st)
  else (false, st).

(** [deleteSymbol(symbol)] *)
Definition deleteSymbol (importResolves : bool) (sym : string) (st : Store)
  : bool * Store :=
  if importResolves then (true, deleteSymbolFromMongoDB sym st) else (false, st).

(** [deleteSymbolData(symbol)] and [deleteFundamentalData(symbol)] wait and
    log, as [deletePriceData] does. *)
Definition deleteSymbolData (sym : string) (st : Store) : Store := st.
Definition deleteFundamentalData (sym : string) (st : Store) : Store := st.

(** *** The progress array of [downloadBatchMixedData] *)

(** [symbols.forEach(symbol => downloadTypes.forEach(type =>
    progress.push({...})))] *)
Definition mixedEntry (sym type : string) : DownloadProgress :=
  {| dp_symbol := sym; type := type; progress := 0;
     dp_status := "pending"; message := "Waiting to start..." |}.

Definition mixedProgress (symbols downloadTypes : list string)
  : list DownloadProgress :=
  symbols ≫= (fun sym => mixedEntry sym <$> downloadTypes).

(** [globalIndex * downloadTypes.length + downloadTypes.indexOf(type)];
    [type] is an element of [downloadTypes] wherever the expression
    occurs. *)
Definition progressIndex (downloadTypes : list string) (globalIndex : nat)
  (type : string) : option nat :=
  (fun typeIndex => globalIndex * length downloadTypes + typeIndex)%nat
    <$> indexOf downloadTypes type.

(** The index a task of [downloadBatchMixedData] writes to: its
    [globalIndex] is [symbols.indexOf(symbol)]. *)
Definition taskProgressIndex (symbols downloadTypes : list string)
  (sym type : string) : option nat :=
  globalIndex ← indexOf symbols sym;
  progressIndex downloadTypes globalIndex type.

End FinancialDataService.

(** ** databaseManagerService.ts: the update scheduler *)

Module DatabaseManagerService.
Import JSDate.

(** [lastRun] holds an ISO timestamp or [null]; the timestamp is
    represented by the instant it denotes.  [frequency] is a string at run
    time, whatever its declared type. *)
Record UpdateSchedule := {
  id : string;
  name : string;
  frequency : string;
  time : string;
  enabled : bool;
  lastRun : option Z
}.

(** [isScheduleDue(schedule, now, currentTime)] *)
Definition isScheduleDue (tz : Zone) (schedule : UpdateSchedule) (now : Z)
  (currentTime : string) : bool :=
  let lastRun := match lastRun schedule with Some t => t | None => 0%Z end in
  let today := toDateString tz now in
  let lastRunDate := toDateString tz lastRun in
  if String.eqb (frequency schedule) "daily" then
    strGt today lastRunDate && strGe currentTime (time schedule)
  else if String.eqb (frequency schedule) "weekly" then
    let daysSinceLastRun := ((now - lastRun) / msPerDay)%Z in
    (7 <=? daysSinceLastRun)%Z && strGe currentTime (time schedule)
  else if String.eqb (frequency schedule) "monthly" then
    let monthsSinceLastRun :=
      ((getFullYear tz now - getFullYear tz lastRun) * 12
       + (getMonth tz now - getMonth tz lastRun))%Z in
    (1 <=? monthsSinceLastRun)%Z && strGe currentTime (time schedule)
  else false.

(** The due-date rule in the words of the specification: calendar days are
    compared as days, not as their renderings. *)
Definition lastRunInstant (schedule : UpdateSchedule) : Z :=
  match lastRun schedule with Some t => t | None => 0%Z end.

Definition timeHasPassed (schedule : UpdateSchedule) (currentTime : string) : bool :=
  strGe currentTime (time schedule).

Definition dailyDueSpec (tz : Zone) (schedule : UpdateSchedule) (now : Z)
  (currentTime : string) : bool :=
  (Day (LocalTime tz (lastRunInstant schedule)) <? Day (LocalTime tz now))%Z
  && timeHasPassed schedule currentTime.

Definition weeklyDueSpec (schedule : UpdateSchedule) (now : Z)
  (currentTime : string) : bool :=
  (7 * msPerDay <=? now - lastRunInstant schedule)%Z
  && timeHasPassed schedule currentTime.

Definition monthIndex (tz : Zone) (t : Z) : Z :=
  (getFullYear tz t * 12 + getMonth tz t)%Z.

Definition monthlyDueSpec (tz : Zone) (schedule : UpdateSchedule) (now : Z)
  (currentTime : string) : bool :=
  (monthIndex tz (lastRunInstant schedule) + 1 <=? monthIndex tz now)%Z
  && timeHasPassed schedule currentTime.

(** A daily schedule at 09:00 that last ran on Sunday 2023-12-31 at 10:00
    UTC, and the instant Monday 2024-01-01 12:00 UTC. *)
Definition sundayRun : UpdateSchedule :=
  {| id := "nightly-prices"; name := "Nightly prices"; frequency := "daily";
     time := "09:00"; enabled := true;
     lastRun := Some (19722 * msPerDay + 10 * 3600000)%Z |}.

Definition mondayNoon : Z := (19723 * msPerDay + 12 * 3600000)%Z.

(** The same schedule after a run on Thursday 2024-01-04, looked at on the
    Wednesday before. *)
Definition thursdayRun : UpdateSchedule :=
  {| id := "nightly-prices"; name := "Nightly prices"; frequency := "daily";
     time := "09:00"; enabled := true;
     lastRun := Some (19726 * msPerDay + 10 * 3600000)%Z |}.

Definition wednesdayNoon : Z := (19725 * msPerDay + 12 * 3600000)%Z.

(** *** The schedule registry *)

(** A [Map<string, UpdateSchedule>] with its insertion order: [set] on a
    key that is present replaces the value where it stands, on a new key it
    appends; [delete] removes the entry of the key. *)
Abbreviation ScheduleMap := (list (string * UpdateSchedule)).

Fixpoint mapSet (key : string) (value : UpdateSchedule) (m : ScheduleMap)
  : ScheduleMap :=
  match m with
  | [] => [(key, value)]
  | (k, v) :: m' =>
      if String.eqb k key then (key, value) :: m' else (k, v) :: mapSet key value m'
  end.

Fixpoint mapDelete (key : string) (m : ScheduleMap) : ScheduleMap :=
  match m with
  | [] => []
  | (k, v) :: m' => if String.eqb k key then m' else (k, v) :: mapDelete key m'
  end.

Fixpoint mapGet (key : string) (m : ScheduleMap) : option UpdateSchedule :=
  match m with
  | [] => None
  | (k, v) :: m' => if String.eqb k key then Some v else mapGet key m'
  end.

(** The timers of the page: the handles [setInterval] has returned and
    [clearInterval] has not cleared, each with the schedules its callback
    closes over, and the next handle. *)
Record Timers := {
  running : list (nat * list UpdateSchedule);
  nextHandle : nat
}.

Definition setInterval (schedules : list UpdateSchedule) (t : Timers)
  : nat * Timers :=
  (nextHandle t,
   {| running := running t ++ [(nextHandle t, schedules)];
      nextHandle := S (nextHandle t) |}).

Definition clearInterval (handle : nat) (t : Timers) : Timers :=
  {| running := filter (fun x => x.1 ≠ handle) (running t);
     nextHandle := nextHandle t |}.

(** The fields of the service object, and the timers around it. *)
Record Manager := {
  updateSchedules : ScheduleMap;
  isRunning : bool;
  updateInterval : option nat;
  timers : Timers
}.

Definition initialManager : Manager :=
  {| updateSchedules := []; isRunning := false; updateInterval := None;
     timers := {| running := []; nextHandle := 1 |} |}.

Definition withSchedules (m : ScheduleMap) (s : Manager) : Manager :=
  {| updateSchedules := m; isRunning := isRunning s;
     updateInterval := updateInterval s; timers := timers s |}.

(** [addUpdateSchedule(schedule)] *)
Definition addUpdateSchedule (schedule : UpdateSchedule) (s : Manager) : Manager :=
  withSchedules (mapSet (id schedule) schedule (updateSchedules s)) s.

(** [removeUpdateSchedule(scheduleId)] *)
Definition removeUpdateSchedule (scheduleId : string) (s : Manager) : Manager :=
  withSchedules (mapDelete scheduleId (updateSchedules s)) s.

(** [getUpdateSchedules()] *)
Definition getUpdateSchedules (s : Manager) : list UpdateSchedule :=
  (updateSchedules s).*2.

(** [getActiveSchedules()] *)
Definition getActiveSchedules (s : Manager) : list UpdateSchedule :=
  filter (fun schedule => enabled schedule = true) (getUpdateSchedules s).

(** [createUpdateSchedule(schedule)]: a delay, a log line and
    [addUpdateSchedule]. *)
Definition createUpdateSchedule (schedule : UpdateSchedule) (s : Manager) : Manager :=
  addUpdateSchedule schedule s.

(** [isUpdateRunning()] *)
Definition isUpdateRunning (s : Manager) : bool := isRunning s.

(** [startIncrementalUpdates()]: [false] is the error thrown when the
    updates are running already. *)
Definition startIncrementalUpdates (s : Manager) : bool * Manager :=
  if isRunning s then (false, s)
  else
    let schedules := filter (fun schedule => enabled schedule = true)
                            (getUpdateSchedules s) in
    let started := setInterval schedules (timers s) in
    (true,
     {| updateSchedules := updateSchedules s; isRunning := true;
        updateInterval := Some started.1; timers := started.2 |}).

(** [stopIncrementalUpdates()] *)
Definition stopIncrementalUpdates (s : Manager) : Manager :=
  {| updateSchedules := updateSchedules s; isRunning := false;
     updateInterval := None;
     timers := match updateInterval s with
               | Some handle => clearInterval handle (timers s)
               | None => timers s
               end |}.

(** The calls a page makes on the service. *)
Inductive Command :=
| AddSchedule (schedule : UpdateSchedule)
| RemoveSchedule (scheduleId : string)
| StartUpdates
| StopUpdates.

Definition execute (c : Command) (s : Manager) : Manager :=
  match c with
  | AddSchedule schedule => addUpdateSchedule schedule s
  | RemoveSchedule scheduleId => removeUpdateSchedule scheduleId s
  | StartUpdates => (startIncrementalUpdates s).2
  | StopUpdates => stopIncrementalUpdates s
  end.

Definition executeAll (cs : list Command) (s : Manager) : Manager :=
  foldl (fun acc c => execute c acc) s cs.

(** The invariant of the service object: the keys of the registry are
    distinct and each is the [id] of its value; [isRunning] says whether a
    timer handle is held; the timers that run are the one held, if any, and
    watch enabled schedules only. *)
Definition keyed (m : ScheduleMap) : Prop :=
  NoDup m.*1 ∧ ∀ e, e ∈ m → e.1 = id e.2.

Definition steady (s : Manager) : Prop :=
  keyed (updateSchedules s) ∧
  isRunning s = bool_decide (is_Some (updateInterval s)) ∧
  (running (timers s)).*1 = option_list (updateInterval s) ∧
  ∀ h snapshot, (h, snapshot) ∈ running (timers s) →
                Forall (fun schedule => enabled schedule = true) snapshot.

(** *** The statistics of the manager *)

(** The result of [getDatabaseStats]; [stats_lastUpdate] is the instant
    whose ISO rendering is returned. *)
Record ManagerStats := {
  stats_totalSymbols : nat;
  stats_symbolsWithPriceData : nat;
  stats_symbolsWithFundamentalData : nat;
  stats_lastUpdate : option Z;
  stats_totalPriceRecords : nat;
  stats_totalFundamentalRecords : nat
}.

(** [Math.max(...values)] on values that may be [NaN] ([None]); the
    result for no value at all, [-Infinity], does not arise: the call is
    guarded by [symbols.length > 0]. *)
Fixpoint mathMax (values : list (option Z)) : option Z :=
  match values with
  | [] => None
  | [v] => v
  | v :: rest =>
      match v, mathMax rest with
      | Some a, Some b => Some (Z.max a b)
      | _, _ => None
      end
  end.

(** The object [getDatabaseStats] builds from the listing; [dateParse] is
    [new Date(string).getTime()], [None] for [NaN]. *)
Definition statsOf (dateParse : string → option Z)
  (symbols : list DatabaseService.SymbolRow) : ManagerStats :=
  let times :=
    (fun s => if String.eqb (DatabaseService.row_lastUpdated s) ""
              then Some 0%Z
              else dateParse (DatabaseService.row_lastUpdated s)) <$> symbols in
  {| stats_totalSymbols := length symbols;
     stats_symbolsWithPriceData :=
       length (filter (fun s => DatabaseService.row_priceDataAvailable s = true)
                      symbols);
     stats_symbolsWithFundamentalData :=
       length (filter
                 (fun s => DatabaseService.row_fundamentalDataAvailable s = true)
                 symbols);
     stats_lastUpdate :=
       if (0 <? length symbols)%nat then
         match mathMax times with
         | Some latest => if (0 <? latest)%Z then Some latest else None
         | None => None
         end
       else None;
     stats_totalPriceRecords :=
       foldl (fun sum s => (sum + DatabaseService.row_priceDataCount s)%nat)
             0%nat symbols;
     stats_totalFundamentalRecords :=
       foldl (fun sum s => (sum + DatabaseService.row_fundamentalDataCount s)%nat)
             0%nat symbols |}.

(** [getDatabaseStats()]: the listing comes from
    [financialDataService.getDatabaseSymbols()], whose rejection is not
    caught. *)
Definition getDatabaseStats (importResolves : bool)
  (forEach : DatabaseService.Traversal) (dateParse : string → option Z)
  (st : DatabaseService.Store) : option ManagerStats * DatabaseService.Store :=
  let listed := FinancialDataService.getDatabaseSymbols importResolves forEach st in
  (statsOf dateParse <$> listed.1, listed.2).

End DatabaseManagerService.

(** ** portfolioService.ts: the REST client *)

Module PortfolioService.
Import JSDate.

Inductive Method := GET | POST | PUT | DELETE.

Section WithBackend.
(** The payloads are opaque: uploaded files, response bodies, errors. *)
Variables File Data Err : Type.

(** The second argument of [api.post]: nothing, or a [FormData] with its
    appended entries. *)
Inductive Body :=
| NoBody
| FormData (entries : list (string * File)).

Record Request := {
  method : Method;
  url : string;
  body : Body;
  headers : list (string * string)
}.

Record Response := { data : Data }.

(** An async function of the service: it returns, throws, or awaits one
    request of the [api] client and goes on with the response or with the
    rejection. *)
Inductive Async (A : Type) :=
| Return (a : A)
| Throw (e : Err)
| Await (req : Request) (fulfilled : Response → Async A) (rejected : Err → Async A).

Arguments Return {A} a.
Arguments Throw {A} e.
Arguments Await {A} req fulfilled rejected.

(** Running it against a backend: the requests issued, in order, and the
    settlement of the promise. *)
Fixpoint run {A : Type} (api : Request → Err + Response) (p : Async A)
  : list Request * (Err + A) :=
  match p with
  | Return a => ([], inr a)
  | Throw e => ([], inl e)
  | Await req fulfilled rejected =>
      let rest :=
        match api req with
        | inr response => run api (fulfilled response)
        | inl e => run api (rejected e)
        end in
      (req :: rest.1, rest.2)
  end.

Definition get (path : string) : Request :=
  {| method := GET; url := path; body := NoBody; headers := [] |}.

(** [getPortfolios()]: the [catch] logs and rethrows. *)
Definition getPortfolios : Async Data :=
  Await (get "/portfolios")
        (fun response => Return (data response))
        (fun error => Throw error).

(** [getHoldings(portfolioId)] *)
Definition getHoldings (portfolioId : Z) : Async Data :=
  Await (get ("/portfolios/" +:+ numberToString portfolioId +:+ "/holdings"))
        (fun response => Return (data response))
        (fun error => Throw error).

(** [uploadCSV(portfolioId, file)] *)
Definition uploadCSV (portfolioId : Z) (file : File) : Async Data :=
  let formData := FormData [("file", file)] in
  Await {| method := POST;
           url := "/portfolios/" +:+ numberToString portfolioId +:+ "/upload-csv";
           body := formData;
           headers := [("Content-Type", "multipart/form-data")] |}
        (fun response => Return (data response))
        (fun error => Throw error).

(** The settlement of a function that returns [response.data] and lets a
    rejection through. *)
Definition responseData (api : Request → Err + Response) (req : Request)
  : Err + Data :=
  match api req with
  | inr response => inr (data response)
  | inl e => inl e
  end.

End WithBackend.

Arguments NoBody {File}.
Arguments FormData {File} entries.
Arguments Return {File Data Err A} a.
Arguments Throw {File Data Err A} e.
Arguments Await {File Data Err A} req fulfilled rejected.
Arguments run {File Data Err A} api p.
Arguments get {File} path.
Arguments getPortfolios {File Data Err}.
Arguments getHoldings {File Data Err} portfolioId.
Arguments uploadCSV {File Data Err} portfolioId file.
Arguments responseData {File Data Err} api req.
Arguments data {Data} r.
Arguments method {File} r.
Arguments url {File} r.
Arguments body {File} r.
Arguments headers {File} r.

(** *** The other operations without a request body *)

Section OtherOperations.
Variables File Data Err : Type.
(** [response.data.template] *)
Variable template : Data → Data.

Definition apiDelete (path : string) : Request File :=
  {| method := DELETE; url := path; body := NoBody; headers := [] |}.

(** [const response = await api.get(path); return response.data;] *)
Definition fetch (path : string) : Async File Data Err Data :=
  Await (get path) (fun response => Return (data response))
        (fun error => Throw error).

(** [await api.delete(path);] *)
Definition remove (path : string) : Async File Data Err unit :=
  Await (apiDelete path) (fun _ => Return tt) (fun error => Throw error).

Definition portfolioPath (portfolioId : Z) : string :=
  "/portfolios/" +:+ numberToString portfolioId.

(** [getPortfolio(portfolioId)] *)
Definition getPortfolio (portfolioId : Z) : Async File Data Err Data :=
  fetch (portfolioPath portfolioId).

(** [deletePortfolio(portfolioId)] *)
Definition deletePortfolio (portfolioId : Z) : Async File Data Err unit :=
  remove (portfolioPath portfolioId).

(** [deleteHolding(portfolioId, holdingId)] *)
Definition deleteHolding (portfolioId holdingId : Z) : Async File Data Err unit :=
  remove (portfolioPath portfolioId +:+ "/holdings/" +:+ numberToString holdingId).

(** [getPortfolioSummary(portfolioId)] *)
Definition getPortfolioSummary (portfolioId : Z) : Async File Data Err Data :=
  fetch (portfolioPath portfolioId +:+ "/summary").

(** [getOverallSummary()] *)
Definition getOverallSummary : Async File Data Err Data :=
  fetch "/portfolios/summary".

(** [getPortfolioPerformance(portfolioId)] *)
Definition getPortfolioPerformance (portfolioId : Z) : Async File Data Err Data :=
  fetch (portfolioPath portfolioId +:+ "/performance").

(** [getCSVTemplate()] *)
Definition getCSVTemplate : Async File Data Err Data :=
  Await (get "/portfolios/csv-template")
        (fun response => Return (template (data response)))
        (fun error => Throw error).

(** [downloadCSV(portfolioId)] *)
Definition downloadCSV (portfolioId : Z) : Async File Data Err Data :=
  fetch (portfolioPath portfolioId +:+ "/download-csv").

End OtherOperations.

Arguments apiDelete {File} path.
Arguments fetch {File Data Err} path.
Arguments remove {File Data Err} path.
Arguments getPortfolio {File Data Err} portfolioId.
Arguments deletePortfolio {File Data Err} portfolioId.
Arguments deleteHolding {File Data Err} portfolioId holdingId.
Arguments getPortfolioSummary {File Data Err} portfolioId.
Arguments getOverallSummary {File Data Err}.
Arguments getPortfolioPerformance {File Data Err} portfolioId.
Arguments getCSVTemplate {File Data Err} template.
Arguments downloadCSV {File Data Err} portfolioId.

(** The operations that read, and the URL each one requests. *)
Inductive ReadOperation :=
| Portfolios
| OnePortfolio (portfolioId : Z)
| Holdings (portfolioId : Z)
| Summary (portfolioId : Z)
| OverallSummary
| Performance (portfolioId : Z)
| CSVTemplate
| CSVDownload (portfolioId : Z).

Definition readOperation {File Data Err : Type} (template : Data → Data)
  (op : ReadOperation) : Async File Data Err Data :=
  match op with
  | Portfolios => getPortfolios
  | OnePortfolio portfolioId => getPortfolio portfolioId
  | Holdings portfolioId => getHoldings portfolioId
  | Summary portfolioId => getPortfolioSummary portfolioId
  | OverallSummary => getOverallSummary
  | Performance portfolioId => getPortfolioPerformance portfolioId
  | CSVTemplate => getCSVTemplate template
  | CSVDownload portfolioId => downloadCSV portfolioId
  end.

(** The numbers whose rendering is their plain decimal expansion. *)
Definition safeInteger (z : Z) : Prop := (- 2 ^ 53 < z < 2 ^ 53)%Z.

Definition safeOperation (op : ReadOperation) : Prop :=
  match op with
  | OnePortfolio i | Holdings i | Summary i | Performance i | CSVDownload i =>
      safeInteger i
  | _ => True
  end.

End PortfolioService.

(* ===================================================================== *)
(** * Part II: properties                                                 *)
(* ===================================================================== *)

(** ** The store *)

Module DatabaseServiceProps.
Import JSDate DatabaseService.

Lemma ensureConnected_db (st : Store) :
  db (ensureConnected st) = Some (default newCollections (db st)).
Proof.
  unfold ensureConnected, connectToDatabase.
  destruct (db st) as [c|] eqn:E; simpl.
  - destruct (isConnected st); rewrite E; simpl; rewrite ?E; reflexivity.
  - reflexivity.
Qed.

Lemma storedPrice_save (sym sym' : string) (p : list PriceData) (stamp : string)
  (st : Store) :
  storedPrice (savePriceDataToMongoDB sym p stamp st) sym' =
  if decide (sym = sym') then Some p else storedPrice st sym'.
Proof.
  unfold savePriceDataToMongoDB, storedPrice at 1.
  rewrite ensureConnected_db. simpl.
  rewrite lookup_insert. case_decide; [reflexivity|].
  unfold storedPrice. destruct (db st); reflexivity.
Qed.

Lemma storedFundamental_save (sym sym' : string) (p : list PriceData)
  (stamp : string) (st : Store) :
  storedFundamental (savePriceDataToMongoDB sym p stamp st) sym' =
  storedFundamental st sym'.
Proof.
  unfold savePriceDataToMongoDB, storedFundamental at 1.
  rewrite ensureConnected_db. simpl.
  unfold storedFundamental. destruct (db st); reflexivity.
Qed.

Lemma storedSymbol_save_ne (sym sym' : string) (p : list PriceData)
  (stamp : string) (st : Store) :
  sym ≠ sym' →
  storedSymbol (savePriceDataToMongoDB sym p stamp st) sym' = storedSymbol st sym'.
Proof.
  intros Hne. unfold savePriceDataToMongoDB, storedSymbol at 1.
  rewrite ensureConnected_db. simpl.
  rewrite lookup_insert_ne by assumption.
  unfold storedSymbol. destruct (db st); reflexivity.
Qed.

Lemma storedSymbol_save_eq (sym : string) (p : list PriceData)
  (stamp : string) (st : Store) :
  ∃ r, storedSymbol (savePriceDataToMongoDB sym p stamp st) sym = Some r ∧
       symbol r = Some sym ∧
       priceDataAvailable r = Some true ∧
       priceDataCount r = Some (length p) ∧
       lastUpdated r = Some stamp.
Proof.
  unfold savePriceDataToMongoDB, storedSymbol.
  rewrite ensureConnected_db. simpl.
  rewrite lookup_insert_eq. eexists. split; [reflexivity|].
  simpl. repeat split.
Qed.

Lemma getPrice_stored (sym : string) (st : Store) :
  (getPriceDataFromMongoDB sym st).1 = default [] (storedPrice st sym).
Proof.
  unfold getPriceDataFromMongoDB, storedPrice.
  rewrite ensureConnected_db. simpl.
  destruct (db st); reflexivity.
Qed.

(** C6: saving a price array for a symbol replaces whatever series the
    store held for it by exactly that array (nothing is appended), and
    the symbol's metadata then has [priceDataAvailable = true] and
    [priceDataCount = p.length]; so a save of newly downloaded records on
    top of any earlier save leaves only the new records. *)
Theorem C6_save_replaces_series (sym : string) (p : list PriceData)
  (stamp : string) (st : Store) :
  let st' := savePriceDataToMongoDB sym p stamp st in
  storedPrice st' sym = Some p ∧
  (getPriceDataFromMongoDB sym st').1 = p ∧
  (∃ r, storedSymbol st' sym = Some r ∧
        priceDataAvailable r = Some true ∧
        priceDataCount r = Some (length p)) ∧
  (∀ (old : list PriceData) (stamp0 : string),
     storedPrice
       (savePriceDataToMongoDB sym p stamp
          (savePriceDataToMongoDB sym old stamp0 st)) sym = Some p).
Proof.
  simpl. repeat split.
  - rewrite storedPrice_save. case_decide; congruence.
  - rewrite getPrice_stored, storedPrice_save. case_decide; [reflexivity|congruence].
  - destruct (storedSymbol_save_eq sym p stamp st) as (r & Hr & _ & Ha & Hc & _).
    exists r. auto.
  - intros old stamp0. rewrite storedPrice_save. case_decide; congruence.
Qed.

(** Records are keyed by ticker symbol, for a save that runs from its call
    to its end with nothing in between: a read of [sym] then returns
    exactly the saved array, and for every other symbol the stored prices,
    fundamentals and metadata are what they were. *)
Lemma save_keyed_by_symbol (sym : string) (p : list PriceData)
  (stamp : string) (st : Store) :
  let st' := savePriceDataToMongoDB sym p stamp st in
  (getPriceDataFromMongoDB sym st').1 = p ∧
  ∀ sym', sym' ≠ sym →
    storedPrice st' sym' = storedPrice st sym' ∧
    (getPriceDataFromMongoDB sym' st').1 = (getPriceDataFromMongoDB sym' st).1 ∧
    storedFundamental st' sym' = storedFundamental st sym' ∧
    (getFundamentalDataFromMongoDB sym' st').1 =
      (getFundamentalDataFromMongoDB sym' st).1 ∧
    storedSymbol st' sym' = storedSymbol st sym'.
Proof.
  simpl. split.
  - rewrite getPrice_stored, storedPrice_save. case_decide; [reflexivity|congruence].
  - intros sym' Hne.
    assert (Hp : storedPrice (savePriceDataToMongoDB sym p stamp st) sym'
                 = storedPrice st sym').
    { rewrite storedPrice_save. case_decide; congruence. }
    assert (Hf : storedFundamental (savePriceDataToMongoDB sym p stamp st) sym'
                 = storedFundamental st sym')
      by apply storedFundamental_save.
    repeat split.
    + exact Hp.
    + rewrite !getPrice_stored, Hp. reflexivity.
    + exact Hf.
    + unfold getFundamentalDataFromMongoDB.
      rewrite !ensureConnected_db. simpl.
      unfold storedFundamental in Hf.
      destruct (db st), (db (savePriceDataToMongoDB sym p stamp st)); simpl in *;
        try exact Hf; try (symmetry; exact Hf); reflexivity.
    + apply storedSymbol_save_ne. congruence.
Qed.

(** A call that finds the connection is one step, and so is, taken with
    its timer, a call that finds none while no other call is suspended: in
    both cases the store it leaves is the one the function describes. *)
Lemma resolved_unhindered (op : Operation) (s : Session) :
  unhindered s →
  current (resolved op s) = perform op (current s) ∧
  suspended (resolved op s) = suspended s.
Proof.
  unfold unhindered, resolved, happen.
  destruct (db (current s)) as [c|] eqn:Hdb.
  - intros _. simpl. auto.
  - intros [[c Hc]|Hnone]; [discriminate|]. rewrite Hnone. simpl.
    split; [|reflexivity].
    destruct (current s) as [d ic]. simpl in Hdb. subst d.
    destruct op; reflexivity.
Qed.

(** The same, for a save that no older call hinders, in a session with
    other calls in flight. *)
Lemma unhindered_save_keyed_by_symbol (sym : string) (p : list PriceData)
  (stamp : string) (s : Session) :
  unhindered s →
  let st' := current (resolved (SavePrice sym p stamp) s) in
  (getPriceDataFromMongoDB sym st').1 = p ∧
  ∀ sym', sym' ≠ sym →
    storedPrice st' sym' = storedPrice (current s) sym' ∧
    storedFundamental st' sym' = storedFundamental (current s) sym' ∧
    storedSymbol st' sym' = storedSymbol (current s) sym'.
Proof.
  intros Hs st'. subst st'.
  rewrite (proj1 (resolved_unhindered (SavePrice sym p stamp) s Hs)). simpl.
  destruct (save_keyed_by_symbol sym p stamp (current s)) as [Hget Hframe].
  split; [exact Hget|].
  intros sym' Hne. destruct (Hframe sym' Hne) as (H1 & _ & H2 & _ & H3). auto.
Qed.

(** C7 (saves that overlap): on a module that was just loaded, a save
    drops what the save before it stored.  Both calls find [db] null and
    wait in [connectToDatabase].  The timer of the first fires: it installs
    the collections and stores the series of AAPL, which a read returns.
    The timer of the second fires: [connectToDatabase] does not look at
    [db] again and installs new, empty collections, and the save stores the
    series of MSFT there.  The series and the metadata of AAPL are gone,
    though only MSFT was saved in between. *)
Theorem C7_overlapping_saves_lose_data :
  let s1 := happenAll [Called saveAapl; Called saveMsft; TimerFired] loaded in
  let s2 := happen s1 TimerFired in
  suspended s1 = [saveMsft] ∧
  (getPriceDataFromMongoDB "AAPL" (current s1)).1 = [sampleRecord] ∧
  (∃ r, storedSymbol (current s1) "AAPL" = Some r ∧
        priceDataAvailable r = Some true) ∧
  suspended s2 = [] ∧
  (getPriceDataFromMongoDB "MSFT" (current s2)).1 = [sampleRecord; sampleRecord] ∧
  (getPriceDataFromMongoDB "AAPL" (current s2)).1 = [] ∧
  storedPrice (current s2) "AAPL" = None ∧
  storedSymbol (current s2) "AAPL" = None.
Proof.
  cbv zeta. split; [reflexivity|]. split; [reflexivity|].
  split; [eexists; split; reflexivity|].
  repeat split; reflexivity.
Qed.

(** Whatever the two writes are: when both were called before the first
    timer, the module ends with the effect of the second alone. *)
Lemma overlapping_calls_keep_the_last (op1 op2 : Operation) :
  happenAll [Called op1; Called op2; TimerFired; TimerFired] loaded
  = {| current := perform op2 installed; suspended := [] |}.
Proof. reflexivity. Qed.

Lemma truthy_isTrue (b : option bool) : truthy b = true ↔ isTrue b.
Proof.
  unfold isTrue. destruct b as [[|]|]; simpl; split; congruence.
Qed.

Lemma shaped_statusConsistent (r : DatabaseSymbol) :
  shaped r → statusConsistent r.
Proof.
  intros [Hone Hst]. unfold statusConsistent, exactlyOne.
  rewrite <- !truthy_isTrue. rewrite Hst.
  destruct (truthy (priceDataAvailable r)), (truthy (fundamentalDataAvailable r));
    simpl in *; try discriminate;
    (split; split; intuition congruence).
Qed.

Lemma allShaped_savePrice (sym : string) (p : list PriceData) (stamp : string)
  (st : Store) :
  allShaped st → allShaped (savePriceDataToMongoDB sym p stamp st).
Proof.
  intros Hst sym' r Hr.
  destruct (decide (sym = sym')) as [<-|Hne].
  - revert Hr. unfold savePriceDataToMongoDB, storedSymbol.
    rewrite ensureConnected_db. simpl. rewrite lookup_insert_eq.
    intros [= <-]. unfold shaped. simpl.
    destruct (truthy (fundamentalDataAvailable _)); split; reflexivity.
  - rewrite storedSymbol_save_ne in Hr by assumption. eauto.
Qed.

Lemma allShaped_saveFundamental (sym : string) (f : FundamentalData)
  (stamp : string) (st : Store) :
  allShaped st → allShaped (saveFundamentalDataToMongoDB sym f stamp st).
Proof.
  intros Hst sym' r. unfold saveFundamentalDataToMongoDB, storedSymbol.
  rewrite ensureConnected_db. simpl.
  destruct (decide (sym = sym')) as [<-|Hne].
  - rewrite lookup_insert_eq.
    intros [= <-]. unfold shaped. simpl.
    destruct (truthy (priceDataAvailable _)); split; reflexivity.
  - rewrite lookup_insert_ne by assumption. intros Hr.
    apply (Hst sym'). unfold storedSymbol.
    destruct (db st); simpl in *; [exact Hr|].
    rewrite lookup_empty in Hr. discriminate.
Qed.

Lemma allShaped_delete (sym : string) (st : Store) :
  allShaped st → allShaped (deleteSymbolFromMongoDB sym st).
Proof.
  intros Hst sym' r. unfold deleteSymbolFromMongoDB, storedSymbol.
  rewrite ensureConnected_db. simpl.
  rewrite lookup_delete. case_decide; [discriminate|].
  intros Hr. apply (Hst sym'). unfold storedSymbol.
  destruct (db st); simpl in *; [exact Hr|].
  rewrite lookup_empty in Hr. discriminate.
Qed.

Lemma allShaped_perform (op : Operation) (st : Store) :
  allShaped st → allShaped (perform op st).
Proof.
  destruct op; simpl;
    auto using allShaped_savePrice, allShaped_saveFundamental, allShaped_delete.
Qed.

Lemma allShaped_performAll (ops : list Operation) (st : Store) :
  allShaped st → allShaped (performAll ops st).
Proof.
  revert st. induction ops as [|op ops IH]; intros st Hst; simpl.
  - exact Hst.
  - apply IH, allShaped_perform, Hst.
Qed.

(** C9: starting from a store without symbol records, after any sequence
    of price saves, fundamental saves and symbol deletions every stored
    symbol record has status ['complete'] exactly when both availability
    flags are [true] and status ['partial'] exactly when exactly one of
    them is. *)
Theorem C9_status_consistent (st0 : Store) (ops : list Operation)
  (sym : string) (r : DatabaseSymbol) :
  (∀ s, storedSymbol st0 s = None) →
  storedSymbol (performAll ops st0) sym = Some r →
  statusConsistent r.
Proof.
  intros Hempty Hr. apply shaped_statusConsistent.
  apply (allShaped_performAll ops st0) with (sym := sym); [|exact Hr].
  intros s r' Hs. rewrite Hempty in Hs. discriminate.
Qed.

Lemma C9_status_consistent_witness :
  (∀ s, storedSymbol initialStore s = None) ∧
  ∃ r, storedSymbol (performAll sampleOps initialStore) "AAPL" = Some r ∧
       status r = Some "complete" ∧ statusConsistent r.
Proof.
  split; [intros s; reflexivity|].
  eexists. split; [vm_compute; reflexivity|]. split; [reflexivity|].
  apply (C9_status_consistent initialStore sampleOps "AAPL").
  - intros s. reflexivity.
  - vm_compute. reflexivity.
Defined.

End DatabaseServiceProps.

(** ** The scheduler *)

Module DatabaseManagerServiceProps.
Import JSDate DatabaseManagerService.

Lemma sundayRun_rendering :
  toDateString 0 mondayNoon = "Mon Jan 01 2024" ∧
  toDateString 0 (lastRunInstant sundayRun) = "Sun Dec 31 2023" ∧
  toTimeHHMM 0 mondayNoon = "12:00".
Proof. vm_compute. repeat split. Qed.

(** C2 (daily rule): on Monday 2024-01-01 at 12:00 the 09:00 daily
    schedule that last ran on Sunday 2023-12-31 is not due for the code,
    although the calendar day is later than the day of the last run and
    the time has passed: the two days are compared through
    [toDateString()], and ["Mon Jan 01 2024" > "Sun Dec 31 2023"] is false
    for strings. *)
Theorem C2_daily_compares_renderings :
  isScheduleDue 0 sundayRun mondayNoon (toTimeHHMM 0 mondayNoon) = false ∧
  dailyDueSpec 0 sundayRun mondayNoon (toTimeHHMM 0 mondayNoon) = true.
Proof. vm_compute. split; reflexivity. Qed.

(** The converse failure: the schedule is due on the Wednesday before its
    last run, because ["Wed ..." > "Thu ..."]. *)
Lemma daily_due_before_last_run :
  isScheduleDue 0 thursdayRun wednesdayNoon (toTimeHHMM 0 wednesdayNoon) = true ∧
  dailyDueSpec 0 thursdayRun wednesdayNoon (toTimeHHMM 0 wednesdayNoon) = false.
Proof. vm_compute. split; reflexivity. Qed.

Lemma days_elapsed (elapsed : Z) :
  (7 <=? elapsed / msPerDay)%Z = (7 * msPerDay <=? elapsed)%Z.
Proof.
  unfold msPerDay.
  destruct (Z.leb_spec 7 (elapsed / 86400000)),
           (Z.leb_spec (7 * 86400000) elapsed);
    try reflexivity; exfalso; Z.div_mod_to_equations; lia.
Qed.

(** The other three rules are the ones of the specification. *)
Lemma weekly_rule (tz : Z) (s : UpdateSchedule) (now : Z) (currentTime : string) :
  frequency s = "weekly" →
  isScheduleDue tz s now currentTime = weeklyDueSpec s now currentTime.
Proof.
  intros Hf. unfold isScheduleDue, weeklyDueSpec, timeHasPassed, lastRunInstant.
  rewrite Hf. simpl. rewrite days_elapsed. reflexivity.
Qed.

Lemma monthly_rule (tz : Z) (s : UpdateSchedule) (now : Z) (currentTime : string) :
  frequency s = "monthly" →
  isScheduleDue tz s now currentTime = monthlyDueSpec tz s now currentTime.
Proof.
  intros Hf. unfold isScheduleDue, monthlyDueSpec, timeHasPassed, lastRunInstant,
    monthIndex.
  rewrite Hf. simpl. f_equal.
  destruct (Z.leb_spec 1 ((getFullYear tz now
              - getFullYear tz match lastRun s with Some t => t | None => 0%Z end) * 12
             + (getMonth tz now
              - getMonth tz match lastRun s with Some t => t | None => 0%Z end))),
           (Z.leb_spec (getFullYear tz match lastRun s with Some t => t | None => 0%Z end * 12
              + getMonth tz match lastRun s with Some t => t | None => 0%Z end + 1)
              (getFullYear tz now * 12 + getMonth tz now));
    try reflexivity; lia.
Qed.

Lemma other_frequency_never_due (tz : Z) (s : UpdateSchedule) (now : Z)
  (currentTime : string) :
  frequency s ≠ "daily" → frequency s ≠ "weekly" → frequency s ≠ "monthly" →
  isScheduleDue tz s now currentTime = false.
Proof.
  intros Hd Hw Hm. unfold isScheduleDue.
  apply String.eqb_neq in Hd, Hw, Hm. rewrite Hd, Hw, Hm. reflexivity.
Qed.

End DatabaseManagerServiceProps.

(** ** The REST client *)

Module PortfolioServiceProps.
Import JSDate PortfolioService.

(** C10: each of the three operations issues exactly one request, to the
    documented endpoint, and settles as that request does: it resolves to
    the response body and rejects with the request's error.
    [getPortfolios] is [GET /portfolios]; for a portfolio id that is a safe
    integer, whose rendering in the template literal is its decimal
    expansion, [getHoldings(id)] is [GET /portfolios/{id}/holdings] and
    [uploadCSV(id, file)] is [POST /portfolios/{id}/upload-csv] carrying the
    file as multipart/form-data. *)
Theorem C10_single_rest_call (File Data Err : Type)
  (api : Request File → Err + Response Data) (portfolioId : Z) (file : File) :
  safeInteger portfolioId →
  run api getPortfolios
    = ([get "/portfolios"], responseData api (get "/portfolios")) ∧
  (let req := get ("/portfolios/" +:+ numberToString portfolioId +:+ "/holdings") in
   run api (getHoldings portfolioId) = ([req], responseData api req)) ∧
  (let req :=
     {| method := POST;
        url := "/portfolios/" +:+ numberToString portfolioId +:+ "/upload-csv";
        body := FormData [("file", file)];
        headers := [("Content-Type", "multipart/form-data")] |} in
   run api (uploadCSV portfolioId file) = ([req], responseData api req)).
Proof.
  intros _.
  repeat split; intros; unfold getPortfolios, getHoldings, uploadCSV, responseData;
    simpl; destruct (api _); reflexivity.
Qed.

Lemma C10_single_rest_call_witness :
  safeInteger 42 ∧
  ∀ api : Request unit → unit + Response string,
    (run api (getHoldings 42)).1 = [get "/portfolios/42/holdings"] ∧
    map url (run api (uploadCSV 42 tt)).1 = ["/portfolios/42/upload-csv"].
Proof.
  assert (H : safeInteger 42) by (unfold safeInteger; lia).
  split; [exact H|]. intros api.
  destruct (C10_single_rest_call unit string unit api 42 tt H) as (_ & H1 & H2).
  cbv zeta in H1, H2. rewrite H1, H2. split; reflexivity.
Defined.

(** The paths for portfolio 42. *)
Lemma endpoints_of_portfolio_42 (File Data Err : Type) (file : File) :
  ∀ api : Request File → Err + Response Data,
    map url (run api (getHoldings 42)).1 = ["/portfolios/42/holdings"] ∧
    map url (run api (uploadCSV 42 file)).1 = ["/portfolios/42/upload-csv"].
Proof.
  intros api. split; simpl; destruct (api _); reflexivity.
Qed.

End PortfolioServiceProps.

(** ** The market-data provider *)

Module FinancialDataServiceProps.
Import JSDate DatabaseService FinancialDataService DatabaseServiceProps.

(** The event just appended is in the list; the only element of a
    one-event list is not the event looked for. *)
Ltac in_last :=
  apply elem_of_app; right; apply list_elem_of_singleton; reflexivity.

Ltac not_single H :=
  apply list_elem_of_singleton in H; rewrite H in *; discriminate.

(** *** Dates *)

Lemma setDate_shift (tz d n : Z) :
  setDate tz d n = (d + (n - getDate tz d) * msPerDay)%Z.
Proof.
  unfold setDate, getDate, UTC, TimeWithinDay, Day.
  generalize (DateOfDay (LocalTime tz d / msPerDay)). intros g.
  pose proof (Z.div_mod (LocalTime tz d) msPerDay ltac:(unfold msPerDay; lia)) as H.
  unfold LocalTime in *. cbn [LocalTZA fixedZone] in *. lia.
Qed.

Lemma nextDay_shift (tz d : Z) : nextDay tz d = (d + msPerDay)%Z.
Proof. unfold nextDay. rewrite setDate_shift. lia. Qed.

Lemma Day_shift (t : Z) : Day (t + msPerDay) = (Day t + 1)%Z.
Proof.
  unfold Day. replace (t + msPerDay)%Z with (t + 1 * msPerDay)%Z by lia.
  apply Z.div_add. unfold msPerDay. lia.
Qed.

Lemma cents_le (a b : Z) : (a <= b)%Z -> (a # 100 <= b # 100)%Q.
Proof. intros H. unfold Qle. cbn [Qnum Qden]. lia. Qed.

Lemma cents_opp_le (a b : Z) : (b <= a)%Z -> (- (a # 100) <= - (b # 100))%Q.
Proof. intros H. unfold Qle, Qopp. cbn [Qnum Qden]. lia. Qed.

Lemma cents_opp_nonneg (a b : Z) : (0 <= a)%Z -> (0 <= b)%Z -> (- (a # 100) <= b # 100)%Q.
Proof. intros Ha Hb. unfold Qle, Qopp. cbn [Qnum Qden]. lia. Qed.

Lemma Qle_bool_false (x : Q) : Qle_bool 0 x = false -> (x < 0)%Q.
Proof.
  intros H. apply Qnot_le_lt. rewrite <- Qle_bool_iff. congruence.
Qed.

Lemma toFixed2_mono (x y : Q) : (x <= y)%Q -> (toFixed2 x <= toFixed2 y)%Q.
Proof.
  intros Hxy. unfold toFixed2, roundHalfUp2.
  destruct (Qle_bool 0 x) eqn:Hx, (Qle_bool 0 y) eqn:Hy.
  - apply cents_le, Qfloor_resp_le. lra.
  - apply Qle_bool_iff in Hx. apply Qle_bool_false in Hy. lra.
  - apply Qle_bool_false in Hx. apply Qle_bool_iff in Hy.
    apply cents_opp_nonneg.
    + change 0%Z with (Qfloor 0). apply Qfloor_resp_le. lra.
    + change 0%Z with (Qfloor 0). apply Qfloor_resp_le. lra.
  - apply cents_opp_le, Qfloor_resp_le. lra.
Qed.

Lemma toFixed2_one : toFixed2 1 = (100 # 100)%Q.
Proof. reflexivity. Qed.

(** *** The generated records *)

Section RandomRange.
Variable rnd : nat → Q.
Hypothesis rnd_range : inUnitInterval rnd.

Lemma mockRecord_bounds (k : nat) (d : Z) (cp : Q) :
  wellFormed (mockRecord rnd k d cp).2.
Proof.
  unfold wellFormed. simpl.
  set (cp' := Qmax _ 1).
  assert (Hcp : (1 <= cp')%Q) by apply Q.le_max_r.
  pose proof (rnd_range (k + 2)%nat) as [H2 _].
  pose proof (rnd_range (k + 3)%nat) as [H3 _].
  pose proof (rnd_range (k + 4)%nat) as [H4 H4'].
  assert (Hh : (0 <= rnd (k + 2)%nat * cp' * 0.02)%Q) by nra.
  assert (Hl : (0 <= rnd (k + 3)%nat * cp' * 0.02)%Q) by nra.
  repeat split; try (apply toFixed2_mono); try nra.
  apply Qle_trans with (toFixed2 1); [rewrite toFixed2_one; unfold Qle; simpl; lia|].
  apply toFixed2_mono. exact Hcp.
Qed.

End RandomRange.




Section Loop.
Variable tz : Z.
Variable rnd : nat → Q.
Variable endT : Z.

Lemma priceLoop_acc (fuel k : nat) (d : Z) (cp : Q) (acc : list PriceData) :
  priceLoop tz fuel rnd k d endT cp acc
  = (fun new => acc ++ new) <$> priceLoop tz fuel rnd k d endT cp [].
Proof.
  revert k d cp acc. induction fuel as [|fuel IH]; intros k d cp acc; simpl.
  - reflexivity.
  - destruct (d <=? endT)%Z; [|simpl; by rewrite app_nil_r].
    destruct (isWeekend tz d); [apply IH|].
    rewrite (IH _ _ _ (acc ++ _)), (IH _ _ _ [_]).
    destruct (priceLoop tz fuel rnd _ _ endT _ []); simpl; [|reflexivity].
    by rewrite <- app_assoc.
Qed.

Lemma priceLoop_step (fuel k : nat) (d : Z) (cp : Q) :
  priceLoop tz (S fuel) rnd k d endT cp [] =
  if (d <=? endT)%Z then
    if isWeekend tz d then priceLoop tz fuel rnd k (d + msPerDay) endT cp []
    else (fun new => (mockRecord rnd k d cp).2 :: new)
           <$> priceLoop tz fuel rnd (k + 6) (d + msPerDay) endT
                 (mockRecord rnd k d cp).1 []
  else Some [].
Proof.
  simpl. rewrite nextDay_shift.
  destruct (d <=? endT)%Z; [|reflexivity].
  destruct (isWeekend tz d); [reflexivity|].
  rewrite priceLoop_acc. reflexivity.
Qed.

Lemma priceLoop_terminates (fuel k : nat) (d : Z) (cp : Q) :
  (Z.to_nat ((endT - d) / msPerDay + 1) < fuel)%nat →
  is_Some (priceLoop tz fuel rnd k d endT cp []).
Proof.
  revert k d cp. induction fuel as [|fuel IH]; intros k d cp Hfuel; [lia|].
  rewrite priceLoop_step.
  destruct (Z.leb_spec d endT) as [Hle|Hgt]; [|eauto].
  assert (Hnext : (Z.to_nat ((endT - (d + msPerDay)) / msPerDay + 1) < fuel)%nat).
  { replace (endT - (d + msPerDay))%Z with (endT - d + (-1) * msPerDay)%Z by lia.
    rewrite Z.div_add by (unfold msPerDay; lia).
    assert (0 <= (endT - d) / msPerDay)%Z
      by (apply Z.div_pos; unfold msPerDay; lia).
    lia. }
  destruct (isWeekend tz d).
  - apply IH, Hnext.
  - destruct (IH (k + 6)%nat (d + msPerDay)%Z (mockRecord rnd k d cp).1 Hnext)
      as [new ->].
    simpl. eauto.
Qed.

Lemma priceLoop_dates (fuel k : nat) (d : Z) (cp : Q) (out : list PriceData) :
  priceLoop tz fuel rnd k d endT cp [] = Some out →
  Forall (fun r => (Day d <= date r <= Day endT)%Z) out ∧
  StronglySorted Z.lt (map date out).
Proof.
  revert k d cp out. induction fuel as [|fuel IH]; intros k d cp out; [discriminate|].
  rewrite priceLoop_step.
  destruct (Z.leb_spec d endT) as [Hle|Hgt].
  2:{ intros [= <-]. split; constructor. }
  assert (Hd : (Day d <= Day endT)%Z)
    by (apply Z.div_le_mono; [unfold msPerDay|]; lia).
  destruct (isWeekend tz d).
  - intros H. apply IH in H as [Hr Hs]. split; [|exact Hs].
    eapply Forall_impl; [exact Hr|]. simpl. intros r. rewrite Day_shift. lia.
  - destruct (priceLoop tz fuel rnd _ _ endT _ []) as [new|] eqn:E; [|discriminate].
    simpl. intros [= <-]. apply IH in E as [Hr Hs].
    rewrite Day_shift in Hr. split.
    + constructor; [simpl; unfold toISODate; lia|].
      eapply Forall_impl; [exact Hr|]. simpl. intros r. lia.
    + simpl. constructor; [exact Hs|].
      apply Forall_map. eapply Forall_impl; [exact Hr|].
      simpl. unfold toISODate. intros r. lia.
Qed.


Lemma priceLoop_wellFormed (fuel k : nat) (d : Z) (cp : Q) (out : list PriceData) :
  inUnitInterval rnd →
  priceLoop tz fuel rnd k d endT cp [] = Some out →
  Forall wellFormed out.
Proof.
  intros Hrnd.
  revert k d cp out. induction fuel as [|fuel IH]; intros k d cp out; [discriminate|].
  rewrite priceLoop_step.
  destruct (d <=? endT)%Z.
  2:{ intros [= <-]. constructor. }
  destruct (isWeekend tz d); [apply IH|].
  destruct (priceLoop tz fuel rnd _ _ endT _ []) as [new|] eqn:E; [|discriminate].
  simpl. intros [= <-]. constructor; [|eapply IH, E].
  apply (mockRecord_bounds rnd Hrnd k d cp).
Qed.

Lemma sameDay_shift (t : Z) : sameDay tz t → sameDay tz (t + msPerDay).
Proof.
  unfold sameDay, LocalTime. cbn [LocalTZA fixedZone]. intros H.
  replace (t + msPerDay + tz * 60000)%Z with (t + tz * 60000 + msPerDay)%Z by lia.
  rewrite !Day_shift. lia.
Qed.

Lemma priceLoop_weekdays (fuel k : nat) (d : Z) (cp : Q) (out : list PriceData) :
  sameDay tz d →
  priceLoop tz fuel rnd k d endT cp [] = Some out →
  Forall (fun r => ¬ onWeekend r) out.
Proof.
  revert k d cp out. induction fuel as [|fuel IH]; intros k d cp out Hsame;
    [discriminate|].
  rewrite priceLoop_step.
  destruct (d <=? endT)%Z.
  2:{ intros [= <-]. constructor. }
  destruct (isWeekend tz d) eqn:Hw; [apply IH, sameDay_shift, Hsame|].
  destruct (priceLoop tz fuel rnd _ _ endT _ []) as [new|] eqn:E; [|discriminate].
  simpl. intros [= <-]. constructor; [|eapply IH, E; apply sameDay_shift, Hsame].
  unfold onWeekend. simpl. unfold toISODate.
  unfold isWeekend, getDay, WeekDay in Hw. rewrite Hsame in Hw.
  apply orb_false_iff in Hw as [H0 H6].
  apply Z.eqb_neq in H0, H6. tauto.
Qed.

End Loop.

Lemma Day_parseIsoDate (d : IsoDate) : Day (parseIsoDate d) = d.
Proof. unfold Day, parseIsoDate. apply Z.div_mul. unfold msPerDay. lia. Qed.

Lemma sameDay_parseIsoDate (tz : Z) (d : IsoDate) :
  (0 <= tz < 1440)%Z → sameDay tz (parseIsoDate d).
Proof.
  intros Htz. unfold sameDay. rewrite Day_parseIsoDate.
  unfold Day, LocalTime, parseIsoDate, msPerDay. cbn [LocalTZA fixedZone].
  symmetry. apply (Z.div_unique _ _ _ (tz * 60000)); lia.
Qed.

Section Generated.
Variable tz : Z.
Variable e : DownloadEnv.
Variables startDate endDate : option IsoDate.

Let start : Z := loopStart tz e startDate.
Let endT : Z := loopEnd e endDate.

(** The loop of [downloadPriceData] always ends: the fuel it is given is
    never used up. *)
Lemma generatePriceData_loop :
  priceLoop tz (loopFuel start endT) (random e) 2 start endT
            (100 + random e 1%nat * 200)%Q []
  = Some (generatePriceData tz e startDate endDate).
Proof.
  unfold generatePriceData. fold start endT.
  destruct (priceLoop_terminates tz (random e) endT
              (loopFuel start endT) 2 start
              (100 + random e 1%nat * 200)%Q) as [out Hout].
  { unfold loopFuel.
    destruct (Z.le_gt_cases 0 ((endT - start) / msPerDay + 1)); lia. }
  rewrite Hout. reflexivity.
Qed.

Lemma generatePriceData_wellFormed :
  inUnitInterval (random e) →
  Forall wellFormed (generatePriceData tz e startDate endDate).
Proof.
  intros Hrnd. eapply priceLoop_wellFormed; [exact Hrnd|].
  apply generatePriceData_loop.
Qed.

Lemma generatePriceData_increasing :
  StronglySorted Z.lt (map date (generatePriceData tz e startDate endDate)).
Proof. eapply priceLoop_dates, generatePriceData_loop. Qed.

Lemma generatePriceData_range :
  Forall (fun r => (Day start <= date r <= Day endT)%Z)
         (generatePriceData tz e startDate endDate).
Proof. eapply priceLoop_dates, generatePriceData_loop. Qed.


Lemma generatePriceData_weekdays :
  sameDay tz start →
  Forall (fun r => ¬ onWeekend r) (generatePriceData tz e startDate endDate).
Proof.
  intros Hsame. eapply priceLoop_weekdays; [exact Hsame|].
  apply generatePriceData_loop.
Qed.

End Generated.


(** In a zone at or east of UTC a download that starts from a date-only
    string keeps no weekend day; so does every download under UTC. *)
Lemma no_weekend_east_of_utc (tz : Z) (e : DownloadEnv) (s : IsoDate)
  (endDate : option IsoDate) :
  (0 <= tz < 1440)%Z →
  Forall (fun r => ¬ onWeekend r) (generatePriceData tz e (Some s) endDate).
Proof.
  intros Htz. apply generatePriceData_weekdays. simpl.
  apply sameDay_parseIsoDate, Htz.
Qed.

Lemma no_weekend_under_utc (e : DownloadEnv) (startDate endDate : option IsoDate) :
  Forall (fun r => ¬ onWeekend r) (generatePriceData 0 e startDate endDate).
Proof.
  apply generatePriceData_weekdays. unfold sameDay, LocalTime.
  cbn [LocalTZA fixedZone]. f_equal. lia.
Qed.

(** C8 (weekend rule): five hours west of UTC, the incremental download
    that follows a last available date of Friday 2024-01-05, run on
    Saturday 2024-01-06 (UTC), returns one record, dated 2024-01-06, a
    Saturday.  The loop tests the local weekday ([getDay()], Friday
    19:00 there) and stores the UTC date ([toISOString()]).  The record
    itself is well formed. *)
Theorem C8_saturday_record_west_of_utc :
  ∃ r,
    (downloadIncrementalPriceData westOfUtc saturdayTask "AAPL" 19727%Z
       initialStore).1 = Some [r] ∧
    (downloadPriceData westOfUtc saturdayEnv "AAPL" (Some 19728%Z) (Some 19728%Z)
       initialStore).1 = Some [r] ∧
    isoDateString (date r) = "2024-01-06" ∧
    WeekDayOfDay (date r) = 6%Z ∧
    onWeekend r ∧
    getDay westOfUtc (parseIsoDate (date r)) = 5%Z.
Proof.
  eexists. split; [vm_compute; reflexivity|].
  split; [vm_compute; reflexivity|].
  split; [vm_compute; reflexivity|].
  split; [vm_compute; reflexivity|].
  split; [right; vm_compute; reflexivity|].
  vm_compute; reflexivity.
Qed.

(** The other three parts of C8 hold for every download: the records are
    well formed, and their dates increase strictly. *)
Lemma downloadPriceData_records (tz : Z) (e : DownloadEnv) (sym : string)
  (startDate endDate : option IsoDate) (st : Store) (out : list PriceData) :
  inUnitInterval (random e) →
  (downloadPriceData tz e sym startDate endDate st).1 = Some out →
  Forall wellFormed out ∧ StronglySorted Z.lt (map date out).
Proof.
  intros Hrnd. unfold downloadPriceData.
  destruct (importResolves e); [|discriminate].
  simpl. intros [= <-]. split.
  - apply generatePriceData_wellFormed, Hrnd.
  - apply generatePriceData_increasing.
Qed.

(** *** The batch loop *)

Section BatchProps.
Variable tz : Z.
Variable symbols : list string.
Variable onProgress : bool.
Variable override : bool.
Variable cancelToken : option (nat → CancelToken).
Variable envs : nat → TaskEnv.
Variable sched : nat → list nat.

Local Abbreviation processBatch := (processBatch tz symbols onProgress override envs sched).
Local Abbreviation processFrom := (processFrom tz symbols onProgress override envs sched).
Local Abbreviation batchLoop := (batchLoop tz symbols onProgress override cancelToken envs sched).
Local Abbreviation total := (totalBatches symbols).

Lemma batch_index (k j : nat) : (j < batchSize)%nat → ((k * batchSize + j) / batchSize = k)%nat.
Proof.
  intros Hj. unfold batchSize in *.
  rewrite Nat.add_comm, Nat.div_add by lia.
  rewrite Nat.div_small by lia. lia.
Qed.

Lemma boundary_index (k : nat) : ((k * batchSize) / batchSize = k)%nat.
Proof. rewrite <- (batch_index k 0) at 2 by (unfold batchSize; lia). f_equal. lia. Qed.

Lemma in_range_iff (k : nat) :
  (k * batchSize < length symbols)%nat ↔ (k < total)%nat.
Proof.
  unfold totalBatches. change (batchSize - 1)%nat with 99%nat.
  change batchSize with 100%nat.
  pose proof (Nat.div_mod (length symbols + 99) 100 ltac:(lia)) as Hd.
  pose proof (Nat.mod_upper_bound (length symbols + 99) 100 ltac:(lia)) as Hm.
  set (q := ((length symbols + 99) / 100)%nat) in *.
  set (r := ((length symbols + 99) mod 100)%nat) in *.
  lia.
Qed.

Lemma tokenAt_goesOn (k : nat) :
  goesOn cancelToken k →
  match tokenAt cancelToken k with Some t => cancelled t = false | None => True end.
Proof. unfold goesOn, cancelledAt, tokenAt. destruct cancelToken; simpl; auto. Qed.

Lemma batchLoop_S (fuel i : nat) (sh : Shared) :
  batchLoop (S fuel) i sh =
  if (i <? length symbols)%nat then
    match tokenAt cancelToken (i / batchSize) with
    | Some t =>
        if cancelled t then Some (cancelReport onProgress t sh)
        else batchLoop fuel (i + batchSize) (processBatch i sh)
    | None => batchLoop fuel (i + batchSize) (processBatch i sh)
    end
  else Some sh.
Proof. reflexivity. Qed.

Lemma processFrom_S (k count : nat) (sh : Shared) :
  processFrom k (S count) sh
  = processFrom (S k) count (processBatch (k * batchSize) sh).
Proof. reflexivity. Qed.

(** The loop without cancellation: every batch from [k] on is processed. *)
Lemma batchLoop_goesOn (fuel k : nat) (sh : Shared) :
  (total - k < fuel)%nat →
  (∀ j, (k ≤ j < total)%nat → goesOn cancelToken j) →
  batchLoop fuel (k * batchSize) sh = Some (processFrom k (total - k) sh).
Proof.
  revert k sh. induction fuel as [|fuel IH]; intros k sh Hfuel Hgo; [lia|].
  rewrite batchLoop_S.
  destruct (Nat.ltb_spec (k * batchSize) (length symbols)) as [Hlt|Hge].
  - apply in_range_iff in Hlt.
    rewrite boundary_index.
    pose proof (tokenAt_goesOn k (Hgo k ltac:(lia))) as Hk.
    replace (total - k)%nat with (S (total - S k)) by lia. rewrite processFrom_S.
    replace (k * batchSize + batchSize)%nat with (S k * batchSize)%nat by lia.
    destruct (tokenAt cancelToken k) as [t|]; [rewrite Hk|];
      (rewrite IH; [reflexivity | lia | intros j Hj; apply Hgo; lia]).
  - assert (¬ (k < total)%nat) by (rewrite <- in_range_iff; lia).
    replace (total - k)%nat with 0%nat by lia. reflexivity.
Qed.

(** The loop with a first cancelled boundary [c]. *)
Lemma batchLoop_cancelled (fuel k c : nat) (token : nat → CancelToken) (sh : Shared) :
  cancelToken = Some token →
  (c - k < fuel)%nat → (k ≤ c < total)%nat →
  (∀ j, (k ≤ j < c)%nat → cancelled (token j) = false) →
  cancelled (token c) = true →
  batchLoop fuel (k * batchSize) sh
  = Some (cancelReport onProgress (token c) (processFrom k (c - k) sh)).
Proof.
  intros Htok. revert k sh. induction fuel as [|fuel IH]; intros k sh Hfuel Hkc Hgo Hc; [lia|].
  rewrite batchLoop_S.
  destruct (Nat.ltb_spec (k * batchSize) (length symbols)) as [Hlt|Hge].
  2:{ assert (¬ (k < total)%nat) by (rewrite <- in_range_iff; lia). lia. }
  rewrite boundary_index.
  assert (Hat : tokenAt cancelToken k = Some (token k))
    by (unfold tokenAt; rewrite Htok; reflexivity).
  rewrite Hat.
  destruct (decide (k = c)) as [->|Hne].
  - rewrite Hc. replace (c - c)%nat with 0%nat by lia. reflexivity.
  - rewrite (Hgo k) by lia.
    replace (c - k)%nat with (S (c - S k)) by lia. rewrite processFrom_S.
    replace (k * batchSize + batchSize)%nat with (S k * batchSize)%nat by lia.
    apply IH; [lia | lia | intros j Hj; apply Hgo; lia | exact Hc].
Qed.
End BatchProps.

(** *** Invariants of a run *)

Section StepProps.
Variable tz : Z.
Variable symbols : list string.
Variable onProgress : bool.
Variable override : bool.
Variable envs : nat → TaskEnv.
Variable sched : nat → list nat.

Local Abbreviation downloadsGenuine := (downloadsGenuine tz symbols override envs).
Local Abbreviation lookupsGenuine := (lookupsGenuine override envs).
Local Abbreviation taskInv := (taskInv override envs).
Local Abbreviation tasksInv := (tasksInv symbols override envs).
Local Abbreviation RunInv := (RunInv tz symbols override envs).
Local Abbreviation taskStep := (taskStep tz symbols override).
Local Abbreviation resume := (resume tz symbols override envs).

(** **** Appending an event *)

Lemma genuine_snoc_other (l : list Event) (ev : Event) :
  downloadsGenuine l →
  (∀ pos sym a b r, ev ≠ Downloaded pos sym a b r) →
  downloadsGenuine (l ++ [ev]).
Proof.
  intros Hl Hev n pos sym a b r Hn.
  apply lookup_snoc_Some in Hn as [[Hlt Hn]|[_ ->]]; [|by destruct (Hev pos sym a b r)].
  destruct (Hl _ _ _ _ _ _ Hn) as (Hsym & Hr & Hargs).
  split; [exact Hsym|]. split; [exact Hr|].
  destruct override; [exact Hargs|].
  destruct Hargs as (m & ld & Hm & Hlook & Hab).
  exists m, ld. split; [exact Hm|]. split; [|exact Hab].
  apply lookup_app_l_Some, Hlook.
Qed.

Lemma genuine_snoc_download (l : list Event) (pos : nat) (sym : string)
  (a b : option IsoDate) :
  downloadsGenuine l →
  symbols !! pos = Some sym →
  (if override then a = None ∧ b = None
   else ∃ ld, LastDateQueried pos sym ld ∈ l ∧
              (a, b) = lookupArgs tz envs pos ld) →
  downloadsGenuine
    (l ++ [Downloaded pos sym a b (downloadOutcome tz envs pos a b)]).
Proof.
  intros Hl Hsym Hargs n pos' sym' a' b' r' Hn.
  apply lookup_snoc_Some in Hn as [[Hlt Hn]|[-> [= <- <- <- <- <-]]].
  - destruct (Hl _ _ _ _ _ _ Hn) as (Hsym' & Hr & Hargs').
    split; [exact Hsym'|]. split; [exact Hr|].
    destruct override; [exact Hargs'|].
    destruct Hargs' as (m & ld & Hm & Hlook & Hab).
    exists m, ld. split; [exact Hm|]. split; [|exact Hab].
    apply lookup_app_l_Some, Hlook.
  - split; [exact Hsym|]. split; [reflexivity|].
    destruct override; [exact Hargs|].
    destruct Hargs as (ld & Hin & Hab).
    apply list_elem_of_lookup in Hin as [m Hm].
    exists m, ld. split; [eapply lookup_lt_Some, Hm|].
    split; [|exact Hab]. apply lookup_app_l_Some, Hm.
Qed.

Lemma lookups_snoc (l : list Event) (ev : Event) :
  lookupsGenuine l →
  (∀ pos sym ld, ev = LastDateQueried pos sym ld →
     override = false ∧
     ld = getLastAvailableDate (lastRandom (envs pos)) (lastNow (envs pos))) →
  lookupsGenuine (l ++ [ev]).
Proof.
  intros Hl Hev pos sym ld Hin.
  apply elem_of_app in Hin as [Hin|Hin].
  - exact (Hl _ _ _ Hin).
  - apply list_elem_of_singleton in Hin. exact (Hev _ _ _ (eq_sym Hin)).
Qed.

Lemma fresh_snoc_other (l : list Event) (ev : Event) (st : Store) :
  storeFresh l st →
  (∀ pos sym a b d, ev ≠ Downloaded pos sym a b (Some d)) →
  storeFresh (l ++ [ev]) st.
Proof.
  intros Hl Hev s (pos & a & b & d & Hin).
  apply elem_of_app in Hin as [Hin|Hin].
  - destruct (Hl s) as (pos' & a' & b' & d' & Hin' & Hst); [eauto|].
    exists pos', a', b', d'. split; [apply elem_of_app; auto|exact Hst].
  - apply list_elem_of_singleton in Hin. by destruct (Hev pos s a b d).
Qed.

Lemma fresh_download (l : list Event) (st : Store) (pos : nat) (sym : string)
  (a b : option IsoDate) (d : list PriceData) (stamp : string) :
  storeFresh l st →
  storeFresh (l ++ [Downloaded pos sym a b (Some d)])
             (savePriceDataToMongoDB sym d stamp st).
Proof.
  intros Hl s Hs. destruct (decide (sym = s)) as [<-|Hne].
  - exists pos, a, b, d. split.
    + in_last.
    + rewrite storedPrice_save. case_decide; congruence.
  - destruct Hs as (pos' & a' & b' & d' & Hin).
    apply elem_of_app in Hin as [Hin|Hin].
    2:{ apply list_elem_of_singleton in Hin. congruence. }
    destruct (Hl s) as (p2 & a2 & b2 & d2 & Hin2 & Hst); [eauto|].
    exists p2, a2, b2, d2. split; [apply elem_of_app; auto|].
    rewrite storedPrice_save. case_decide; congruence.
Qed.

Lemma fresh_save (l : list Event) (st : Store) (pos : nat) (sym : string)
  (a b : option IsoDate) (d : list PriceData) (stamp : string) :
  storeFresh l st →
  Downloaded pos sym a b (Some d) ∈ l →
  storeFresh l (savePriceDataToMongoDB sym d stamp st).
Proof.
  intros Hl Hin s Hs. destruct (decide (sym = s)) as [<-|Hne].
  - exists pos, a, b, d. split; [exact Hin|].
    rewrite storedPrice_save. case_decide; congruence.
  - destruct (Hl s Hs) as (p2 & a2 & b2 & d2 & Hin2 & Hst).
    exists p2, a2, b2, d2. split; [exact Hin2|].
    rewrite storedPrice_save. case_decide; congruence.
Qed.

Lemma ranked_weaken (bound bound' : nat) (l : list Event) :
  ranked bound l → (bound ≤ bound')%nat → ranked bound' l.
Proof.
  intros [Hord Hb] Hle. split; [exact Hord|].
  intros ev r Hin Hr. specialize (Hb ev r Hin Hr). lia.
Qed.

Lemma ranked_snoc (bound : nat) (l : list Event) (ev : Event) :
  ranked bound l →
  (∀ r, eventRank ev = Some r → r = bound) →
  ranked bound (l ++ [ev]).
Proof.
  intros [Hord Hb] Hev. split.
  - intros m n ev1 ev2 r1 r2 Hmn H1 H2 Hr1 Hr2.
    apply lookup_snoc_Some in H2 as [[Hn H2]|[Hn <-]].
    + apply lookup_snoc_Some in H1 as [[_ H1]|[Hm _]]; [|lia].
      exact (Hord m n ev1 ev2 r1 r2 Hmn H1 H2 Hr1 Hr2).
    + rewrite (Hev r2 Hr2).
      apply lookup_snoc_Some in H1 as [[_ H1]|[_ <-]].
      * apply (Hb ev1 r1); [eapply list_elem_of_lookup_2, H1|exact Hr1].
      * rewrite (Hev r1 Hr1). lia.
  - intros ev' r Hin Hr. apply elem_of_app in Hin as [Hin|Hin].
    + exact (Hb ev' r Hin Hr).
    + apply list_elem_of_singleton in Hin. subst ev'. rewrite (Hev r Hr). lia.
Qed.

Lemma before_mono (ev1 ev2 : Event) (l new : list Event) :
  before ev1 ev2 l → before ev1 ev2 (l ++ new).
Proof.
  intros (m & n & Hmn & H1 & H2). exists m, n.
  split; [exact Hmn|]. split; apply lookup_app_l_Some; assumption.
Qed.

Lemma before_snoc (ev1 ev2 : Event) (l : list Event) :
  ev1 ∈ l → before ev1 ev2 (l ++ [ev2]).
Proof.
  intros Hin. apply list_elem_of_lookup in Hin as [m Hm].
  exists m, (length l). split; [eapply lookup_lt_Some, Hm|].
  split; [apply lookup_app_l_Some, Hm|].
  apply lookup_snoc_Some. right. auto.
Qed.

Lemma before_elem (ev1 ev2 : Event) (l : list Event) :
  before ev1 ev2 l → ev1 ∈ l ∧ ev2 ∈ l.
Proof.
  intros (m & n & _ & H1 & H2).
  split; eapply list_elem_of_lookup_2; eassumption.
Qed.

Lemma taskInv_mono (pos : nat) (sym : string) (ts : TaskState) (l new : list Event) :
  taskInv pos sym ts l → taskInv pos sym ts (l ++ new).
Proof.
  assert (Hin : ∀ ev, ev ∈ l → ev ∈ l ++ new) by (intros; apply elem_of_app; auto).
  destruct ts as [|ld|d|d|[|]]; simpl; unfold settledWell.
  - done.
  - intros [? ?]. auto.
  - intros (a & b & ?). eauto.
  - intros (a & b & ?). eauto using before_mono.
  - intros [(a & b & r & ?) (a' & b' & d & ? & Ho)].
    split; [eauto|]. exists a', b', d. split; [auto using before_mono|].
    intros Htrue. destruct (Ho Htrue). auto using before_mono.
  - intros [(a & b & r & ?) ?]. split; eauto.
Qed.

(** **** One resumption of a task *)

Lemma updateProgress_symbols (g : option nat)
  (f : DownloadProgress → DownloadProgress) (p : list DownloadProgress) :
  (∀ x, dp_symbol (f x) = dp_symbol x) →
  map dp_symbol (updateProgress g f p) = map dp_symbol p.
Proof.
  intros Hf. destruct g as [g|]; [|reflexivity]. simpl.
  change (dp_symbol <$> alter f g p = dp_symbol <$> p).
  rewrite (list_fmap_alter dp_symbol f id).
  - apply list_alter_id. reflexivity.
  - apply Forall_forall. intros x _. apply Hf.
Qed.

Lemma RunInv_withProgress (bound : nat) (sh : Shared) (g : option nat)
  (f : DownloadProgress → DownloadProgress) :
  (∀ x, dp_symbol (f x) = dp_symbol x) →
  RunInv bound sh →
  RunInv bound (withProgress (updateProgress g f (progressArray sh)) sh).
Proof.
  intros Hf [H1 H2 H3 H4 H5]. split; simpl; try assumption.
  rewrite updateProgress_symbols by exact Hf. exact H5.
Qed.

Lemma task_rank (k pos : nat) (ev : Event) :
  (pos / batchSize)%nat = k →
  eventBatch ev = Some (pos / batchSize)%nat →
  (∀ n t s f, ev ≠ BatchCompleted n t s f) →
  ∀ r, eventRank ev = Some r → r = (2 * k + 1)%nat.
Proof.
  intros <- Hb Hc r. destruct ev; simpl in *; try discriminate;
    try (injection Hb as ->; intros [= <-]; reflexivity).
  by destruct (Hc number total successful failed).
Qed.

Section OneTask.
Variables k pos : nat.
Variable sym : string.
Hypothesis Hk : (pos / batchSize)%nat = k.
Hypothesis Hsym : symbols !! pos = Some sym.

Lemma afterDownload_inv (a b : option IsoDate) (sh : Shared) :
  RunInv (2 * k + 1) sh →
  (if override then a = None ∧ b = None
   else ∃ ld, LastDateQueried pos sym ld ∈ events sh ∧
              (a, b) = lookupArgs tz envs pos ld) →
  let r := afterDownload symbols pos sym a b
             (downloadPriceData tz (dl (envs pos)) sym a b (store sh)) sh in
  RunInv (2 * k + 1) r.2 ∧
  taskInv pos sym r.1 (events r.2) ∧
  events r.2
  = events sh ++ [Downloaded pos sym a b (downloadOutcome tz envs pos a b)] ∧
  (remaining override r.1 ≤ 2)%nat ∧
  (override = false → remaining override r.1 ≤ 1)%nat.
Proof.
  intros [H1 H2 H3 H4 H5] Hargs.
  unfold afterDownload, downloadPriceData, downloadOutcome.
  pose proof (genuine_snoc_download _ pos sym a b H1 Hsym Hargs) as Hg.
  unfold downloadOutcome in Hg.
  assert (Hrank : ∀ res, ranked (2 * k + 1) (events sh ++ [Downloaded pos sym a b res])).
  { intros res. apply ranked_snoc; [exact H4|].
    apply (task_rank k pos); [exact Hk|reflexivity|discriminate]. }
  assert (Hlook : ∀ res, lookupsGenuine
                           (events sh ++ [Downloaded pos sym a b res])).
  { intros res. apply lookups_snoc; [exact H2|discriminate]. }
  destruct (importResolves (dl (envs pos))) eqn:Himp; simpl.
  - split; [|split; [|split; [reflexivity|]]].
    + split; simpl; try done. apply fresh_download, H3.
    + exists a, b. in_last.
    + destruct override; split; (lia || discriminate).
  - split; [|split; [|split; [reflexivity|]]].
    + apply (RunInv_withProgress _ (emit _ (withStore _ _))); [reflexivity|].
      split; simpl; try done. apply fresh_snoc_other; [exact H3|discriminate].
    + split; [|rewrite Himp; reflexivity].
      exists a, b, None. apply elem_of_app. right.
      apply list_elem_of_singleton. reflexivity.
    + split; intros; lia.
Qed.

Lemma saveStep_inv (d : list PriceData) (sh : Shared) :
  RunInv (2 * k + 1) sh →
  (∃ a b, Downloaded pos sym a b (Some d) ∈ events sh ∧
          (override = true →
           before (Downloaded pos sym a b (Some d)) (PriceDataDeleted pos sym)
                  (events sh))) →
  let r := saveStep symbols override pos sym (envs pos) d sh in
  RunInv (2 * k + 1) r.2 ∧
  taskInv pos sym r.1 (events r.2) ∧
  (∃ ok, events r.2 = events sh ++ [Saved pos sym d ok]) ∧
  remaining override r.1 = 0%nat.
Proof.
  intros [H1 H2 H3 H4 H5] (a & b & Hd & Hdel).
  unfold saveStep, savePriceData.
  assert (Hrank : ∀ ok, ranked (2 * k + 1) (events sh ++ [Saved pos sym d ok])).
  { intros ok. apply ranked_snoc; [exact H4|].
    apply (task_rank k pos); [exact Hk|reflexivity|discriminate]. }
  assert (Hlook : ∀ ok, lookupsGenuine (events sh ++ [Saved pos sym d ok])).
  { intros ok. apply lookups_snoc; [exact H2|discriminate]. }
  assert (Hgen : ∀ ok, downloadsGenuine (events sh ++ [Saved pos sym d ok])).
  { intros ok. apply genuine_snoc_other; [exact H1|discriminate]. }
  assert (Hin : ∀ ev new, ev ∈ events sh → ev ∈ events sh ++ new)
    by (intros; apply elem_of_app; auto).
  destruct (saveImportResolves (envs pos)) eqn:Himp; simpl.
  - split; [|split; [|split; [eauto|reflexivity]]].
    + apply (RunInv_withProgress _ (emit _ (withStore _ _))); [reflexivity|].
      split; simpl; try done.
      apply fresh_snoc_other; [|discriminate].
      eapply fresh_save; [exact H3|exact Hd].
    + split; [eauto|]. exists a, b, d. split; [apply before_snoc, Hd|].
      intros Ho. specialize (Hdel Ho). split; [apply before_mono, Hdel|].
      apply before_snoc. apply (before_elem _ _ _ Hdel).
  - split; [|split; [|split; [eauto|reflexivity]]].
    + apply (RunInv_withProgress _ (emit _ (withStore _ _))); [reflexivity|].
      split; simpl; try done.
      apply fresh_snoc_other; [exact H3|discriminate].
    + split; [eauto|]. rewrite Himp. apply andb_false_r.
Qed.

Lemma taskStep_start_override (e : TaskEnv) (sh : Shared) :
  override = true →
  taskStep pos sym e Start sh
  = afterDownload symbols pos sym None None
      (downloadPriceData tz (dl e) sym None None (store sh)) sh.
Proof. intros Ho. unfold FinancialDataService.taskStep. rewrite Ho. reflexivity. Qed.

Lemma taskStep_start_lookup (e : TaskEnv) (sh : Shared) :
  override = false →
  taskStep pos sym e Start sh
  = (LookedUp (getLastAvailableDate (lastRandom e) (lastNow e)),
     emit (LastDateQueried pos sym
             (getLastAvailableDate (lastRandom e) (lastNow e))) sh).
Proof. intros Ho. unfold FinancialDataService.taskStep. rewrite Ho. reflexivity. Qed.

Lemma taskStep_lookedUp (e : TaskEnv) (ld : option IsoDate) (sh : Shared) :
  taskStep pos sym e (LookedUp ld) sh
  = afterDownload symbols pos sym
      (lookupArgs tz (fun _ => e) pos ld).1 (lookupArgs tz (fun _ => e) pos ld).2
      (downloadPriceData tz (dl e) sym
         (lookupArgs tz (fun _ => e) pos ld).1
         (lookupArgs tz (fun _ => e) pos ld).2 (store sh)) sh.
Proof. destruct ld; reflexivity. Qed.

Lemma taskStep_fetched_override (e : TaskEnv) (d : list PriceData) (sh : Shared) :
  override = true →
  taskStep pos sym e (Fetched d) sh
  = (Deleted d, emit (PriceDataDeleted pos sym) sh).
Proof.
  intros Ho. unfold FinancialDataService.taskStep. rewrite Ho.
  destruct sh; reflexivity.
Qed.

Lemma taskStep_fetched_save (e : TaskEnv) (d : list PriceData) (sh : Shared) :
  override = false →
  taskStep pos sym e (Fetched d) sh = saveStep symbols override pos sym e d sh.
Proof. intros Ho. unfold FinancialDataService.taskStep. rewrite Ho. reflexivity. Qed.

Lemma emit_inv (ev : Event) (sh : Shared) :
  RunInv (2 * k + 1) sh →
  eventBatch ev = Some (pos / batchSize)%nat →
  (∀ n t s f, ev ≠ BatchCompleted n t s f) →
  (∀ p s a b r, ev ≠ Downloaded p s a b r) →
  (∀ p s ld, ev = LastDateQueried p s ld →
     override = false ∧
     ld = getLastAvailableDate (lastRandom (envs p)) (lastNow (envs p))) →
  RunInv (2 * k + 1) (emit ev sh).
Proof.
  intros [H1 H2 H3 H4 H5] Hb Hc Hd Hl. split; simpl.
  - apply genuine_snoc_other; assumption.
  - apply lookups_snoc; assumption.
  - apply fresh_snoc_other; [exact H3|]. intros p s a b d. apply Hd.
  - apply ranked_snoc; [exact H4|]. apply (task_rank k pos); assumption.
  - exact H5.
Qed.

Lemma single_event (ev : Event) :
  (∀ n t s f, ev ≠ BatchCompleted n t s f) →
  dispatchedOf ev = None →
  omap dispatchedOf [ev] = [] ∧
  ∀ ev', ev' ∈ [ev] → ∀ n t s f, ev' ≠ BatchCompleted n t s f.
Proof.
  intros Hc Hd. split; [simpl; rewrite Hd; reflexivity|].
  intros ev' Hev. apply list_elem_of_singleton in Hev. subst ev'. exact Hc.
Qed.

Lemma taskStep_inv (ts : TaskState) (sh : Shared) :
  RunInv (2 * k + 1) sh →
  taskInv pos sym ts (events sh) →
  let r := taskStep pos sym (envs pos) ts sh in
  RunInv (2 * k + 1) r.2 ∧
  taskInv pos sym r.1 (events r.2) ∧
  (∃ new, events r.2 = events sh ++ new ∧
          omap dispatchedOf new = [] ∧
          ∀ ev, ev ∈ new → ∀ n t s f, ev ≠ BatchCompleted n t s f) ∧
  (remaining override r.1 ≤ remaining override ts - 1)%nat.
Proof.
  intros Hinv Hts.
  assert (Hin : ∀ ev new, ev ∈ events sh → ev ∈ events sh ++ new)
    by (intros; apply elem_of_app; auto).
  assert (Hlast : ∀ ev, ev ∈ events sh ++ [ev]).
  { intros. in_last. }
  destruct ts as [|ld|d|d|ok]; cbv zeta.
  - (* Start *)
    destruct (Bool.bool_dec override true) as [Ho|Ho].
    + rewrite taskStep_start_override by exact Ho.
      destruct (afterDownload_inv None None sh Hinv) as (Ha & Hb & Hc & Hd & _).
      { rewrite Ho. auto. }
      split; [exact Ha|]. split; [exact Hb|]. split; [|simpl; lia].
      eexists. split; [exact Hc|]. apply single_event; [discriminate|reflexivity].
    + apply not_true_is_false in Ho.
      rewrite taskStep_start_lookup by exact Ho. simpl.
      split; [|split; [|split; [|rewrite Ho; lia]]].
      * apply emit_inv; try discriminate; [exact Hinv|reflexivity|].
        intros p s ld [= -> -> ->]. auto.
      * split; [exact Ho|apply Hlast].
      * eexists. split; [reflexivity|].
        apply single_event; [discriminate|reflexivity].
  - (* LookedUp *)
    destruct Hts as [Ho Hlook].
    rewrite taskStep_lookedUp.
    replace (lookupArgs tz (fun _ => envs pos) pos ld)
      with (lookupArgs tz envs pos ld) by (destruct ld; reflexivity).
    destruct (afterDownload_inv (lookupArgs tz envs pos ld).1
                (lookupArgs tz envs pos ld).2 sh Hinv)
      as (Ha & Hb & Hc & _ & Hd).
    { rewrite Ho. exists ld. split; [exact Hlook|]. symmetry. apply surjective_pairing. }
    split; [exact Ha|]. split; [exact Hb|].
    split.
    2:{ specialize (Hd Ho).
        change (remaining override (LookedUp ld)) with (if override then 3 else 2)%nat.
        rewrite Ho in Hd |- *. lia. }
    eexists. split; [exact Hc|]. apply single_event; [discriminate|reflexivity].
  - (* Fetched *)
    destruct (Bool.bool_dec override true) as [Ho|Ho].
    + rewrite taskStep_fetched_override by exact Ho. simpl.
      destruct Hts as (a & b & Hd).
      split; [|split; [|split; [|rewrite Ho; lia]]].
      * apply emit_inv; try discriminate; [exact Hinv|reflexivity].
      * exists a, b. apply before_snoc, Hd.
      * eexists. split; [reflexivity|].
        apply single_event; [discriminate|reflexivity].
    + apply not_true_is_false in Ho.
      rewrite taskStep_fetched_save by exact Ho.
      destruct (saveStep_inv d sh Hinv) as (Ha & Hb & (ok & Hc) & Hd).
      { destruct Hts as (a & b & Hd). exists a, b. split; [exact Hd|].
        rewrite Ho. discriminate. }
      split; [exact Ha|]. split; [exact Hb|]. split; [|lia].
      eexists. split; [exact Hc|]. apply single_event; [discriminate|reflexivity].
  - (* Deleted *)
    destruct Hts as (a & b & Hdel).
    destruct (saveStep_inv d sh Hinv) as (Ha & Hb & (ok & Hc) & Hr).
    { exists a, b. split; [apply (before_elem _ _ _ Hdel)|auto]. }
    split; [exact Ha|]. split; [exact Hb|]. split; [|simpl in *; lia].
    eexists. split; [exact Hc|]. apply single_event; [discriminate|reflexivity].
  - (* Finished *)
    split; [exact Hinv|]. split; [exact Hts|]. split; [|simpl; lia].
    exists []. rewrite app_nil_r. split; [reflexivity|]. split; [reflexivity|].
    intros ev Hev. by apply elem_of_nil in Hev.
Qed.

End OneTask.

(** **** A batch in flight *)

Section OneBatch.
Variables k i : nat.
Hypothesis Hi : i = (k * batchSize)%nat.

Lemma extends_refl (sh : Shared) : extends sh sh.
Proof.
  exists []. rewrite app_nil_r. split; [reflexivity|]. split; [reflexivity|].
  intros ev Hev. by apply elem_of_nil in Hev.
Qed.

Lemma extends_trans (sh1 sh2 sh3 : Shared) :
  extends sh1 sh2 → extends sh2 sh3 → extends sh1 sh3.
Proof.
  intros (n1 & E1 & D1 & C1) (n2 & E2 & D2 & C2). exists (n1 ++ n2).
  split; [rewrite E2, E1, app_assoc; reflexivity|].
  split; [rewrite omap_app, D1, D2; reflexivity|].
  intros ev Hev. apply elem_of_app in Hev as [Hev|Hev]; auto.
Qed.

Local Abbreviation batchInv :=
  (FinancialDataService.batchInv tz symbols override envs k i).

Lemma resume_inv (bs : BatchState) (j : nat) :
  batchInv bs →
  batchInv (resume i bs j) ∧
  length (resume i bs j).1 = length bs.1 ∧
  extends bs.2 (resume i bs j).2 ∧
  (∀ j', remainingAt override (resume i bs j).1 j' ≤ remainingAt override bs.1 j')%nat ∧
  (remainingAt override (resume i bs j).1 j ≤ remainingAt override bs.1 j - 1)%nat.
Proof.
  intros (Hlen & Hinv & Htasks). unfold FinancialDataService.resume.
  destruct (bs.1 !! j) as [ts|] eqn:Hts.
  2:{ split; [done|]. split; [done|]. split; [apply extends_refl|].
      split; [done|]. unfold remainingAt. rewrite Hts. simpl. lia. }
  destruct (Htasks j ts Hts) as (sym & Hsym & Htask).
  rewrite Hsym.
  assert (Hj : (j < length bs.1)%nat) by (eapply lookup_lt_Some, Hts).
  assert (Hk : ((i + j) / batchSize)%nat = k).
  { rewrite Hi. apply batch_index. lia. }
  destruct (taskStep_inv k (i + j) sym Hk Hsym ts bs.2 Hinv Htask)
    as (Ha & Hb & (new & Hnew & Hd & Hc) & Hrem).
  cbv zeta in *. simpl.
  set (r := taskStep (i + j) sym (envs (i + j)%nat) ts bs.2) in *.
  split; [|split; [|split; [|split]]].
  - unfold FinancialDataService.batchInv. simpl.
    split; [rewrite length_insert; exact Hlen|]. split; [exact Ha|].
    intros j' ts' Hj'. simpl in Hj'.
    destruct (decide (j = j')) as [<-|Hne].
    + rewrite list_lookup_insert_eq in Hj' by exact Hj.
      injection Hj' as <-. exists sym. split; [exact Hsym|exact Hb].
    + rewrite list_lookup_insert_ne in Hj' by exact Hne.
      destruct (Htasks j' ts' Hj') as (sym' & Hsym' & Htask').
      exists sym'. split; [exact Hsym'|]. rewrite Hnew.
      apply taskInv_mono, Htask'.
  - apply length_insert.
  - exists new. auto.
  - intros j'. unfold remainingAt.
    destruct (decide (j = j')) as [<-|Hne].
    + rewrite list_lookup_insert_eq by exact Hj. rewrite Hts. simpl. lia.
    + rewrite list_lookup_insert_ne by exact Hne. lia.
  - unfold remainingAt. rewrite list_lookup_insert_eq by exact Hj.
    rewrite Hts. simpl. exact Hrem.
Qed.

Lemma run_inv (l : list nat) (bs : BatchState) :
  batchInv bs →
  batchInv (foldl (resume i) bs l) ∧
  length (foldl (resume i) bs l).1 = length bs.1 ∧
  extends bs.2 (foldl (resume i) bs l).2 ∧
  (∀ j, remainingAt override (foldl (resume i) bs l).1 j
        ≤ remainingAt override bs.1 j)%nat ∧
  (∀ j, j ∈ l →
        remainingAt override (foldl (resume i) bs l).1 j
        ≤ remainingAt override bs.1 j - 1)%nat.
Proof.
  revert bs. induction l as [|x l IH]; intros bs Hbs; simpl.
  - split; [exact Hbs|]. split; [done|]. split; [apply extends_refl|].
    split; [done|]. intros j Hj. by apply elem_of_nil in Hj.
  - destruct (resume_inv bs x Hbs) as (H1 & H2 & H3 & H4 & H5).
    destruct (IH _ H1) as (I1 & I2 & I3 & I4 & I5).
    split; [exact I1|]. split; [congruence|].
    split; [eapply extends_trans; eassumption|].
    split.
    + intros j. specialize (I4 j). specialize (H4 j). lia.
    + intros j Hj. apply elem_of_cons in Hj as [->|Hj].
      * specialize (I4 x). lia.
      * specialize (I5 j Hj). specialize (H4 j). lia.
Qed.

Lemma settle_inv (l : list nat) (bs : BatchState) :
  batchInv bs →
  let bs' := foldl (resume i) bs (l ++ settleOrder (length bs.1)) in
  batchInv bs' ∧
  length bs'.1 = length bs.1 ∧
  extends bs.2 bs'.2 ∧
  Forall (fun ts => isFinished ts = true) bs'.1.
Proof.
  intros Hbs. cbv zeta. unfold settleOrder. rewrite !foldl_app.
  destruct (run_inv l bs Hbs) as (A1 & A2 & A3 & _ & _).
  set (b1 := foldl (resume i) bs l) in *.
  destruct (run_inv (seq 0 (length bs.1)) b1 A1) as (B1 & B2 & B3 & _ & B5).
  set (b2 := foldl (resume i) b1 _) in *.
  destruct (run_inv (seq 0 (length bs.1)) b2 B1) as (C1 & C2 & C3 & _ & C5).
  set (b3 := foldl (resume i) b2 _) in *.
  destruct (run_inv (seq 0 (length bs.1)) b3 C1) as (D1 & D2 & D3 & _ & D5).
  set (b4 := foldl (resume i) b3 _) in *.
  split; [exact D1|]. split; [congruence|].
  split; [repeat (eapply extends_trans; [eassumption|]); apply extends_refl|].
  apply Forall_lookup. intros j ts Hts.
  assert (Hj : (j < length bs.1)%nat).
  { apply lookup_lt_Some in Hts. congruence. }
  assert (Hseq : j ∈ seq 0 (length bs.1)) by (apply elem_of_seq; lia).
  specialize (B5 j Hseq). specialize (C5 j Hseq). specialize (D5 j Hseq).
  assert (Hmax : (remainingAt override b1.1 j ≤ 3)%nat).
  { unfold remainingAt. destruct (b1.1 !! j) as [[| | | |]|]; simpl;
      try destruct override; lia. }
  assert (H0 : remainingAt override b4.1 j = 0%nat) by lia.
  unfold remainingAt in H0. rewrite Hts in H0. simpl in H0.
  destruct ts; simpl in *; try destruct override; try discriminate; reflexivity.
Qed.

End OneBatch.

End StepProps.

(** *** Whole batches *)

Section BatchRun.
Variable tz : Z.
Variable symbols : list string.
Variable onProgress : bool.
Variable override : bool.
Variable envs : nat → TaskEnv.
Variable sched : nat → list nat.

Local Abbreviation RunInv := (RunInv tz symbols override envs).
Local Abbreviation taskInv := (taskInv override envs).
Local Abbreviation processBatch := (processBatch tz symbols onProgress override envs sched).
Local Abbreviation processFrom := (processFrom tz symbols onProgress override envs sched).
Local Abbreviation processedUpTo := (processedUpTo symbols override envs).
Local Abbreviation total := (totalBatches symbols).

Lemma RunInv_weaken (bound bound' : nat) (sh : Shared) :
  RunInv bound sh → (bound ≤ bound')%nat → RunInv bound' sh.
Proof.
  intros [H1 H2 H3 H4 H5] Hle. split; try assumption.
  eapply ranked_weaken; eassumption.
Qed.

Lemma RunInv_emit (bound : nat) (ev : Event) (sh : Shared) :
  RunInv bound sh →
  (∀ r, eventRank ev = Some r → r = bound) →
  (∀ p s a b r, ev ≠ Downloaded p s a b r) →
  (∀ p s ld, ev ≠ LastDateQueried p s ld) →
  RunInv bound (emit ev sh).
Proof.
  intros [H1 H2 H3 H4 H5] Hr Hd Hl. split; simpl.
  - apply genuine_snoc_other; assumption.
  - apply lookups_snoc; [assumption|]. intros p s ld E. by destruct (Hl p s ld).
  - apply fresh_snoc_other; [exact H3|]. intros p s a b d. apply Hd.
  - apply ranked_snoc; assumption.
  - exact H5.
Qed.

Lemma RunInv_report (bound : nat) (sh : Shared) :
  RunInv bound sh → RunInv bound (report onProgress sh).
Proof.
  intros Hinv. unfold report. destruct onProgress; [|exact Hinv].
  apply RunInv_emit; [exact Hinv|discriminate..].
Qed.

Lemma emits_events (l : list Event) (sh : Shared) :
  events (foldl (fun acc ev => emit ev acc) sh l) = events sh ++ l.
Proof.
  revert sh. induction l as [|ev l IH]; intros sh; simpl.
  - by rewrite app_nil_r.
  - rewrite IH. simpl. by rewrite <- app_assoc.
Qed.

Lemma emits_inv (bound : nat) (l : list Event) (sh : Shared) :
  RunInv bound sh →
  Forall (fun ev => ∃ pos sym, ev = Dispatched pos sym ∧
                     (2 * (pos / batchSize) + 1)%nat = bound) l →
  RunInv bound (foldl (fun acc ev => emit ev acc) sh l).
Proof.
  revert sh. induction l as [|ev l IH]; intros sh Hinv Hl; simpl; [exact Hinv|].
  inversion Hl as [|? ? (pos & sym & -> & Hb) Hl']; subst.
  apply IH; [|exact Hl'].
  apply RunInv_emit; [exact Hinv| |discriminate..].
  simpl. intros r [= <-]. reflexivity.
Qed.

Lemma markBatch_symbols (i size : nat) (p : list DownloadProgress) :
  map dp_symbol (markBatch override i size p) = map dp_symbol p.
Proof.
  unfold markBatch. generalize (seq 0 size). intros l. revert p.
  induction l as [|j l IH]; intros p; simpl; [reflexivity|].
  rewrite IH. apply (updateProgress_symbols (Some (i + j)%nat)). reflexivity.
Qed.

Lemma omap_dispatched (i : nat) (batch : list string) :
  omap dispatchedOf (imap (fun j sym => Dispatched (i + j) sym) batch)
  = imap (fun j sym => ((i + j)%nat, sym)) batch.
Proof.
  revert i. induction batch as [|sym batch IH]; intros i; [reflexivity|].
  simpl. f_equal.
  rewrite <- (imap_ext (fun j s => Dispatched (S i + j) s)).
  2:{ intros j x _. simpl. f_equal. lia. }
  rewrite IH. apply imap_ext. intros j x _. simpl. f_equal. lia.
Qed.

Lemma filter_split (tasks : list TaskState) :
  (length (filter (fun ts => succeeded ts = true) tasks)
   + length (filter (fun ts => succeeded ts = false) tasks))%nat = length tasks.
Proof.
  induction tasks as [|ts tasks IH]; [reflexivity|].
  rewrite !filter_cons. destruct (succeeded ts) eqn:E.
  - rewrite decide_True by reflexivity. rewrite decide_False by discriminate.
    simpl. lia.
  - rewrite decide_False by discriminate. rewrite decide_True by reflexivity.
    simpl. lia.
Qed.

Lemma batch_lookup (k j : nat) (sym : string) :
  batchAt symbols k !! j = Some sym ↔
  symbols !! (k * batchSize + j)%nat = Some sym ∧ (j < batchSize)%nat.
Proof.
  unfold batchAt. rewrite lookup_take_Some, lookup_drop. reflexivity.
Qed.

Lemma batch_length (k : nat) : (length (batchAt symbols k) ≤ batchSize)%nat.
Proof. unfold batchAt. rewrite length_take. lia. Qed.

Lemma report_events (sh : Shared) :
  ∃ new, events (report onProgress sh) = events sh ++ new ∧
         omap dispatchedOf new = [] ∧
         (∀ ev, ev ∈ new → ∀ n t s f, ev ≠ BatchCompleted n t s f) ∧
         store (report onProgress sh) = store sh ∧
         progressArray (report onProgress sh) = progressArray sh.
Proof.
  unfold report. destruct onProgress.
  - eexists. split; [reflexivity|]. split; [reflexivity|].
    split; [|split; reflexivity].
    intros ev Hev. not_single Hev.
  - exists []. rewrite app_nil_r. split; [reflexivity|]. split; [reflexivity|].
    split; [|split; reflexivity].
    intros ev Hev. by apply elem_of_nil in Hev.
Qed.

Lemma processBatch_inv (k : nat) (sh : Shared) :
  (k < total)%nat →
  RunInv (2 * k) sh →
  let sh' := processBatch (k * batchSize) sh in
  RunInv (2 * (k + 1)) sh' ∧
  ∃ new,
    events sh' = events sh ++ new ∧
    omap dispatchedOf new
    = imap (fun j sym => ((k * batchSize + j)%nat, sym)) (batchAt symbols k) ∧
    (∀ j sym, batchAt symbols k !! j = Some sym →
       ∃ ok, taskInv (k * batchSize + j) sym (Finished ok) (events sh')) ∧
    (∃ successful failed,
       BatchCompleted (k + 1) total successful failed ∈ new ∧
       (successful + failed)%nat = length (batchAt symbols k)).
Proof.
  intros Hk Hinv. cbv zeta. unfold FinancialDataService.processBatch.
  fold (batchAt symbols k). rewrite boundary_index.
  set (i := (k * batchSize)%nat).
  set (batch := batchAt symbols k).
  set (sh1 := withProgress _ sh).
  assert (Hinv1 : RunInv (2 * k + 1) sh1).
  { apply RunInv_weaken with (bound := (2 * k)%nat); [|lia].
    destruct Hinv as [H1 H2 H3 H4 H5]. split; simpl; try assumption.
    rewrite markBatch_symbols. exact H5. }
  destruct (report_events sh1) as (rep1 & Erep1 & Drep1 & Crep1 & _).
  set (sh2 := dispatch (k * batchSize) batch (report onProgress sh1)).
  assert (E2 : events sh2 = events sh ++ rep1
                 ++ imap (fun j sym => Dispatched (i + j) sym) batch).
  { unfold sh2, dispatch. rewrite emits_events, Erep1.
    rewrite <- app_assoc. reflexivity. }
  assert (Hinv2 : RunInv (2 * k + 1) sh2).
  { unfold sh2, dispatch. apply emits_inv; [apply RunInv_report, Hinv1|].
    apply Forall_lookup. intros j ev Hev.
    rewrite list_lookup_imap in Hev.
    destruct (batch !! j) as [sym|] eqn:Hj; [|discriminate].
    injection Hev as <-. exists (i + j)%nat, sym. split; [reflexivity|].
    unfold i. rewrite batch_index; [reflexivity|].
    apply lookup_lt_Some in Hj. pose proof (batch_length k) as Hb. fold batch in Hb. lia. }
  set (bs0 := (replicate (length batch) Start, sh2)).
  assert (Hbs0 : batchInv tz symbols override envs k i bs0).
  { split; [|split].
    - simpl. rewrite length_replicate. apply batch_length.
    - exact Hinv2.
    - intros j ts Hj. simpl in Hj. apply lookup_replicate in Hj as [-> Hj].
      destruct (lookup_lt_is_Some_2 batch j Hj) as [sym Hsym].
      exists sym. split; [|exact I]. apply batch_lookup in Hsym. apply Hsym. }
  pose proof (settle_inv tz symbols override envs k i eq_refl (sched k) bs0 Hbs0)
    as Hsettle.
  cbv zeta in Hsettle. simpl length in Hsettle. rewrite length_replicate in Hsettle.
  set (settled := foldl _ _ _) in *.
  destruct Hsettle as ((_ & Hinv3 & Htasks) & Hlen & (new2 & E3 & D3 & C3) & Hfin).
  simpl in E3.
  destruct (report_events settled.2) as (rep2 & Erep2 & Drep2 & Crep2 & _).
  set (done := BatchCompleted (k + 1) _ _ _).
  split.
  - apply RunInv_emit; [|simpl; intros r [= <-]; lia|discriminate..].
    apply RunInv_report. apply RunInv_weaken with (bound := (2 * k + 1)%nat); [|lia].
    exact Hinv3.
  - exists (rep1 ++ imap (fun j sym => Dispatched (i + j) sym) batch
              ++ new2 ++ rep2 ++ [done]).
    split; [|split; [|split]].
    + simpl. rewrite Erep2, E3, E2. rewrite <- !app_assoc. reflexivity.
    + rewrite !omap_app, Drep1, D3, Drep2, omap_dispatched. simpl.
      rewrite app_nil_r. reflexivity.
    + intros j sym Hj.
      assert (Hjlen : (j < length settled.1)%nat).
      { rewrite Hlen. eapply lookup_lt_Some, Hj. }
      destruct (lookup_lt_is_Some_2 _ _ Hjlen) as [ts Hts].
      destruct (Htasks j ts Hts) as (sym' & Hsym' & Htask).
      apply batch_lookup in Hj as [Hj _]. fold i in Hj.
      assert (sym' = sym) by congruence. subst sym'.
      rewrite Forall_lookup in Hfin. specialize (Hfin j ts Hts).
      destruct ts as [| | | |ok]; try discriminate.
      exists ok. simpl events. rewrite Erep2, <- app_assoc.
      apply taskInv_mono, Htask.
    + eexists _, _. split.
      * rewrite !app_assoc. apply elem_of_app. right.
        apply list_elem_of_singleton. reflexivity.
      * rewrite filter_split. exact Hlen.
Qed.

Lemma total_le_length : (total ≤ length symbols)%nat.
Proof.
  unfold totalBatches. change (batchSize - 1)%nat with 99%nat.
  change batchSize with 100%nat.
  pose proof (Nat.div_mod (length symbols + 99) 100 ltac:(lia)) as Hd.
  pose proof (Nat.mod_upper_bound (length symbols + 99) 100 ltac:(lia)) as Hm.
  set (q := ((length symbols + 99) / 100)%nat) in *.
  set (r := ((length symbols + 99) mod 100)%nat) in *.
  lia.
Qed.

Lemma processedUpTo_step (k : nat) (l new : list Event) :
  (k < total)%nat →
  processedUpTo k l →
  omap dispatchedOf new
  = imap (fun j sym => ((k * batchSize + j)%nat, sym)) (batchAt symbols k) →
  (∀ j sym, batchAt symbols k !! j = Some sym →
     ∃ ok, taskInv (k * batchSize + j) sym (Finished ok) (l ++ new)) →
  (∃ successful failed,
     BatchCompleted (k + 1) total successful failed ∈ new ∧
     (successful + failed)%nat = length (batchAt symbols k)) →
  processedUpTo (k + 1) (l ++ new).
Proof.
  intros Hk (Hd & Ht & Hc) Hnew Htasks (s & f & Hin & Hsum).
  apply (in_range_iff symbols) in Hk.
  split; [|split].
  - rewrite omap_app, Hd, Hnew.
    replace ((k + 1) * batchSize)%nat with (k * batchSize + batchSize)%nat by lia.
    rewrite <- take_take_drop. fold (batchAt symbols k).
    rewrite imap_app. rewrite length_take_le by lia. reflexivity.
  - intros pos sym Hpos Hsym.
    destruct (Nat.lt_ge_cases pos (k * batchSize)) as [Hlt|Hge].
    + destruct (Ht pos sym Hlt Hsym) as [ok Hok]. exists ok.
      apply taskInv_mono, Hok.
    + replace pos with (k * batchSize + (pos - k * batchSize))%nat in * by lia.
      apply Htasks. apply batch_lookup. split; [exact Hsym|lia].
  - intros j Hj. destruct (decide (j = k)) as [->|Hne].
    + exists s, f. split; [apply elem_of_app; auto|exact Hsum].
    + destruct (Hc j ltac:(lia)) as (s' & f' & Hin' & Hsum').
      exists s', f'. split; [apply elem_of_app; auto|exact Hsum'].
Qed.

Lemma processFrom_inv (count k : nat) (sh : Shared) :
  (k + count ≤ total)%nat →
  RunInv (2 * k) sh → processedUpTo k (events sh) →
  RunInv (2 * (k + count)) (processFrom k count sh) ∧
  processedUpTo (k + count) (events (processFrom k count sh)).
Proof.
  revert k sh. induction count as [|count IH]; intros k sh Hk Hinv Hdone.
  - simpl. rewrite Nat.add_0_r. auto.
  - rewrite processFrom_S.
    destruct (processBatch_inv k sh ltac:(lia) Hinv)
      as (Hinv' & new & Hnew & Hd & Htasks & Hc).
    replace (k + S count)%nat with (S k + count)%nat by lia.
    apply IH; [lia| |].
    + replace (S k) with (k + 1)%nat by lia. exact Hinv'.
    + replace (S k) with (k + 1)%nat by lia. rewrite Hnew.
      apply processedUpTo_step; try assumption; [lia|].
      rewrite <- Hnew. exact Htasks.
Qed.

Lemma initial_inv (st : Store) :
  RunInv 0 (initialShared symbols onProgress st) ∧
  processedUpTo 0 (events (initialShared symbols onProgress st)).
Proof.
  unfold initialShared.
  set (sh := {| store := st; progressArray := _; events := [] |}).
  assert (Hinv : RunInv 0 sh).
  { split; simpl.
    - intros n pos sym a b r Hn. by rewrite lookup_nil in Hn.
    - intros pos sym ld Hin. by apply elem_of_nil in Hin.
    - intros s (pos & a & b & d & Hin). by apply elem_of_nil in Hin.
    - split.
      + intros m n ev1 ev2 r1 r2 _ H1. by rewrite lookup_nil in H1.
      + intros ev r Hin. by apply elem_of_nil in Hin.
    - rewrite map_map. simpl. apply map_id. }
  split; [apply RunInv_report, Hinv|].
  destruct (report_events sh) as (new & Hnew & Hd & Hc & _).
  rewrite Hnew. simpl. split; [|split].
  - rewrite Hd. reflexivity.
  - intros pos sym Hpos. lia.
  - intros j Hj. lia.
Qed.

End BatchRun.

(** *** A whole call *)

Section Run.
Variable tz : Z.
Variable symbols : list string.
Variable onProgress : bool.
Variable override : bool.
Variable cancelToken : option (nat → CancelToken).
Variable envs : nat → TaskEnv.
Variable sched : nat → list nat.

Local Abbreviation RunInv := (RunInv tz symbols override envs).
Local Abbreviation processedUpTo := (processedUpTo symbols override envs).
Local Abbreviation total := (totalBatches symbols).
Local Abbreviation ran := (batchesRun cancelToken symbols).
Local Abbreviation run :=
  (downloadBatchPriceData tz symbols onProgress override cancelToken envs sched).
Local Abbreviation core :=
  (afterBatches tz symbols onProgress override cancelToken envs sched).

Lemma firstCancelled_None :
  firstCancelled cancelToken symbols = None →
  ∀ k, (k < total)%nat → goesOn cancelToken k.
Proof.
  unfold firstCancelled. intros Hnone k Hk.
  destruct (list_find _ _) as [[c x]|] eqn:E; [discriminate|].
  apply list_find_None in E. rewrite Forall_forall in E.
  unfold goesOn. apply not_true_is_false. apply E.
  apply elem_of_seq. lia.
Qed.

Lemma firstCancelled_Some (c : nat) :
  firstCancelled cancelToken symbols = Some c →
  (c < total)%nat ∧ cancelledAt cancelToken c = true ∧
  ∀ j, (j < c)%nat → goesOn cancelToken j.
Proof.
  unfold firstCancelled. intros Hsome.
  destruct (list_find _ _) as [[c' x]|] eqn:E; [|discriminate].
  injection Hsome as ->.
  apply list_find_Some in E as (Hx & Hc & Hfirst).
  apply lookup_seq in Hx as [-> Hlt]. simpl in *.
  split; [exact Hlt|]. split; [exact Hc|].
  intros j Hj. unfold goesOn. apply not_true_is_false.
  apply (Hfirst j j); [|exact Hj]. apply lookup_seq. split; lia.
Qed.

Lemma batchesRun_le : (ran ≤ total)%nat.
Proof.
  unfold batchesRun. destruct (firstCancelled cancelToken symbols) as [c|] eqn:E.
  - apply firstCancelled_Some in E. simpl. lia.
  - simpl. lia.
Qed.

(** The call always returns: it processes the batches before the first
    cancelled boundary, all of them if there is none, and then makes the
    cancellation report. *)
Lemma run_closed_form (st : Store) :
  run st
  = Some (finalReport symbols onProgress cancelToken
            (core (initialShared symbols onProgress st))).
Proof.
  unfold downloadBatchPriceData, finalReport, afterBatches, batchesRun.
  fold (initialShared symbols onProgress st).
  pose proof (total_le_length symbols) as Hle.
  destruct (firstCancelled cancelToken symbols) as [c|] eqn:E; simpl.
  - destruct (firstCancelled_Some c E) as (Hc & Hcan & Hgo).
    assert (∃ token, cancelToken = Some token) as [token Htok].
    { unfold cancelledAt in Hcan. destruct cancelToken; [eauto|discriminate]. }
    assert (Hat : ∀ j, cancelledAt cancelToken j = cancelled (token j))
      by (intros j; unfold cancelledAt; rewrite Htok; reflexivity).
    pose proof (batchLoop_cancelled tz symbols onProgress override cancelToken
                  envs sched (S (length symbols)) 0 c token
                  (initialShared symbols onProgress st) Htok) as Hloop.
    simpl in Hloop. rewrite Nat.sub_0_r in Hloop.
    rewrite Hloop.
    + unfold tokenAt. rewrite Htok. reflexivity.
    + lia.
    + lia.
    + intros j Hj. rewrite <- Hat. apply Hgo. lia.
    + rewrite <- Hat. exact Hcan.
  - pose proof (batchLoop_goesOn tz symbols onProgress override cancelToken
                  envs sched (S (length symbols)) 0
                  (initialShared symbols onProgress st)) as Hloop.
    simpl in Hloop. rewrite Nat.sub_0_r in Hloop.
    apply Hloop; [lia|].
    intros j Hj. apply firstCancelled_None; [exact E|lia].
Qed.

Lemma core_inv (st : Store) :
  RunInv (2 * ran) (core (initialShared symbols onProgress st)) ∧
  processedUpTo ran (events (core (initialShared symbols onProgress st))).
Proof.
  destruct (initial_inv tz symbols onProgress override envs st) as [Hinv Hdone].
  apply (processFrom_inv tz symbols onProgress override envs sched ran 0);
    [pose proof batchesRun_le; lia|exact Hinv|exact Hdone].
Qed.

End Run.

(** *** The partition into batches *)

Section Partition.
Variable symbols : list string.
Local Abbreviation total := (totalBatches symbols).

Lemma total_ceiling (m : nat) :
  (length symbols ≤ m * batchSize)%nat ↔ (total ≤ m)%nat.
Proof. pose proof (in_range_iff symbols m). lia. Qed.

Lemma batch_full (k : nat) :
  (k + 1 < total)%nat → length (batchAt symbols k) = batchSize.
Proof.
  intros Hk. apply (in_range_iff symbols) in Hk.
  unfold batchAt. rewrite length_take, length_drop. unfold batchSize in *. lia.
Qed.

Lemma batch_of_index (i : nat) (sym : string) :
  symbols !! i = Some sym ↔
  batchAt symbols (i / batchSize) !! (i mod batchSize) = Some sym.
Proof.
  rewrite batch_lookup.
  pose proof (Nat.div_mod i batchSize ltac:(unfold batchSize; lia)) as Hd.
  pose proof (Nat.mod_upper_bound i batchSize ltac:(unfold batchSize; lia)) as Hm.
  replace (i / batchSize * batchSize + i mod batchSize)%nat with i by lia.
  tauto.
Qed.

Lemma batches_concat_take (k : nat) :
  concat (batchAt symbols <$> seq 0 k) = take (k * batchSize) symbols.
Proof.
  induction k as [|k IH]; [reflexivity|].
  rewrite seq_S, fmap_app, concat_app, IH. simpl. rewrite app_nil_r.
  unfold batchAt. rewrite take_take_drop. f_equal. unfold batchSize. lia.
Qed.

Lemma batches_concat : concat (batchAt symbols <$> seq 0 total) = symbols.
Proof.
  rewrite batches_concat_take. apply take_ge. apply total_ceiling. lia.
Qed.

End Partition.

(** *** What a call leaves behind *)

Section Final.
Variable tz : Z.
Variable symbols : list string.
Variable onProgress : bool.
Variable override : bool.
Variable cancelToken : option (nat → CancelToken).
Variable envs : nat → TaskEnv.
Variable sched : nat → list nat.

Local Abbreviation RunInv := (RunInv tz symbols override envs).
Local Abbreviation processedUpTo := (processedUpTo symbols override envs).
Local Abbreviation total := (totalBatches symbols).
Local Abbreviation ran := (batchesRun cancelToken symbols).
Local Abbreviation run :=
  (downloadBatchPriceData tz symbols onProgress override cancelToken envs sched).
Local Abbreviation core :=
  (afterBatches tz symbols onProgress override cancelToken envs sched).

Lemma processedUpTo_progress (k : nat) (l : list Event)
  (snapshot : list DownloadProgress) :
  processedUpTo k l → processedUpTo k (l ++ [Progress snapshot]).
Proof.
  intros (Hd & Ht & Hc). split; [|split].
  - rewrite omap_app, Hd. simpl. by rewrite app_nil_r.
  - intros pos sym Hpos Hsym. destruct (Ht pos sym Hpos Hsym) as [ok Hok].
    exists ok. apply taskInv_mono, Hok.
  - intros j Hj. destruct (Hc j Hj) as (s & f & Hin & Hsum).
    exists s, f. split; [apply elem_of_app; auto|exact Hsum].
Qed.

Lemma cancelReport_inv (bound k : nat) (t : CancelToken) (sh : Shared) :
  RunInv bound sh → processedUpTo k (events sh) →
  RunInv bound (cancelReport onProgress t sh) ∧
  processedUpTo k (events (cancelReport onProgress t sh)).
Proof.
  intros Hinv Hdone. unfold cancelReport. destruct onProgress; [|auto].
  split.
  - apply (RunInv_emit tz symbols override envs); [exact Hinv|discriminate..].
  - simpl. apply processedUpTo_progress, Hdone.
Qed.

(** What every call guarantees when it returns. *)
Lemma run_inv_final (st : Store) :
  ∃ sh, run st = Some sh ∧ RunInv (2 * ran) sh ∧ processedUpTo ran (events sh).
Proof.
  eexists. split; [apply run_closed_form|].
  destruct (core_inv tz symbols onProgress override cancelToken envs sched st)
    as [Hinv Hdone].
  unfold finalReport.
  destruct (firstCancelled cancelToken symbols); [|auto].
  destruct (tokenAt cancelToken n); [|auto].
  apply cancelReport_inv; assumption.
Qed.

Lemma rank_before (l : list Event) (ev1 ev2 : Event) (r1 r2 : nat) :
  inBatchOrder l → ev1 ∈ l → ev2 ∈ l →
  eventRank ev1 = Some r1 → eventRank ev2 = Some r2 → (r1 < r2)%nat →
  before ev1 ev2 l.
Proof.
  intros Hord H1 H2 Hr1 Hr2 Hlt.
  apply list_elem_of_lookup in H1 as [m Hm].
  apply list_elem_of_lookup in H2 as [n Hn].
  exists m, n. split; [|auto].
  destruct (Nat.lt_ge_cases m n) as [?|Hge]; [assumption|].
  specialize (Hord n m ev2 ev1 r2 r1 Hge Hn Hm Hr2 Hr1). lia.
Qed.

Lemma dispatched_elem (l : list Event) (syms : list string) (pos : nat)
  (sym : string) :
  omap dispatchedOf l = imap pair syms →
  syms !! pos = Some sym → Dispatched pos sym ∈ l.
Proof.
  intros Hd Hsym.
  assert (Hin : (pos, sym) ∈ omap dispatchedOf l).
  { rewrite Hd. apply (elem_of_lookup_imap_2 pair), Hsym. }
  apply list_elem_of_omap in Hin as (ev & Hev & Hdis).
  destruct ev; try discriminate. injection Hdis as -> ->. exact Hev.
Qed.

End Final.

(** C4: the symbols are cut into consecutive batches of 100: there are
    ceiling(n/100) of them, each of at most 100 symbols and all but the
    last of exactly 100, the symbol at index i is in batch floor(i/100),
    and the batches put end to end are the list.  In a call that is not
    cancelled, whatever fails and in whatever order the tasks of a batch
    are resumed, every symbol is dispatched exactly once, in list order;
    the events of a batch, its completion and the events of the next batch
    never interleave; the download of every symbol is attempted and comes
    before the completion of its batch, which counts every task of the
    batch as settled; and no symbol of a later batch is dispatched before
    that completion. *)
Theorem C4_sequential_batches_of_100 (tz : Z) (symbols : list string)
  (onProgress override : bool) (cancelToken : option (nat → CancelToken))
  (envs : nat → TaskEnv) (sched : nat → list nat) (st : Store) :
  (∀ m, (length symbols ≤ m * 100)%nat ↔ (totalBatches symbols ≤ m)%nat) ∧
  (∀ k, (length (batchAt symbols k) ≤ 100)%nat) ∧
  (∀ k, (k + 1 < totalBatches symbols)%nat → length (batchAt symbols k) = 100%nat) ∧
  (∀ i sym, symbols !! i = Some sym ↔
            batchAt symbols (i / 100) !! (i mod 100) = Some sym) ∧
  concat (batchAt symbols <$> seq 0 (totalBatches symbols)) = symbols ∧
  ((∀ k, (k < totalBatches symbols)%nat → goesOn cancelToken k) →
   ∃ sh,
     downloadBatchPriceData tz symbols onProgress override cancelToken envs sched st
     = Some sh ∧
     omap dispatchedOf (events sh) = imap pair symbols ∧
     inBatchOrder (events sh) ∧
     (∀ pos sym, symbols !! pos = Some sym →
        ∃ a b r successful failed,
          Dispatched pos sym ∈ events sh ∧
          before (Downloaded pos sym a b r)
                 (BatchCompleted (pos / 100 + 1) (totalBatches symbols)
                                 successful failed) (events sh) ∧
          (successful + failed)%nat = length (batchAt symbols (pos / 100))) ∧
     (∀ pos sym k successful failed,
        Dispatched pos sym ∈ events sh →
        BatchCompleted (k + 1) (totalBatches symbols) successful failed ∈ events sh →
        (k < pos / 100)%nat →
        before (BatchCompleted (k + 1) (totalBatches symbols) successful failed)
               (Dispatched pos sym) (events sh))).
Proof.
  split; [apply total_ceiling|].
  split; [apply batch_length|].
  split; [apply batch_full|].
  split; [apply batch_of_index|].
  split; [apply batches_concat|].
  intros Hgo.
  destruct (run_inv_final tz symbols onProgress override cancelToken envs sched st)
    as (sh & Hrun & Hinv & Hd & Ht & Hc).
  assert (Hran : batchesRun cancelToken symbols = totalBatches symbols).
  { unfold batchesRun.
    destruct (firstCancelled cancelToken symbols) as [c|] eqn:E; [|reflexivity].
    destruct (firstCancelled_Some symbols cancelToken c E) as (Hlt & Hcan & _).
    specialize (Hgo c Hlt). unfold goesOn in Hgo. congruence. }
  rewrite Hran in *.
  assert (Hall : take (totalBatches symbols * batchSize) symbols = symbols).
  { apply take_ge. apply total_ceiling. lia. }
  rewrite Hall in Hd.
  destruct Hinv as [Hgen _ _ [Hord Hbound] _].
  exists sh. split; [exact Hrun|]. split; [exact Hd|]. split; [exact Hord|].
  split.
  - intros pos sym Hsym.
    assert (Hpos : (pos < totalBatches symbols * batchSize)%nat).
    { apply lookup_lt_Some in Hsym.
      pose proof (proj2 (total_ceiling symbols (totalBatches symbols)) ltac:(lia)).
      lia. }
    destruct (Ht pos sym Hpos Hsym) as (ok & (a & b & r & Hdl) & _).
    assert (Hk : (pos / batchSize < totalBatches symbols)%nat).
    { apply Nat.Div0.div_lt_upper_bound. lia. }
    destruct (Hc (pos / batchSize)%nat Hk) as (s & f & Hbc & Hsum).
    exists a, b, r, s, f. split; [eapply dispatched_elem; eassumption|].
    split; [|exact Hsum].
    apply (rank_before (events sh) _ _ (2 * (pos / batchSize) + 1)
             (2 * (pos / batchSize + 1 - 1) + 2));
      [assumption..|reflexivity|reflexivity|lia].
  - intros pos sym k s f Hdis Hbc Hk.
    apply (rank_before (events sh) _ _ (2 * (k + 1 - 1) + 2)
             (2 * (pos / batchSize) + 1));
      [assumption..|reflexivity|reflexivity|].
    change batchSize with 100%nat. lia.
Qed.

Lemma C4_sequential_batches_of_100_witness :
  (∀ k, (k < totalBatches sampleSymbols)%nat → goesOn None k) ∧
  ∃ sh,
    downloadBatchPriceData 0 sampleSymbols true false None sampleEnvs sampleSched
                           initialStore = Some sh ∧
    omap dispatchedOf (events sh) = imap pair sampleSymbols ∧
    inBatchOrder (events sh).
Proof.
  assert (H1 : ∀ k, (k < totalBatches sampleSymbols)%nat → goesOn None k)
    by (intros k _; reflexivity).
  split; [exact H1|].
  destruct (C4_sequential_batches_of_100 0 sampleSymbols true false None
              sampleEnvs sampleSched initialStore)
    as (_ & _ & _ & _ & _ & Hrun).
  destruct (Hrun H1) as (sh & Hsome & Hdispatched & Hordered & _).
  exists sh. auto.
Defined.

Lemma batch_below (ev : Event) (b c : nat) :
  eventBatch ev = Some b →
  (∀ r, eventRank ev = Some r → (r ≤ 2 * c)%nat) →
  (b < c)%nat.
Proof.
  intros Hb Hr. destruct ev; simpl in *; try discriminate;
    injection Hb as <-; specialize (Hr _ eq_refl); lia.
Qed.

Lemma cancelled_snapshot (t : CancelToken) (p : list DownloadProgress) :
  dp_symbol <$> (markCancelled t <$> p) = dp_symbol <$> p ∧
  Forall (fun x => dp_status x = "error" ∧
                   message x = "Cancelled: " +:+ reasonText t)
         (markCancelled t <$> p).
Proof.
  split.
  - rewrite <- list_fmap_compose. reflexivity.
  - apply Forall_fmap. apply Forall_forall. intros x _. split; reflexivity.
Qed.

(** C3: cancellation is cooperative.  If the token is first seen cancelled
    at the boundary before batch [c] (the very first one included), the
    call returns there: the batches before [c] have run in full, whatever
    the token held while they were in flight; no symbol of batch [c] or of
    a later batch is dispatched, downloaded or saved; and the only thing
    added is, when a progress callback was passed, one more report in
    which every entry has status 'error' and the message 'Cancelled: '
    followed by the reason.  The token is read at the boundaries only: a
    token that agrees at the boundaries up to [c] gives the same call. *)
Theorem C3_cooperative_cancellation (tz : Z) (symbols : list string)
  (onProgress override : bool) (token : nat → CancelToken)
  (envs : nat → TaskEnv) (sched : nat → list nat) (st : Store) (c : nat) :
  (c < totalBatches symbols)%nat →
  (∀ j, (j < c)%nat → cancelled (token j) = false) →
  cancelled (token c) = true →
  ∃ pre,
    downloadBatchPriceData tz symbols onProgress override (Some token) envs sched st
    = Some (cancelReport onProgress (token c) pre) ∧
    omap dispatchedOf (events pre) = imap pair (take (c * 100) symbols) ∧
    (∀ j, (j < c)%nat →
       ∃ successful failed,
         BatchCompleted (j + 1) (totalBatches symbols) successful failed
         ∈ events pre ∧
         (successful + failed)%nat = length (batchAt symbols j)) ∧
    (∀ pos sym, (pos < c * 100)%nat → symbols !! pos = Some sym →
       ∃ a b r, Downloaded pos sym a b r ∈ events pre) ∧
    (∀ ev b, ev ∈ events (cancelReport onProgress (token c) pre) →
             eventBatch ev = Some b → (b < c)%nat) ∧
    store (cancelReport onProgress (token c) pre) = store pre ∧
    events (cancelReport onProgress (token c) pre)
    = events pre ++
      (if onProgress
       then [Progress (markCancelled (token c) <$> progressArray pre)]
       else []) ∧
    dp_symbol <$> (markCancelled (token c) <$> progressArray pre) = symbols ∧
    Forall (fun p => dp_status p = "error" ∧
                     message p = "Cancelled: " +:+ reasonText (token c))
           (markCancelled (token c) <$> progressArray pre) ∧
    (∀ token' : nat → CancelToken,
       (∀ j, (j < c)%nat → cancelled (token' j) = false) →
       token' c = token c →
       downloadBatchPriceData tz symbols onProgress override (Some token')
                              envs sched st
       = Some (cancelReport onProgress (token c) pre)).
Proof.
  intros Hc Hgo Hcan.
  set (sh0 := initialShared symbols onProgress st).
  set (pre := processFrom tz symbols onProgress override envs sched 0 c sh0).
  assert (Hloop : ∀ token' : nat → CancelToken,
            (∀ j, (j < c)%nat → cancelled (token' j) = false) →
            cancelled (token' c) = true →
            downloadBatchPriceData tz symbols onProgress override (Some token')
                                   envs sched st
            = Some (cancelReport onProgress (token' c) pre)).
  { intros token' Hgo' Hcan'.
    pose proof (batchLoop_cancelled tz symbols onProgress override (Some token')
                  envs sched (S (length symbols)) 0 c token' sh0 eq_refl) as Hl.
    simpl in Hl. rewrite Nat.sub_0_r in Hl.
    pose proof (total_le_length symbols).
    apply Hl; [lia|lia| |exact Hcan'].
    intros j Hj. apply Hgo'. lia. }
  destruct (initial_inv tz symbols onProgress override envs st) as [Hinv0 Hdone0].
  destruct (processFrom_inv tz symbols onProgress override envs sched c 0 sh0
              ltac:(lia) Hinv0 Hdone0) as [Hinv Hdone].
  simpl in Hinv, Hdone. fold pre in Hinv, Hdone.
  destruct Hdone as (Hd & Ht & Hbc).
  destruct Hinv as [_ _ _ [_ Hbound] Hsym].
  exists pre.
  split; [apply Hloop; assumption|].
  split; [exact Hd|]. split; [exact Hbc|].
  split.
  { intros pos sym Hpos Hs. destruct (Ht pos sym Hpos Hs) as (ok & Hdl & _).
    exact Hdl. }
  assert (Hev : events (cancelReport onProgress (token c) pre)
                = events pre ++
                  (if onProgress
                   then [Progress (markCancelled (token c) <$> progressArray pre)]
                   else [])).
  { unfold cancelReport. destruct onProgress; [reflexivity|].
    by rewrite app_nil_r. }
  split.
  { intros ev b Hin Hb. rewrite Hev in Hin.
    apply elem_of_app in Hin as [Hin|Hin].
    - apply (batch_below ev b c Hb). intros r Hr. exact (Hbound ev r Hin Hr).
    - destruct onProgress.
      + not_single Hin.
      + by apply elem_of_nil in Hin. }
  split; [unfold cancelReport; destruct onProgress; reflexivity|].
  split; [exact Hev|].
  destruct (cancelled_snapshot (token c) (progressArray pre)) as [Hs1 Hs2].
  split; [rewrite Hs1; exact Hsym|].
  split; [exact Hs2|].
  intros token' Hgo' Heq. rewrite <- Heq. apply Hloop; [exact Hgo'|].
  rewrite Heq. exact Hcan.
Qed.

Lemma C3_cooperative_cancellation_witness :
  (1 < totalBatches sampleSymbols)%nat ∧
  (∀ j, (j < 1)%nat → cancelled (cancelledInFlight j) = false) ∧
  cancelled (cancelledInFlight 1) = true ∧
  ∃ pre,
    downloadBatchPriceData 0 sampleSymbols true false (Some cancelledInFlight)
                           sampleEnvs sampleSched initialStore
    = Some (cancelReport true (cancelledInFlight 1) pre) ∧
    omap dispatchedOf (events pre) = imap pair (take 100 sampleSymbols).
Proof.
  assert (H1 : (1 < totalBatches sampleSymbols)%nat) by (vm_compute; lia).
  assert (H2 : ∀ j, (j < 1)%nat → cancelled (cancelledInFlight j) = false).
  { intros j Hj. assert (j = 0%nat) as -> by lia. reflexivity. }
  assert (H3 : cancelled (cancelledInFlight 1) = true) by reflexivity.
  split; [exact H1|]. split; [exact H2|]. split; [exact H3|].
  destruct (C3_cooperative_cancellation 0 sampleSymbols true false
              cancelledInFlight sampleEnvs sampleSched initialStore 1 H1 H2 H3)
    as (pre & Hrun & Hdispatched & _).
  exists pre. split; [exact Hrun|exact Hdispatched].
Defined.

Lemma ran_all (symbols : list string) (cancelToken : option (nat → CancelToken)) :
  (∀ k, (k < totalBatches symbols)%nat → goesOn cancelToken k) →
  batchesRun cancelToken symbols = totalBatches symbols.
Proof.
  intros Hgo. unfold batchesRun.
  destruct (firstCancelled cancelToken symbols) as [c|] eqn:E; [|reflexivity].
  destruct (firstCancelled_Some symbols cancelToken c E) as (Hlt & Hcan & _).
  specialize (Hgo c Hlt). unfold goesOn in Hgo. congruence.
Qed.

Lemma position_processed (symbols : list string) (pos : nat) (sym : string) :
  symbols !! pos = Some sym → (pos < totalBatches symbols * batchSize)%nat.
Proof.
  intros Hsym. apply lookup_lt_Some in Hsym.
  pose proof (proj2 (total_ceiling symbols (totalBatches symbols)) ltac:(lia)).
  lia.
Qed.

Lemma incrementalStart_next (tz : Z) (d : IsoDate) :
  incrementalStart tz d = (d + 1)%Z.
Proof.
  unfold incrementalStart, toISODate.
  rewrite nextDay_shift, Day_shift, Day_parseIsoDate. reflexivity.
Qed.

(** Without override the branch is taken per symbol.  Every download of
    the call is preceded by the [getLastAvailableDate] query of the same
    task.  In a zone whose offset from UTC never changes its range is the
    one the comments announce: for a date [d] the download starts on the
    day after [d] and ends today, and every record it returns is dated in
    that range; for [null] it is the full default download.  Every task
    that is started makes the query and then a download. *)
Lemma incremental_or_full_constant_offset (tz : Z) (symbols : list string)
  (onProgress : bool) (cancelToken : option (nat → CancelToken))
  (envs : nat → TaskEnv) (sched : nat → list nat) (st : Store) :
  ∃ sh,
    downloadBatchPriceData tz symbols onProgress false cancelToken envs sched st
    = Some sh ∧
    (∀ pos sym a b r,
       Downloaded pos sym a b r ∈ events sh →
       ∃ lastDate,
         before (LastDateQueried pos sym lastDate) (Downloaded pos sym a b r)
                (events sh) ∧
         lastDate = getLastAvailableDate (lastRandom (envs pos)) (lastNow (envs pos)) ∧
         match lastDate with
         | Some d =>
             a = Some (d + 1)%Z ∧ b = Some (toISODate (incNow (envs pos))) ∧
             ∀ data, r = Some data →
               Forall (fun x => (d + 1 <= date x <= toISODate (incNow (envs pos)))%Z)
                      data
         | None => a = None ∧ b = None
         end) ∧
    (∀ pos sym,
       (pos < batchesRun cancelToken symbols * 100)%nat →
       symbols !! pos = Some sym →
       ∃ lastDate a b r,
         before (LastDateQueried pos sym lastDate) (Downloaded pos sym a b r)
                (events sh)) ∧
    (∀ pos sym e d sh0,
       taskStep tz symbols false pos sym e (LookedUp (Some d)) sh0
       = afterDownload symbols pos sym
           (Some (d + 1)%Z) (Some (toISODate (incNow e)))
           (downloadPriceData tz (dl e) sym
              (Some (d + 1)%Z) (Some (toISODate (incNow e))) (store sh0)) sh0) ∧
    (∀ pos sym e sh0,
       taskStep tz symbols false pos sym e (LookedUp None) sh0
       = afterDownload symbols pos sym None None
           (downloadPriceData tz (dl e) sym None None (store sh0)) sh0).
Proof.
  destruct (run_inv_final tz symbols onProgress false cancelToken envs sched st)
    as (sh & Hrun & Hinv & Hd & Ht & Hc).
  destruct Hinv as [Hgen Hlook _ _ _].
  assert (Hbranch : ∀ pos sym a b r,
            Downloaded pos sym a b r ∈ events sh →
            ∃ lastDate,
              before (LastDateQueried pos sym lastDate) (Downloaded pos sym a b r)
                     (events sh) ∧
              lastDate = getLastAvailableDate (lastRandom (envs pos))
                                              (lastNow (envs pos)) ∧
              (a, b) = lookupArgs tz envs pos lastDate ∧
              r = downloadOutcome tz envs pos a b).
  { intros pos sym a b r Hin. apply list_elem_of_lookup in Hin as [n Hn].
    destruct (Hgen n pos sym a b r Hn) as (Hsym & Hr & m & ld & Hm & Hq & Hab).
    exists ld. split; [exists m, n; auto|].
    split; [|auto].
    apply (Hlook pos sym ld). eapply list_elem_of_lookup_2, Hq. }
  exists sh. split; [exact Hrun|].
  split.
  { intros pos sym a b r Hin.
    destruct (Hbranch pos sym a b r Hin) as (ld & Hbefore & Hld & Hab & Hr).
    exists ld. split; [exact Hbefore|]. split; [exact Hld|].
    destruct ld as [d|]; simpl in Hab; injection Hab as -> ->.
    - rewrite incrementalStart_next. split; [reflexivity|]. split; [reflexivity|].
      intros data Hdata. rewrite Hr in Hdata. unfold downloadOutcome in Hdata.
      destruct (importResolves (dl (envs pos))); [|discriminate].
      injection Hdata as <-.
      pose proof (generatePriceData_range tz (dl (envs pos))
                    (Some (incrementalStart tz d))
                    (Some (incrementalEnd (envs pos)))) as Hrange.
      simpl in Hrange. rewrite !Day_parseIsoDate in Hrange.
      rewrite incrementalStart_next in Hrange |- *. exact Hrange.
    - auto. }
  split.
  { intros pos sym Hpos Hsym.
    destruct (Ht pos sym Hpos Hsym) as (ok & (a & b & r & Hdl) & _).
    destruct (Hbranch pos sym a b r Hdl) as (ld & Hbefore & _).
    exists ld, a, b, r. exact Hbefore. }
  split.
  - intros pos sym e d sh0. simpl. unfold downloadIncrementalPriceData.
    rewrite incrementalStart_next. reflexivity.
  - reflexivity.
Qed.

(** C5 (the start date): where the clock is put forward, the incremental
    download does not start on the day after the last available date.
    [downloadIncrementalPriceData] adds the day with [setDate], in local
    time, and reads the result back with [toISOString()], in UTC.  In
    Berlin, for the last available date 2024-03-31, the day the clock goes
    from 02:00 to 03:00: [new Date("2024-03-31")] is 01:00 local time, one
    local day later is 01:00 on 1 April, daylight-saving time, which is
    23:00 UTC on 31 March.  The download therefore starts on 2024-03-31
    itself, and on Monday 1 April it returns a record dated 2024-03-31, the
    last available date and a Sunday; in a zone that stays at UTC+1 the
    start date is 2024-04-01. *)
Theorem C5_start_date_on_spring_forward :
  getLastAvailableDate (lastRandom mondayTask) (lastNow mondayTask)
  = Some 19813%Z ∧
  isoDateString 19813%Z = "2024-03-31" ∧
  toISODate (nextDay berlinSpring2024 (parseIsoDate 19813%Z)) = 19813%Z ∧
  incrementalStart berlinSpring2024 19813%Z = 19813%Z ∧
  incrementalStart 60 19813%Z = 19814%Z ∧
  ∃ r,
    (downloadIncrementalPriceData berlinSpring2024 mondayTask "AAPL" 19813%Z
       connectedStore).1 = Some [r] ∧
    isoDateString (date r) = "2024-03-31" ∧
    WeekDayOfDay (date r) = 0%Z ∧
    ∃ sh,
      downloadBatchPriceData berlinSpring2024 ["AAPL"] true false None
        (fun _ => mondayTask) (fun _ => []) connectedStore = Some sh ∧
      LastDateQueried 0 "AAPL" (Some 19813%Z) ∈ events sh ∧
      Downloaded 0 "AAPL" (Some 19813%Z) (Some 19814%Z) (Some [r]) ∈ events sh ∧
      storedPrice (store sh) "AAPL" = Some [r].
Proof.
  split; [vm_compute; reflexivity|].
  split; [vm_compute; reflexivity|].
  split; [vm_compute; reflexivity|].
  split; [vm_compute; reflexivity|].
  split; [vm_compute; reflexivity|].
  eexists. split; [vm_compute; reflexivity|].
  split; [vm_compute; reflexivity|].
  split; [vm_compute; reflexivity|].
  eexists. split; [vm_compute; reflexivity|].
  split; [|split].
  - apply (list_elem_of_lookup_2 _ 3). vm_compute. reflexivity.
  - apply (list_elem_of_lookup_2 _ 4). vm_compute. reflexivity.
  - vm_compute. reflexivity.
Qed.

End FinancialDataServiceProps.
(** ** The store: queries, connection and the algebra of the writes *)

Module DatabaseServiceLaws.
Import JSDate DatabaseService DatabaseServiceProps.

Lemma ensureConnected_isConnected (st : Store) :
  isConnected (ensureConnected st)
  = match db st with Some _ => isConnected st | None => true end.
Proof.
  unfold ensureConnected, connectToDatabase.
  destruct st as [[c|] []]; reflexivity.
Qed.

Lemma store_eq (st st' : Store) :
  db st = db st' → isConnected st = isConnected st' → st = st'.
Proof. destruct st, st'. simpl. intros -> ->. reflexivity. Qed.

Lemma storedFundamental_saveF (sym sym' : string) (f : FundamentalData)
  (stamp : string) (st : Store) :
  storedFundamental (saveFundamentalDataToMongoDB sym f stamp st) sym' =
  if decide (sym = sym') then Some f else storedFundamental st sym'.
Proof.
  unfold saveFundamentalDataToMongoDB, storedFundamental at 1.
  rewrite ensureConnected_db. simpl.
  rewrite lookup_insert. case_decide; [reflexivity|].
  unfold storedFundamental. destruct (db st); reflexivity.
Qed.

Lemma storedPrice_saveF (sym sym' : string) (f : FundamentalData)
  (stamp : string) (st : Store) :
  storedPrice (saveFundamentalDataToMongoDB sym f stamp st) sym'
  = storedPrice st sym'.
Proof.
  unfold saveFundamentalDataToMongoDB, storedPrice at 1.
  rewrite ensureConnected_db. simpl.
  unfold storedPrice. destruct (db st); reflexivity.
Qed.

Lemma storedSymbol_saveF_ne (sym sym' : string) (f : FundamentalData)
  (stamp : string) (st : Store) :
  sym ≠ sym' →
  storedSymbol (saveFundamentalDataToMongoDB sym f stamp st) sym'
  = storedSymbol st sym'.
Proof.
  intros Hne. unfold saveFundamentalDataToMongoDB, storedSymbol at 1.
  rewrite ensureConnected_db. simpl.
  rewrite lookup_insert_ne by assumption.
  unfold storedSymbol. destruct (db st); reflexivity.
Qed.

Lemma getFundamental_stored (sym : string) (st : Store) :
  (getFundamentalDataFromMongoDB sym st).1 = storedFundamental st sym.
Proof.
  unfold getFundamentalDataFromMongoDB, storedFundamental.
  rewrite ensureConnected_db. simpl.
  destruct (db st); reflexivity.
Qed.

(** Fundamentals are keyed by symbol as prices are, for a save that runs
    from its call to its end with nothing in between. *)
Lemma saveFundamental_keyed_by_symbol (sym : string) (f : FundamentalData)
  (stamp : string) (st : Store) :
  let st' := saveFundamentalDataToMongoDB sym f stamp st in
  (getFundamentalDataFromMongoDB sym st').1 = Some f ∧
  (∃ r, storedSymbol st' sym = Some r ∧
        symbol r = Some sym ∧
        fundamentalDataAvailable r = Some true ∧
        fundamentalDataCount r = Some 1%nat ∧
        lastUpdated r = Some stamp) ∧
  (∀ sym', (getPriceDataFromMongoDB sym' st').1
           = (getPriceDataFromMongoDB sym' st).1) ∧
  (∀ sym', sym' ≠ sym →
     (getFundamentalDataFromMongoDB sym' st').1
     = (getFundamentalDataFromMongoDB sym' st).1 ∧
     storedSymbol st' sym' = storedSymbol st sym').
Proof.
  intros st'. subst st'. split; [|split; [|split]].
  - rewrite getFundamental_stored, storedFundamental_saveF.
    case_decide; [reflexivity|congruence].
  - unfold saveFundamentalDataToMongoDB, storedSymbol.
    rewrite ensureConnected_db. simpl. rewrite lookup_insert_eq.
    eexists. split; [reflexivity|]. simpl. repeat split.
  - intros sym'. rewrite !getPrice_stored, storedPrice_saveF. reflexivity.
  - intros sym' Hne. split.
    + rewrite !getFundamental_stored, storedFundamental_saveF.
      case_decide; [congruence|reflexivity].
    + apply storedSymbol_saveF_ne. congruence.
Qed.

(** X1: fundamentals are keyed by symbol as prices are.  Take any state of
    the module, with whatever calls in flight, and a call of
    [saveFundamentalDataToMongoDB(s, f)] that no older call hinders: it
    finds the connection, or no call is waiting for the connection when it
    is made.  When it has resolved a read for [s] returns [f], the metadata
    of [s] says that fundamentals are available, with count 1 and the time
    of the save; no price series has changed, and the fundamentals and
    metadata of every other symbol are as before. *)
Theorem X1_fundamentals_round_trip (sym : string) (f : FundamentalData)
  (stamp : string) (s : Session) :
  unhindered s →
  let st := current s in
  let st' := current (resolved (SaveFundamental sym f stamp) s) in
  suspended (resolved (SaveFundamental sym f stamp) s) = suspended s ∧
  (getFundamentalDataFromMongoDB sym st').1 = Some f ∧
  (∃ r, storedSymbol st' sym = Some r ∧
        symbol r = Some sym ∧
        fundamentalDataAvailable r = Some true ∧
        fundamentalDataCount r = Some 1%nat ∧
        lastUpdated r = Some stamp) ∧
  (∀ sym', (getPriceDataFromMongoDB sym' st').1
           = (getPriceDataFromMongoDB sym' st).1) ∧
  (∀ sym', sym' ≠ sym →
     (getFundamentalDataFromMongoDB sym' st').1
     = (getFundamentalDataFromMongoDB sym' st).1 ∧
     storedSymbol st' sym' = storedSymbol st sym').
Proof.
  intros Hs st st'. subst st st'.
  destruct (resolved_unhindered (SaveFundamental sym f stamp) s Hs) as [-> ->].
  split; [reflexivity|].
  apply (saveFundamental_keyed_by_symbol sym f stamp (current s)).
Qed.

Lemma X1_fundamentals_round_trip_witness :
  let s := resolved saveAapl loaded in
  let s' := resolved (SaveFundamental "MSFT" sampleFundamentals "2024-01-06T01:00:04.000Z")
                     s in
  unhindered s ∧
  (getFundamentalDataFromMongoDB "MSFT" (current s')).1 = Some sampleFundamentals ∧
  (getPriceDataFromMongoDB "AAPL" (current s')).1 = [sampleRecord].
Proof.
  cbv zeta.
  assert (H : unhindered (resolved saveAapl loaded)) by (left; vm_compute; eauto).
  split; [exact H|].
  destruct (X1_fundamentals_round_trip "MSFT" sampleFundamentals
              "2024-01-06T01:00:04.000Z" (resolved saveAapl loaded) H)
    as (_ & Hget & _ & Hprice & _).
  split; [exact Hget|]. rewrite Hprice. reflexivity.
Defined.

Lemma stored_delete (sym sym' : string) (st : Store) :
  let st' := deleteSymbolFromMongoDB sym st in
  storedPrice st' sym' = (if decide (sym = sym') then None else storedPrice st sym') ∧
  storedFundamental st' sym'
  = (if decide (sym = sym') then None else storedFundamental st sym') ∧
  storedSymbol st' sym' = (if decide (sym = sym') then None else storedSymbol st sym').
Proof.
  simpl. unfold deleteSymbolFromMongoDB, storedPrice, storedFundamental, storedSymbol.
  rewrite ensureConnected_db. simpl.
  rewrite !lookup_delete. destruct (db st); simpl; case_decide; auto.
Qed.

(** X2: [deleteSymbolFromMongoDB(s)] removes the symbol from all three
    collections: afterwards its price series reads as the empty array, its
    fundamentals as [null], it has no metadata, and no listing shows it;
    every other symbol is untouched. *)
Theorem X2_delete_removes_symbol (sym : string) (st : Store) :
  let st' := deleteSymbolFromMongoDB sym st in
  (getPriceDataFromMongoDB sym st').1 = [] ∧
  (getFundamentalDataFromMongoDB sym st').1 = None ∧
  storedSymbol st' sym = None ∧
  (∀ forEach c, db (ensureConnected st') = Some c →
     visitsAll forEach (symbols c) →
     sym ∉ row_symbol <$> (getSymbolsFromMongoDB forEach st').1) ∧
  (∀ sym', sym' ≠ sym →
     (getPriceDataFromMongoDB sym' st').1 = (getPriceDataFromMongoDB sym' st).1 ∧
     (getFundamentalDataFromMongoDB sym' st').1
     = (getFundamentalDataFromMongoDB sym' st).1 ∧
     storedSymbol st' sym' = storedSymbol st sym').
Proof.
  intros st'.
  pose proof (stored_delete sym sym st) as (Hp & Hf & Hs). fold st' in Hp, Hf, Hs.
  rewrite decide_True in Hp by reflexivity.
  rewrite decide_True in Hf by reflexivity.
  rewrite decide_True in Hs by reflexivity.
  split; [|split; [|split; [|split]]].
  - rewrite getPrice_stored, Hp. reflexivity.
  - rewrite getFundamental_stored, Hf. reflexivity.
  - exact Hs.
  - intros forEach c Hc Hvisit Hin.
    unfold getSymbolsFromMongoDB in Hin. rewrite Hc in Hin. simpl in Hin.
    apply list_elem_of_fmap in Hin as (row & Hrow & Hin).
    apply list_elem_of_fmap in Hin as ([k r] & -> & Hin). simpl in Hrow. subst k.
    rewrite Hvisit in Hin. apply elem_of_map_to_list in Hin.
    unfold storedSymbol in Hs.
    assert (db st' = Some c) as Hdb.
    { rewrite ensureConnected_db in Hc. subst st'.
      unfold deleteSymbolFromMongoDB in Hc |- *. rewrite ensureConnected_db in Hc |- *.
      simpl in Hc |- *. exact Hc. }
    rewrite Hdb in Hs. simpl in Hs. congruence.
  - intros sym' Hne.
    pose proof (stored_delete sym sym' st) as (Hp' & Hf' & Hs').
    fold st' in Hp', Hf', Hs'.
    rewrite decide_False in Hp' by congruence.
    rewrite decide_False in Hf' by congruence.
    rewrite decide_False in Hs' by congruence.
    rewrite !getPrice_stored, !getFundamental_stored, Hp', Hf'. auto.
Qed.


Lemma perform_isConnected (op : Operation) (st : Store) :
  isConnected (perform op st) = isConnected (ensureConnected st) ∧
  is_Some (db (perform op st)).
Proof.
  destruct op; simpl;
    unfold savePriceDataToMongoDB, saveFundamentalDataToMongoDB,
           deleteSymbolFromMongoDB;
    rewrite ensureConnected_db; simpl; split; eauto.
Qed.

Lemma ensureConnected_idem (st : Store) :
  is_Some (db st) → isConnected (ensureConnected st) = isConnected st.
Proof. intros [c Hc]. rewrite ensureConnected_isConnected, Hc. reflexivity. Qed.

Ltac open_writes :=
  unfold perform, savePriceDataToMongoDB, saveFundamentalDataToMongoDB,
         deleteSymbolFromMongoDB;
  repeat (rewrite ensureConnected_db; simpl).

Lemma perform_twice_isConnected (op1 op2 : Operation) (st : Store) :
  isConnected (perform op1 (perform op2 st)) = isConnected (ensureConnected st).
Proof.
  destruct (perform_isConnected op1 (perform op2 st)) as [-> _].
  destruct (perform_isConnected op2 st) as [H2 H2'].
  rewrite ensureConnected_idem by assumption. exact H2.
Qed.

(** Two writes aimed at different symbols leave the same entries whichever
    runs first.  (The stores are equal as finite maps; the order in which
    the keys were inserted, which a [Map] keeps, is not part of them.) *)
Lemma same_entries_in_either_order (op1 op2 : Operation) (st : Store) :
  target op1 ≠ target op2 →
  perform op1 (perform op2 st) = perform op2 (perform op1 st).
Proof.
  intros Hne. apply store_eq.
  - destruct op1, op2; simpl in Hne; open_writes.
    all: rewrite ?lookup_insert_ne, ?lookup_delete_ne by congruence.
    all: f_equal; f_equal.
    all: try reflexivity.
    all: try (apply insert_insert_ne; congruence).
    all: try (apply delete_insert_ne; congruence).
    all: try (symmetry; apply delete_insert_ne; congruence).
    all: try (apply delete_delete).
  - rewrite !perform_twice_isConnected. reflexivity.
Qed.

Lemma listing_permutation (forEach : Traversal) (st : Store) :
  traverses forEach st →
  listing forEach st
  ≡ₚ (fun entry => symbolRow entry.1 entry.2)
       <$> map_to_list (symbols (default newCollections (db (ensureConnected st)))).
Proof.
  intros Hvisit. unfold listing, getSymbolsFromMongoDB. cbv zeta.
  destruct (db (ensureConnected st)) as [c|] eqn:Hdb; simpl.
  - apply fmap_Permutation. apply (Hvisit c Hdb).
  - rewrite map_to_list_empty. reflexivity.
Qed.

(** X3: writes to different symbols commute, as far as the module lets a
    caller see.  For any two of the three writes (save prices, save
    fundamentals, delete) aimed at different symbols, made one after the
    other in either order: the connection flag is the same, every read of
    prices, of fundamentals and of metadata returns the same, and the two
    listings hold the same rows.  The rows may come in a different order:
    a [Map] lists its keys in the order of their first insertion. *)
Theorem X3_writes_to_different_symbols_commute (op1 op2 : Operation) (st : Store) :
  target op1 ≠ target op2 →
  let first1 := perform op2 (perform op1 st) in
  let first2 := perform op1 (perform op2 st) in
  isDatabaseConnected first1 = isDatabaseConnected first2 ∧
  (∀ sym,
     (getPriceDataFromMongoDB sym first1).1 = (getPriceDataFromMongoDB sym first2).1 ∧
     (getFundamentalDataFromMongoDB sym first1).1
     = (getFundamentalDataFromMongoDB sym first2).1 ∧
     storedSymbol first1 sym = storedSymbol first2 sym) ∧
  (∀ forEach forEach' : Traversal,
     traverses forEach first1 → traverses forEach' first2 →
     listing forEach first1 ≡ₚ listing forEach' first2).
Proof.
  intros Hne first1 first2. subst first1 first2.
  rewrite (same_entries_in_either_order op1 op2 st Hne).
  split; [reflexivity|]. split; [auto|].
  intros forEach forEach' H1 H2.
  rewrite (listing_permutation forEach _ H1), (listing_permutation forEach' _ H2).
  reflexivity.
Qed.

Lemma X3_writes_to_different_symbols_commute_witness :
  let save := SavePrice "NVDA" [sampleRecord] "2024-01-06T01:00:06.000Z" in
  let delete := DeleteSymbol "MSFT" in
  let st := performAll sampleOps initialStore in
  target save ≠ target delete ∧
  (getPriceDataFromMongoDB "NVDA" (perform delete (perform save st))).1
  = (getPriceDataFromMongoDB "NVDA" (perform save (perform delete st))).1 ∧
  storedSymbol (perform delete (perform save st)) "MSFT"
  = storedSymbol (perform save (perform delete st)) "MSFT".
Proof.
  cbv zeta.
  assert (H : target (SavePrice "NVDA" [sampleRecord] "2024-01-06T01:00:06.000Z")
              ≠ target (DeleteSymbol "MSFT")) by (simpl; discriminate).
  split; [exact H|].
  destruct (X3_writes_to_different_symbols_commute _ _
              (performAll sampleOps initialStore) H) as (_ & Hreads & _).
  cbv zeta in Hreads.
  split; [apply (Hreads "NVDA")|apply (Hreads "MSFT")].
Defined.

Lemma perform_once_isConnected (op : Operation) (st : Store) :
  isConnected (perform op st) = isConnected (ensureConnected st).
Proof. apply perform_isConnected. Qed.

Ltac as_perform :=
  repeat match goal with
    | |- context [savePriceDataToMongoDB ?a ?b ?c ?st] =>
        change (savePriceDataToMongoDB a b c st) with (perform (SavePrice a b c) st)
    | |- context [saveFundamentalDataToMongoDB ?a ?b ?c ?st] =>
        change (saveFundamentalDataToMongoDB a b c st)
          with (perform (SaveFundamental a b c) st)
    | |- context [deleteSymbolFromMongoDB ?a ?st] =>
        change (deleteSymbolFromMongoDB a st) with (perform (DeleteSymbol a) st)
    end.

Ltac same_connection :=
  as_perform; rewrite ?perform_twice_isConnected, ?perform_once_isConnected;
  reflexivity.

Lemma absorb_price (sym : string) (p1 p2 : list PriceData) (t1 t2 : string)
  (st : Store) :
  savePriceDataToMongoDB sym p2 t2 (savePriceDataToMongoDB sym p1 t1 st)
  = savePriceDataToMongoDB sym p2 t2 st.
Proof.
  apply store_eq.
  - open_writes. rewrite !lookup_insert_eq. simpl. rewrite !insert_insert_eq.
    reflexivity.
  - same_connection.
Qed.

Lemma absorb_fundamental (sym : string) (f1 f2 : FundamentalData) (t1 t2 : string)
  (st : Store) :
  saveFundamentalDataToMongoDB sym f2 t2 (saveFundamentalDataToMongoDB sym f1 t1 st)
  = saveFundamentalDataToMongoDB sym f2 t2 st.
Proof.
  apply store_eq.
  - open_writes. rewrite !lookup_insert_eq. simpl. rewrite !insert_insert_eq.
    reflexivity.
  - same_connection.
Qed.

Lemma absorb_delete (op : Operation) (st : Store) :
  deleteSymbolFromMongoDB (target op) (perform op st)
  = deleteSymbolFromMongoDB (target op) st.
Proof.
  apply store_eq.
  - destruct op; simpl; open_writes; rewrite ?delete_insert_eq, ?delete_delete_eq; reflexivity.
  - same_connection.
Qed.

(** X4: a later write to a symbol absorbs the earlier ones.  A second
    save of prices (of fundamentals) for a symbol leaves the store exactly
    as if the first had never run, and a delete leaves it exactly as if
    the write before it, of whatever kind, had never run. *)
Theorem X4_later_write_absorbs_earlier (sym : string) (p1 p2 : list PriceData)
  (f1 f2 : FundamentalData) (t1 t2 : string) (op : Operation) (st : Store) :
  savePriceDataToMongoDB sym p2 t2 (savePriceDataToMongoDB sym p1 t1 st)
  = savePriceDataToMongoDB sym p2 t2 st ∧
  saveFundamentalDataToMongoDB sym f2 t2 (saveFundamentalDataToMongoDB sym f1 t1 st)
  = saveFundamentalDataToMongoDB sym f2 t2 st ∧
  deleteSymbolFromMongoDB (target op) (perform op st)
  = deleteSymbolFromMongoDB (target op) st.
Proof.
  split; [apply absorb_price|]. split; [apply absorb_fundamental|].
  apply absorb_delete.
Qed.

(** X5: prices and fundamentals of one symbol can be saved in either
    order.  Whichever save comes second, the store is the same, provided
    the second call carries the same timestamp, and the metadata of the
    symbol then has status 'complete', both flags set and both counts. *)
Theorem X5_price_and_fundamentals_in_either_order (sym : string)
  (p : list PriceData) (f : FundamentalData) (t1 t2 : string) (st : Store) :
  let st' := saveFundamentalDataToMongoDB sym f t2 (savePriceDataToMongoDB sym p t1 st) in
  st' = savePriceDataToMongoDB sym p t2 (saveFundamentalDataToMongoDB sym f t1 st) ∧
  ∃ r, storedSymbol st' sym = Some r ∧
       status r = Some "complete" ∧
       priceDataAvailable r = Some true ∧
       fundamentalDataAvailable r = Some true ∧
       priceDataCount r = Some (length p) ∧
       fundamentalDataCount r = Some 1%nat ∧
       lastUpdated r = Some t2.
Proof.
  intros st'. subst st'. split.
  - apply store_eq.
    + open_writes. rewrite !lookup_insert_eq. simpl. rewrite !insert_insert_eq.
      reflexivity.
    + same_connection.
  - unfold storedSymbol. open_writes. rewrite !lookup_insert_eq. simpl.
    eexists. split; [reflexivity|]. simpl. repeat split.
Qed.



Lemma agree_new : agree newCollections.
Proof.
  split.
  - intros sym. unfold priceAgrees. simpl. rewrite lookup_empty.
    intros r Hr. rewrite lookup_empty in Hr. discriminate.
  - intros sym. unfold fundamentalAgrees. simpl. rewrite lookup_empty.
    intros r Hr. rewrite lookup_empty in Hr. discriminate.
  - intros sym r Hr. simpl in Hr. rewrite lookup_empty in Hr. discriminate.
Qed.

Lemma agree_savePrice (c : Collections) (sym : string) (data : list PriceData)
  (stamp : string) :
  agree c →
  let existingSymbol := default emptyObject (symbols c !! sym) in
  agree
    {| symbols :=
         <[sym := {| symbol := Some sym;
                     ds_name := ds_name existingSymbol;
                     priceDataAvailable := Some true;
                     fundamentalDataAvailable := fundamentalDataAvailable existingSymbol;
                     priceDataCount := Some (length data);
                     fundamentalDataCount := fundamentalDataCount existingSymbol;
                     lastUpdated := Some stamp;
                     status := Some (if truthy (fundamentalDataAvailable existingSymbol)
                                     then "complete" else "partial") |}]> (symbols c);
       priceData := <[sym := data]> (priceData c);
       fundamentalData := fundamentalData c |}.
Proof.
  intros [Hp Hf Hr] existing.
  assert (Hname : ds_name existing = None).
  { subst existing. destruct (symbols c !! sym) as [r0|] eqn:E; simpl; [|reflexivity].
    apply (Hr _ _ E). }
  split.
  - intros s. unfold priceAgrees. simpl.
    destruct (decide (sym = s)) as [<-|Hne].
    + rewrite !lookup_insert_eq. eexists. split; [reflexivity|]. simpl. auto.
    + rewrite !lookup_insert_ne by assumption. apply Hp.
  - intros s. unfold fundamentalAgrees. simpl.
    destruct (decide (sym = s)) as [<-|Hne].
    + rewrite !lookup_insert_eq. specialize (Hf sym). unfold fundamentalAgrees in Hf.
      subst existing.
      destruct (fundamentalData c !! sym) as [f|].
      * destruct Hf as (r0 & -> & Ha & Hc). simpl. eexists. split; [reflexivity|]. simpl. auto.
      * intros r [= <-]. simpl.
        destruct (symbols c !! sym) as [r0|]; simpl; [apply Hf; reflexivity|auto].
    + rewrite !lookup_insert_ne by assumption. apply Hf.
  - intros s r. simpl. destruct (decide (sym = s)) as [<-|Hne].
    + rewrite lookup_insert_eq. intros [= <-]. simpl.
      split; [reflexivity|]. split; [exact Hname|]. split; [eauto|].
      split; simpl; [reflexivity|]. reflexivity.
    + rewrite lookup_insert_ne by assumption. apply Hr.
Qed.

Lemma agree_saveFundamental (c : Collections) (sym : string) (data : FundamentalData)
  (stamp : string) :
  agree c →
  let existingSymbol := default emptyObject (symbols c !! sym) in
  agree
    {| symbols :=
         <[sym := {| symbol := Some sym;
                     ds_name := ds_name existingSymbol;
                     priceDataAvailable := priceDataAvailable existingSymbol;
                     fundamentalDataAvailable := Some true;
                     priceDataCount := priceDataCount existingSymbol;
                     fundamentalDataCount := Some 1%nat;
                     lastUpdated := Some stamp;
                     status := Some (if truthy (priceDataAvailable existingSymbol)
                                     then "complete" else "partial") |}]> (symbols c);
       priceData := priceData c;
       fundamentalData := <[sym := data]> (fundamentalData c) |}.
Proof.
  intros [Hp Hf Hr] existing.
  assert (Hname : ds_name existing = None).
  { subst existing. destruct (symbols c !! sym) as [r0|] eqn:E; simpl; [|reflexivity].
    apply (Hr _ _ E). }
  split.
  - intros s. unfold priceAgrees. simpl.
    destruct (decide (sym = s)) as [<-|Hne].
    + rewrite !lookup_insert_eq. specialize (Hp sym). unfold priceAgrees in Hp.
      subst existing.
      destruct (priceData c !! sym) as [f|].
      * destruct Hp as (r0 & -> & Ha & Hc). simpl. eexists. split; [reflexivity|]. simpl. auto.
      * intros r [= <-]. simpl.
        destruct (symbols c !! sym) as [r0|]; simpl; [apply Hp; reflexivity|auto].
    + rewrite !lookup_insert_ne by assumption. apply Hp.
  - intros s. unfold fundamentalAgrees. simpl.
    destruct (decide (sym = s)) as [<-|Hne].
    + rewrite !lookup_insert_eq. eexists. split; [reflexivity|]. simpl. auto.
    + rewrite !lookup_insert_ne by assumption. apply Hf.
  - intros s r. simpl. destruct (decide (sym = s)) as [<-|Hne].
    + rewrite lookup_insert_eq. intros [= <-]. simpl.
      split; [reflexivity|]. split; [exact Hname|]. split; [eauto|].
      split; simpl.
      * apply orb_true_r.
      * rewrite andb_true_r. reflexivity.
    + rewrite lookup_insert_ne by assumption. apply Hr.
Qed.

Lemma agree_delete (c : Collections) (sym : string) :
  agree c →
  agree {| symbols := delete sym (symbols c);
           priceData := delete sym (priceData c);
           fundamentalData := delete sym (fundamentalData c) |}.
Proof.
  intros [Hp Hf Hr]. split.
  - intros s. unfold priceAgrees. simpl. destruct (decide (sym = s)) as [<-|Hne].
    + rewrite !lookup_delete_eq. discriminate.
    + rewrite !lookup_delete_ne by assumption. apply Hp.
  - intros s. unfold fundamentalAgrees. simpl. destruct (decide (sym = s)) as [<-|Hne].
    + rewrite !lookup_delete_eq. discriminate.
    + rewrite !lookup_delete_ne by assumption. apply Hf.
  - intros s r. simpl. destruct (decide (sym = s)) as [<-|Hne].
    + rewrite lookup_delete_eq. discriminate.
    + rewrite lookup_delete_ne by assumption. apply Hr.
Qed.

Lemma coherent_initial : coherent initialStore.
Proof.
  split; simpl.
  - split; [discriminate|]. intros [c Hc]. discriminate.
  - discriminate.
Qed.

Lemma coherent_connected (c : Collections) :
  agree c → coherent {| db := Some c; isConnected := true |}.
Proof.
  intros Hc. split; simpl.
  - split; eauto.
  - intros c' [= <-]. exact Hc.
Qed.

Lemma coherent_ensure (st : Store) :
  coherent st →
  ensureConnected st = {| db := Some (default newCollections (db st));
                          isConnected := true |} ∧
  agree (default newCollections (db st)).
Proof.
  intros [Hconn Hcoll]. destruct st as [[c|] b]; simpl in *.
  - assert (b = true) as -> by (apply Hconn; eauto).
    split; [reflexivity|]. apply Hcoll. reflexivity.
  - split; [reflexivity|apply agree_new].
Qed.

Lemma coherent_call (c : Call) (st : Store) : coherent st → coherent (call c st).
Proof.
  intros Hst. destruct (coherent_ensure st Hst) as [Hens Hagree].
  destruct c as [| |op|]; simpl.
  - unfold connectToDatabase. destruct (db st) eqn:E; [exact Hst|].
    apply coherent_connected, agree_new.
  - unfold disconnectFromDatabase. destruct (db st) eqn:E; [|exact Hst].
    destruct (isConnected st); [apply coherent_initial|exact Hst].
  - destruct op as [sym data stamp|sym data stamp|sym]; simpl;
      unfold savePriceDataToMongoDB, saveFundamentalDataToMongoDB,
             deleteSymbolFromMongoDB;
      rewrite Hens; simpl; apply coherent_connected.
    + apply agree_savePrice, Hagree.
    + apply agree_saveFundamental, Hagree.
    + apply agree_delete, Hagree.
  - rewrite Hens. apply coherent_connected, Hagree.
Qed.

Lemma coherent_session (calls : list Call) : coherent (callAll calls initialStore).
Proof.
  unfold callAll. generalize coherent_initial. generalize initialStore.
  induction calls as [|c calls IH]; intros st Hst; simpl; [exact Hst|].
  apply IH, coherent_call, Hst.
Qed.

Lemma stored_default (st : Store) (sym : string) :
  let c := default newCollections (db st) in
  storedPrice st sym = priceData c !! sym ∧
  storedFundamental st sym = fundamentalData c !! sym ∧
  storedSymbol st sym = symbols c !! sym.
Proof.
  unfold storedPrice, storedFundamental, storedSymbol.
  destruct (db st); simpl; rewrite ?lookup_empty; auto.
Qed.

(** X6: the metadata never disagrees with the collections.  After any
    sequence of calls of the exported functions, from the moment the
    module is loaded: [isDatabaseConnected()] is true exactly when [db] is
    set; a symbol has a stored price series exactly when its metadata says
    [priceDataAvailable], and then [priceDataCount] is the length of the
    series; likewise for fundamentals, with count 1; and a symbol with
    metadata has at least one of the two. *)
Theorem X6_metadata_matches_collections (calls : list Call) (sym : string) :
  let st := callAll calls initialStore in
  (isDatabaseConnected st = true ↔ is_Some (db st)) ∧
  (∀ data, storedPrice st sym = Some data →
     ∃ r, storedSymbol st sym = Some r ∧ priceDataAvailable r = Some true ∧
          priceDataCount r = Some (length data)) ∧
  (∀ data, storedFundamental st sym = Some data →
     ∃ r, storedSymbol st sym = Some r ∧ fundamentalDataAvailable r = Some true ∧
          fundamentalDataCount r = Some 1%nat) ∧
  (∀ r, storedSymbol st sym = Some r →
     symbol r = Some sym ∧
     (priceDataAvailable r = Some true ↔ is_Some (storedPrice st sym)) ∧
     (fundamentalDataAvailable r = Some true ↔ is_Some (storedFundamental st sym)) ∧
     (is_Some (storedPrice st sym) ∨ is_Some (storedFundamental st sym))).
Proof.
  intros st. pose proof (coherent_session calls) as Hst. fold st in Hst.
  destruct (coherent_ensure st Hst) as [_ Hagree].
  destruct (stored_default st sym) as (-> & -> & ->).
  set (c := default newCollections (db st)) in *.
  pose proof (agree_price c Hagree sym) as Hp.
  pose proof (agree_fundamental c Hagree sym) as Hf.
  unfold priceAgrees in Hp. unfold fundamentalAgrees in Hf.
  split; [apply (coherent_connection st Hst)|].
  split; [intros data Hd; rewrite Hd in Hp; exact Hp|].
  split; [intros data Hd; rewrite Hd in Hf; exact Hf|].
  intros r Hr. destruct (agree_rows c Hagree sym r Hr) as (Hsym & _ & _ & Hone & _).
  split; [exact Hsym|].
  assert (Hpa : priceDataAvailable r = Some true ↔ is_Some (priceData c !! sym)).
  { destruct (priceData c !! sym) as [d|].
    - destruct Hp as (r' & Hr' & Ha & _). rewrite Hr in Hr'. injection Hr' as <-.
      split; eauto.
    - destruct (Hp r Hr) as [Ha _]. rewrite Ha. split; [discriminate|].
      intros [? ?]. discriminate. }
  assert (Hfa : fundamentalDataAvailable r = Some true
                ↔ is_Some (fundamentalData c !! sym)).
  { destruct (fundamentalData c !! sym) as [d|].
    - destruct Hf as (r' & Hr' & Ha & _). rewrite Hr in Hr'. injection Hr' as <-.
      split; eauto.
    - destruct (Hf r Hr) as [Ha _]. rewrite Ha. split; [discriminate|].
      intros [? ?]. discriminate. }
  split; [exact Hpa|]. split; [exact Hfa|].
  apply orb_true_iff in Hone as [H|H]; [left; apply Hpa|right; apply Hfa].
  - destruct (priceDataAvailable r) as [[]|]; [reflexivity|discriminate..].
  - destruct (fundamentalDataAvailable r) as [[]|]; [reflexivity|discriminate..].
Qed.

(** X7: nothing survives a disconnect.  After [disconnectFromDatabase()],
    whatever was stored before, the module is not connected, and the next
    read reconnects to empty collections: every price series reads as the
    empty array, all fundamentals as [null], and the listing is empty. *)
Theorem X7_disconnect_discards_data (calls : list Call) (sym : string)
  (forEach : Traversal) :
  let st := disconnectFromDatabase (callAll calls initialStore) in
  isDatabaseConnected st = false ∧
  db st = None ∧
  getPriceDataFromMongoDB sym st
  = ([], {| db := Some newCollections; isConnected := true |}) ∧
  getFundamentalDataFromMongoDB sym st
  = (None, {| db := Some newCollections; isConnected := true |}) ∧
  (traverses forEach st → listing forEach st = []).
Proof.
  intros st. pose proof (coherent_session calls) as Hst.
  assert (Hnone : st = initialStore).
  { subst st. unfold disconnectFromDatabase.
    destruct (db (callAll calls initialStore)) as [c|] eqn:E.
    - assert (isConnected (callAll calls initialStore) = true) as ->
        by (apply (coherent_connection _ Hst); eauto).
      reflexivity.
    - apply store_eq; [exact E|].
      destruct (isConnected (callAll calls initialStore)) eqn:Ec; [|reflexivity].
      apply (coherent_connection _ Hst) in Ec as [c Hc]. congruence. }
  rewrite Hnone. repeat split.
  intros Htrav. destruct (Htrav newCollections eq_refl) as [Hvisit _].
  unfold listing, getSymbolsFromMongoDB. simpl.
  unfold visitsAll in Hvisit. simpl in Hvisit. rewrite map_to_list_empty in Hvisit.
  apply Permutation_nil_r in Hvisit. rewrite Hvisit. reflexivity.
Qed.

Lemma sum_list_perm (l l' : list nat) : l ≡ₚ l' → sum_list l = sum_list l'.
Proof. induction 1; simpl; lia. Qed.

Lemma foldl_sum {A : Type} (f : A → nat) (l : list A) (a : nat) :
  foldl (fun sum x => (sum + f x)%nat) a l = (a + sum_list (f <$> l))%nat.
Proof.
  revert a. induction l as [|x l IH]; intros a; [simpl; lia|].
  rewrite fmap_cons. simpl foldl. rewrite IH. simpl. lia.
Qed.

Lemma count_sum {A : Type} (p : A → bool) (l : list A) :
  length (filter (fun x => p x = true) l)
  = sum_list ((fun x => if p x then 1%nat else 0%nat) <$> l).
Proof.
  induction l as [|x l IH]; [reflexivity|].
  rewrite filter_cons. simpl. destruct (p x) eqn:E.
  - rewrite decide_True by reflexivity. simpl. rewrite IH. reflexivity.
  - rewrite decide_False by discriminate. rewrite IH. reflexivity.
Qed.

Lemma sum_list_cons (x : nat) (l : list nat) :
  sum_list (x :: l) = (x + sum_list l)%nat.
Proof. reflexivity. Qed.

(** Summing, over the keys of one map, a weight read off a second map
    whose keys are among them is summing over the second map. *)
Lemma sum_over_keys {X Y : Type} (w : Y → nat) (B : gmap string Y) :
  ∀ A : gmap string X,
    (∀ k y, B !! k = Some y → is_Some (A !! k)) →
    sum_list ((fun e => from_option w 0%nat (B !! e.1)) <$> map_to_list A)
    = sum_list ((fun e => w e.2) <$> map_to_list B).
Proof.
  induction B as [|i y B Hi IH] using map_ind; intros A Hdom.
  - rewrite map_to_list_empty. simpl.
    induction (map_to_list A) as [|e l IHl]; [reflexivity|].
    simpl. rewrite lookup_empty. simpl. exact IHl.
  - destruct (Hdom i y) as [x Hx]; [apply lookup_insert_eq|].
    rewrite (sum_list_perm _ _
               (fmap_Permutation _ _ _ (map_to_list_insert B i y Hi))).
    rewrite <- (insert_delete_id A i x Hx) at 1.
    rewrite (sum_list_perm _ _
               (fmap_Permutation _ _ _
                  (map_to_list_insert (delete i A) i x (lookup_delete_eq A i)))).
    rewrite !fmap_cons, !sum_list_cons. cbn [fst snd].
    rewrite lookup_insert_eq. cbn [from_option]. f_equal.
    rewrite <- (IH (delete i A)).
    + f_equal. apply list_fmap_ext. intros n [k x'] Hk. simpl.
      apply list_elem_of_lookup_2, elem_of_map_to_list in Hk.
      apply lookup_delete_Some in Hk as [Hne _].
      rewrite lookup_insert_ne by assumption. reflexivity.
    + intros k y' Hk. destruct (decide (i = k)) as [<-|Hne]; [congruence|].
      rewrite lookup_delete_ne by assumption.
      apply (Hdom k y'). rewrite lookup_insert_ne by assumption. exact Hk.
Qed.

Import FinancialDataService.

Lemma countSymbol_fold (l : list DatabaseSymbol) (acc : DatabaseStats) :
  let r := foldl countSymbol acc l in
  totalSymbols r = (totalSymbols acc + length l)%nat ∧
  symbolsWithPriceData r
  = (symbolsWithPriceData acc
     + length (filter (fun d => truthy (priceDataAvailable d) = true) l))%nat ∧
  symbolsWithFundamentalData r
  = (symbolsWithFundamentalData acc
     + length (filter (fun d => truthy (fundamentalDataAvailable d) = true) l))%nat ∧
  totalPriceRecords r = totalPriceRecords acc.
Proof.
  revert acc. induction l as [|d l IH]; intros acc; simpl.
  - repeat split; lia.
  - destruct (IH (countSymbol acc d)) as (H1 & H2 & H3 & H4).
    rewrite H1, H2, H3, H4. rewrite !filter_cons. simpl.
    destruct (truthy (priceDataAvailable d)), (truthy (fundamentalDataAvailable d));
      simpl; repeat split; lia.
Qed.

Lemma countPrice_fold (l : list (list PriceData)) (acc : DatabaseStats) :
  let r := foldl countPriceRecords acc l in
  totalSymbols r = totalSymbols acc ∧
  symbolsWithPriceData r = symbolsWithPriceData acc ∧
  symbolsWithFundamentalData r = symbolsWithFundamentalData acc ∧
  totalPriceRecords r = (totalPriceRecords acc + sum_list (length <$> l))%nat.
Proof.
  revert acc. induction l as [|d l IH]; intros acc.
  - simpl. repeat split; lia.
  - rewrite fmap_cons, sum_list_cons. cbv zeta. simpl foldl.
    destruct (IH (countPriceRecords acc d)) as (H1 & H2 & H3 & H4).
    rewrite H1, H2, H3, H4. simpl. repeat split; lia.
Qed.

Section Listed.
Variable forEach : Traversal.
Variable c : Collections.
Hypothesis Hagree : agree c.
Hypothesis Hvisit : visitsAll forEach (symbols c).

Lemma listed_entry (k : string) (r : DatabaseSymbol) :
  (k, r) ∈ forEach _ (symbols c) ↔ symbols c !! k = Some r.
Proof. rewrite Hvisit. apply elem_of_map_to_list. Qed.

Lemma row_of_entry (k : string) (r : DatabaseSymbol) :
  symbols c !! k = Some r →
  let row := symbolRow k r in
  row_name row = k ∧
  row_status row = getSymbolStatus row ∧
  (row_status row = "complete" ∨ row_status row = "partial") ∧
  row_priceDataAvailable row = bool_decide (is_Some (priceData c !! k)) ∧
  row_priceDataCount row = from_option length 0%nat (priceData c !! k) ∧
  row_fundamentalDataAvailable row
  = bool_decide (is_Some (fundamentalData c !! k)) ∧
  row_fundamentalDataCount row
  = from_option (fun _ => 1%nat) 0%nat (fundamentalData c !! k).
Proof.
  intros Hr row.
  destruct (agree_rows c Hagree k r Hr) as (Hsym & Hname & _ & Hone & Hstatus).
  pose proof (agree_price c Hagree k) as Hp.
  pose proof (agree_fundamental c Hagree k) as Hf.
  unfold priceAgrees in Hp. unfold fundamentalAgrees in Hf.
  assert (Hpa : truthy (priceDataAvailable r)
                = bool_decide (is_Some (priceData c !! k)) ∧
                default 0%nat (priceDataCount r)
                = from_option length 0%nat (priceData c !! k)).
  { destruct (priceData c !! k) as [d|].
    - destruct Hp as (r' & Hr' & Ha & Hc). rewrite Hr in Hr'. injection Hr' as <-.
      rewrite Ha, Hc. split; [|reflexivity].
      symmetry. apply bool_decide_eq_true. eauto.
    - destruct (Hp r Hr) as [Ha Hc]. rewrite Ha, Hc. split; [|reflexivity].
      symmetry. apply bool_decide_eq_false. intros [? ?]. discriminate. }
  assert (Hfa : truthy (fundamentalDataAvailable r)
                = bool_decide (is_Some (fundamentalData c !! k)) ∧
                default 0%nat (fundamentalDataCount r)
                = from_option (fun _ => 1%nat) 0%nat (fundamentalData c !! k)).
  { destruct (fundamentalData c !! k) as [d|].
    - destruct Hf as (r' & Hr' & Ha & Hc). rewrite Hr in Hr'. injection Hr' as <-.
      rewrite Ha, Hc. split; [|reflexivity].
      symmetry. apply bool_decide_eq_true. eauto.
    - destruct (Hf r Hr) as [Ha Hc]. rewrite Ha, Hc. split; [|reflexivity].
      symmetry. apply bool_decide_eq_false. intros [? ?]. discriminate. }
  destruct Hpa as [Hpa Hpc]. destruct Hfa as [Hfa Hfc].
  subst row. unfold getSymbolStatus. simpl.
  rewrite Hname, Hstatus. simpl.
  split; [reflexivity|]. rewrite <- Hpa, <- Hfa, Hpc, Hfc.
  destruct (truthy (priceDataAvailable r)), (truthy (fundamentalDataAvailable r));
    simpl in *; try discriminate; repeat split; auto.
Qed.

End Listed.

Lemma listing_rows (forEach : Traversal) (st : Store) :
  coherent st →
  listing forEach st
  = (fun entry => symbolRow entry.1 entry.2)
      <$> forEach _ (symbols (default newCollections (db st))).
Proof.
  intros Hst. destruct (coherent_ensure st Hst) as [Hens _].
  unfold listing, getSymbolsFromMongoDB. rewrite Hens. reflexivity.
Qed.

Lemma traverses_default (forEach : Traversal) (st : Store) :
  traverses forEach st →
  visitsAll forEach (symbols (default newCollections (db st))) ∧
  visitsAll forEach (priceData (default newCollections (db st))).
Proof. intros H. apply H. apply ensureConnected_db. Qed.

(** X8: what [getSymbolsFromMongoDB] lists.  After any sequence of calls
    and for whatever order the collection is traversed in, the listing has
    one row per stored symbol and no other; the name of a row is its ticker;
    its status is 'complete' or 'partial', never 'missing', and is the one
    [getSymbolStatus] computes from its flags; a flag is set exactly when
    the data is stored; the price count is the length of the stored series
    and the fundamental count is 1 or 0 with its flag. *)
Theorem X8_listing_of_session (calls : list Call) (forEach : Traversal) :
  let st := callAll calls initialStore in
  traverses forEach st →
  let rows := listing forEach st in
  NoDup (row_symbol <$> rows) ∧
  (∀ sym, sym ∈ row_symbol <$> rows ↔ is_Some (storedSymbol st sym)) ∧
  Forall (fun row =>
     row_name row = row_symbol row ∧
     row_status row = getSymbolStatus row ∧
     (row_status row = "complete" ∨ row_status row = "partial") ∧
     (row_priceDataAvailable row = true
      ↔ is_Some (storedPrice st (row_symbol row))) ∧
     row_priceDataCount row
     = length (getPriceDataFromMongoDB (row_symbol row) st).1 ∧
     (row_fundamentalDataAvailable row = true
      ↔ is_Some (storedFundamental st (row_symbol row))) ∧
     row_fundamentalDataCount row
     = (if row_fundamentalDataAvailable row then 1%nat else 0%nat)) rows.
Proof.
  intros st Htrav rows.
  pose proof (coherent_session calls) as Hst. fold st in Hst.
  destruct (coherent_ensure st Hst) as [_ Hagree].
  destruct (traverses_default forEach st Htrav) as [Hvisit _].
  set (c := default newCollections (db st)) in *.
  assert (Hrows : rows = (fun entry => symbolRow entry.1 entry.2)
                           <$> forEach _ (symbols c))
    by (apply listing_rows, Hst).
  assert (Hkeys : row_symbol <$> rows = (forEach _ (symbols c)).*1).
  { rewrite Hrows, <- list_fmap_compose. apply list_fmap_ext. intros ? [k r] _. reflexivity. }
  split; [|split].
  - rewrite Hkeys, Hvisit. apply NoDup_fst_map_to_list.
  - intros sym. rewrite Hkeys.
    destruct (stored_default st sym) as (_ & _ & ->). fold c.
    rewrite list_elem_of_fmap. split.
    + intros ([k r] & -> & Hin). apply (listed_entry forEach c Hvisit) in Hin. eauto.
    + intros [r Hr]. exists (sym, r). split; [reflexivity|].
      apply (listed_entry forEach c Hvisit). exact Hr.
  - rewrite Hrows. apply Forall_fmap, Forall_forall. intros [k r] Hin.
    apply (listed_entry forEach c Hvisit) in Hin.
    destruct (row_of_entry c Hagree k r Hin) as (H1 & H2 & H3 & H4 & H5 & H6 & H7).
    destruct (stored_default st k) as (Hp & Hf & _). fold c in Hp, Hf.
    unfold compose. cbn [fst snd]. change (row_symbol (symbolRow k r)) with k.
    rewrite getPrice_stored, Hp, Hf.
    split; [exact H1|]. split; [exact H2|]. split; [exact H3|].
    split; [rewrite H4; apply bool_decide_eq_true|].
    split; [rewrite H5; destruct (priceData c !! k); reflexivity|].
    split; [rewrite H6; apply bool_decide_eq_true|].
    rewrite H7, H6. destruct (fundamentalData c !! k) as [f|].
    + rewrite bool_decide_eq_true_2 by eauto. reflexivity.
    + rewrite bool_decide_eq_false_2; [reflexivity|]. intros [? ?]. discriminate.
Qed.

Lemma X8_listing_of_session_witness :
  traverses keyOrder (callAll sampleSession initialStore) ∧
  NoDup (row_symbol <$> listing keyOrder (callAll sampleSession initialStore)) ∧
  length (listing keyOrder (callAll sampleSession initialStore)) = 2%nat.
Proof.
  assert (H : traverses keyOrder (callAll sampleSession initialStore))
    by (intros c _; split; unfold visitsAll, keyOrder; reflexivity).
  split; [exact H|]. split; [|vm_compute; reflexivity].
  apply (X8_listing_of_session sampleSession keyOrder H).
Defined.

Lemma stats_fields (forEach : Traversal) (st : Store) :
  coherent st →
  let c := default newCollections (db st) in
  let mongo := (getDatabaseStatsFromMongoDB forEach st).1 in
  totalSymbols mongo = length (forEach _ (symbols c)) ∧
  symbolsWithPriceData mongo
  = length (filter (fun d => truthy (priceDataAvailable d) = true)
                   (forEach _ (symbols c)).*2) ∧
  symbolsWithFundamentalData mongo
  = length (filter (fun d => truthy (fundamentalDataAvailable d) = true)
                   (forEach _ (symbols c)).*2) ∧
  totalPriceRecords mongo = sum_list (length <$> (forEach _ (priceData c)).*2) ∧
  totalFundamentalRecords mongo = size (fundamentalData c).
Proof.
  intros Hst c mongo. destruct (coherent_ensure st Hst) as [Hens _].
  subst mongo. unfold getDatabaseStatsFromMongoDB. rewrite Hens. simpl.
  fold c.
  destruct (countPrice_fold (forEach _ (priceData c)).*2
              (foldl countSymbol noStats (forEach _ (symbols c)).*2))
    as (H1 & H2 & H3 & H4).
  destruct (countSymbol_fold (forEach _ (symbols c)).*2 noStats)
    as (G1 & G2 & G3 & G4).
  rewrite H1, H2, H3, H4, G1, G2, G3, G4. simpl.
  rewrite length_fmap. auto.
Qed.

(** X9: the two statistics functions agree.  After any sequence of calls
    and for whatever order the collections are traversed in, the counts
    that [getDatabaseStats] of the manager derives from the listing are the
    counts [getDatabaseStatsFromMongoDB] takes from the collections; the
    number of symbols with prices (fundamentals) is the size of the price
    (fundamental) collection, and neither exceeds the number of symbols. *)
Theorem X9_statistics_agree (calls : list Call) (forEach : Traversal)
  (dateParse : string → option Z) :
  let st := callAll calls initialStore in
  traverses forEach st →
  let mongo := (getDatabaseStatsFromMongoDB forEach st).1 in
  ∃ manager,
    (DatabaseManagerService.getDatabaseStats true forEach dateParse st).1
    = Some manager ∧
    DatabaseManagerService.stats_totalSymbols manager = totalSymbols mongo ∧
    DatabaseManagerService.stats_symbolsWithPriceData manager = symbolsWithPriceData mongo ∧
    DatabaseManagerService.stats_symbolsWithFundamentalData manager = symbolsWithFundamentalData mongo ∧
    DatabaseManagerService.stats_totalPriceRecords manager = totalPriceRecords mongo ∧
    DatabaseManagerService.stats_totalFundamentalRecords manager = totalFundamentalRecords mongo ∧
    totalFundamentalRecords mongo = symbolsWithFundamentalData mongo ∧
    (symbolsWithPriceData mongo ≤ totalSymbols mongo)%nat ∧
    (symbolsWithFundamentalData mongo ≤ totalSymbols mongo)%nat ∧
    ∀ c, db (ensureConnected st) = Some c →
         totalSymbols mongo = size (symbols c) ∧
         symbolsWithPriceData mongo = size (priceData c) ∧
         symbolsWithFundamentalData mongo = size (fundamentalData c).
Proof.
  intros st Htrav mongo.
  pose proof (coherent_session calls) as Hst. fold st in Hst.
  destruct (coherent_ensure st Hst) as [Hens Hagree].
  destruct (traverses_default forEach st Htrav) as [Hvisit Hvisit'].
  destruct (stats_fields forEach st Hst) as (M1 & M2 & M3 & M4 & M5).
  fold mongo in M1, M2, M3, M4, M5.
  set (c := default newCollections (db st)) in *.
  set (entries := forEach _ (symbols c)) in *.
  assert (Hrows : listing forEach st
                  = (fun entry => symbolRow entry.1 entry.2) <$> entries)
    by (apply listing_rows, Hst).
  assert (Hentry : ∀ k r, (k, r) ∈ entries → symbols c !! k = Some r).
  { intros k r. apply (listed_entry forEach c Hvisit). }
  (* the sums over the listing, as sums over the keys of the metadata *)
  assert (Hflag : ∀ (flag : DatabaseSymbol → option bool)
                    (B : gmap string nat),
             (∀ k r, symbols c !! k = Some r →
                     truthy (flag r) = bool_decide (is_Some (B !! k))) →
             (∀ k y, B !! k = Some y → is_Some (symbols c !! k)) →
             length (filter (fun d => truthy (flag d) = true) entries.*2)
             = size B).
  { intros flag B Hb Hdom.
    rewrite (count_sum (fun d => truthy (flag d))), <- list_fmap_compose.
    rewrite <- length_map_to_list.
    transitivity (sum_list ((fun e => from_option (fun _ => 1%nat) 0%nat (B !! e.1))
                              <$> entries)).
    - f_equal. apply list_fmap_ext. intros n [k r] Hk. simpl.
      apply list_elem_of_lookup_2, Hentry in Hk. rewrite (Hb k r Hk).
      destruct (B !! k); [rewrite bool_decide_eq_true_2 by eauto; reflexivity|].
      rewrite bool_decide_eq_false_2; [reflexivity|]. intros [? ?]. discriminate.
    - rewrite (sum_list_perm _ _ (fmap_Permutation _ _ _ Hvisit)).
      rewrite (sum_over_keys (fun _ => 1%nat) B (symbols c) Hdom).
      induction (map_to_list B) as [|e l IHl]; [reflexivity|].
      rewrite fmap_cons, sum_list_cons, IHl. reflexivity. }
  assert (Hrow : ∀ k r, symbols c !! k = Some r →
             truthy (priceDataAvailable r)
             = bool_decide (is_Some (priceData c !! k)) ∧
             default 0%nat (priceDataCount r)
             = from_option length 0%nat (priceData c !! k) ∧
             truthy (fundamentalDataAvailable r)
             = bool_decide (is_Some (fundamentalData c !! k)) ∧
             default 0%nat (fundamentalDataCount r)
             = from_option (fun _ => 1%nat) 0%nat (fundamentalData c !! k)).
  { intros k r Hr.
    destruct (row_of_entry c Hagree k r Hr) as (_ & _ & _ & H4 & H5 & H6 & H7).
    auto. }
  assert (HdomP : ∀ k y, priceData c !! k = Some y → is_Some (symbols c !! k)).
  { intros k y Hk. pose proof (agree_price c Hagree k) as Hp.
    unfold priceAgrees in Hp. rewrite Hk in Hp. destruct Hp as (r & -> & _). eauto. }
  assert (HdomF : ∀ k y, fundamentalData c !! k = Some y → is_Some (symbols c !! k)).
  { intros k y Hk. pose proof (agree_fundamental c Hagree k) as Hf.
    unfold fundamentalAgrees in Hf. rewrite Hk in Hf. destruct Hf as (r & -> & _). eauto. }
  assert (SP : symbolsWithPriceData mongo = size (priceData c)).
  { rewrite M2, <- (map_size_fmap (fun d => length d) (priceData c)).
    apply Hflag.
    - intros k r Hr. destruct (Hrow k r Hr) as (-> & _).
      rewrite lookup_fmap. f_equal. apply bool_decide_ext.
      rewrite fmap_is_Some. reflexivity.
    - intros k y. rewrite lookup_fmap. intros Hk.
      destruct (priceData c !! k) eqn:E; [|discriminate]. eauto. }
  assert (SF : symbolsWithFundamentalData mongo = size (fundamentalData c)).
  { rewrite M3, <- (map_size_fmap (fun _ => 0%nat) (fundamentalData c)).
    apply Hflag.
    - intros k r Hr. destruct (Hrow k r Hr) as (_ & _ & -> & _).
      rewrite lookup_fmap. apply bool_decide_ext.
      rewrite fmap_is_Some. reflexivity.
    - intros k y. rewrite lookup_fmap. intros Hk.
      destruct (fundamentalData c !! k) eqn:E; [|discriminate]. eauto. }
  assert (ST : totalSymbols mongo = size (symbols c)).
  { rewrite M1. unfold entries. rewrite Hvisit. apply length_map_to_list. }
  exists (DatabaseManagerService.statsOf dateParse (listing forEach st)).
  split; [unfold DatabaseManagerService.getDatabaseStats, getDatabaseSymbols;
          reflexivity|].
  unfold DatabaseManagerService.statsOf.
  cbn [DatabaseManagerService.stats_totalSymbols
       DatabaseManagerService.stats_symbolsWithPriceData
       DatabaseManagerService.stats_symbolsWithFundamentalData
       DatabaseManagerService.stats_totalPriceRecords
       DatabaseManagerService.stats_totalFundamentalRecords].
  rewrite !foldl_sum, Hrows, length_fmap. cbn [Nat.add].
  split; [symmetry; exact M1|].
  split.
  { rewrite M2. rewrite (count_sum row_priceDataAvailable),
      (count_sum (fun d => truthy (priceDataAvailable d))), <- !list_fmap_compose.
    reflexivity. }
  split.
  { rewrite M3. rewrite (count_sum row_fundamentalDataAvailable),
      (count_sum (fun d => truthy (fundamentalDataAvailable d))),
      <- !list_fmap_compose.
    reflexivity. }
  split.
  { rewrite M4, <- !list_fmap_compose.
    transitivity (sum_list ((fun e => from_option length 0%nat (priceData c !! e.1))
                              <$> entries)).
    - f_equal. apply list_fmap_ext. intros n [k r] Hk. simpl.
      apply list_elem_of_lookup_2, Hentry in Hk.
      destruct (Hrow k r Hk) as (_ & -> & _). reflexivity.
    - unfold entries.
      rewrite (sum_list_perm _ _ (fmap_Permutation _ _ _ Hvisit)).
      rewrite (sum_over_keys length (priceData c) (symbols c) HdomP).
      apply sum_list_perm, fmap_Permutation. symmetry. exact Hvisit'. }
  split.
  { rewrite M5, <- SF, M3, <- !list_fmap_compose.
    rewrite (count_sum (fun d => truthy (fundamentalDataAvailable d))),
      <- list_fmap_compose.
    f_equal. apply list_fmap_ext. intros n [k r] Hk. simpl.
    apply list_elem_of_lookup_2, Hentry in Hk.
    destruct (Hrow k r Hk) as (_ & _ & Ha & ->). rewrite Ha.
    destruct (fundamentalData c !! k).
    - rewrite bool_decide_eq_true_2 by eauto. reflexivity.
    - rewrite bool_decide_eq_false_2; [reflexivity|]. intros [? ?]. discriminate. }
  split; [rewrite M5, SF; reflexivity|].
  split; [rewrite M2, M1, <- (length_fmap snd entries); apply length_filter|].
  split; [rewrite M3, M1, <- (length_fmap snd entries); apply length_filter|].
  intros c' Hc'. rewrite ensureConnected_db in Hc'. injection Hc' as <-.
  auto.
Qed.

Lemma X9_statistics_agree_witness :
  traverses keyOrder (callAll sampleSession initialStore) ∧
  ∃ manager,
    (DatabaseManagerService.getDatabaseStats true keyOrder (fun _ => None)
       (callAll sampleSession initialStore)).1 = Some manager ∧
    DatabaseManagerService.stats_totalPriceRecords manager
    = totalPriceRecords
        (getDatabaseStatsFromMongoDB keyOrder
           (callAll sampleSession initialStore)).1.
Proof.
  assert (H : traverses keyOrder (callAll sampleSession initialStore))
    by (intros c _; split; unfold visitsAll, keyOrder; reflexivity).
  split; [exact H|].
  destruct (X9_statistics_agree sampleSession keyOrder (fun _ => None) H)
    as (manager & Hm & _ & _ & _ & Hrecords & _).
  exists manager. split; [exact Hm|exact Hrecords].
Defined.

End DatabaseServiceLaws.

(** ** The scheduler: the registry, the timer and the daily rule *)

Module DatabaseManagerServiceLaws.
Import JSDate DatabaseManagerService.

Lemma compare_refl (s : string) : String.compare s s = Eq.
Proof.
  pose proof (String.compare_antisym s s) as H.
  destruct (String.compare s s); simpl in H; congruence.
Qed.

Lemma strGt_irrefl (s : string) : strGt s s = false.
Proof. unfold strGt, String.ltb. rewrite compare_refl. reflexivity. Qed.

Lemma toDateString_day (tz t t' : Z) :
  Day (LocalTime tz t) = Day (LocalTime tz t') →
  toDateString tz t = toDateString tz t'.
Proof. unfold toDateString. intros ->. reflexivity. Qed.

(** X10: a daily schedule does not fire twice on one day.  Whatever the
    time zone offset and whatever the time of day, a schedule of frequency
    'daily' whose last run falls on the local calendar day of [now] is not
    due. *)
Theorem X10_daily_not_due_twice_a_day (tz : Z) (schedule : UpdateSchedule)
  (now ranAt : Z) (currentTime : string) :
  frequency schedule = "daily" →
  lastRun schedule = Some ranAt →
  Day (LocalTime tz ranAt) = Day (LocalTime tz now) →
  isScheduleDue tz schedule now currentTime = false.
Proof.
  intros Hf Hl Hday. unfold isScheduleDue. rewrite Hf, Hl. simpl.
  rewrite (toDateString_day tz ranAt now Hday), strGt_irrefl. reflexivity.
Qed.

Lemma X10_daily_not_due_twice_a_day_witness :
  frequency sundayRun = "daily" ∧
  lastRun sundayRun = Some (19722 * msPerDay + 10 * 3600000)%Z ∧
  Day (LocalTime 60 (19722 * msPerDay + 10 * 3600000))
  = Day (LocalTime 60 (19722 * msPerDay + 22 * 3600000)) ∧
  isScheduleDue 60 sundayRun (19722 * msPerDay + 22 * 3600000)%Z "22:00" = false.
Proof.
  split; [reflexivity|]. split; [reflexivity|]. split; [reflexivity|].
  apply (X10_daily_not_due_twice_a_day 60 sundayRun _
           (19722 * msPerDay + 10 * 3600000)%Z);
    reflexivity.
Defined.

(** *** The registry *)

Lemma eqb_decide (a b : string) : String.eqb a b = bool_decide (a = b).
Proof.
  destruct (String.eqb_spec a b) as [->|Hne].
  - rewrite bool_decide_eq_true_2; reflexivity.
  - rewrite bool_decide_eq_false_2; [reflexivity|assumption].
Qed.

Lemma mapSet_keys (key : string) (value : UpdateSchedule) (m : list (string * UpdateSchedule)) :
  (mapSet key value m).*1 = if decide (key ∈ m.*1) then m.*1 else m.*1 ++ [key].
Proof.
  induction m as [|[k v] m IH].
  - cbn [mapSet fmap list_fmap fst]. case_decide as Hin; [|reflexivity].
    apply elem_of_nil in Hin. contradiction.
  - cbn [mapSet]. rewrite eqb_decide. case_bool_decide as Hk.
    + subst k. rewrite !fmap_cons. cbn [fst].
      rewrite decide_True; [reflexivity|]. apply list_elem_of_here.
    + rewrite !fmap_cons. cbn [fst]. rewrite IH.
      destruct (decide (key ∈ m.*1)) as [Hin|Hin].
      * rewrite decide_True; [reflexivity|]. apply list_elem_of_further, Hin.
      * rewrite decide_False; [reflexivity|].
        intros [?|?]%elem_of_cons; congruence.
Qed.

Lemma mapSet_elem (key : string) (value : UpdateSchedule) (m : list (string * UpdateSchedule))
  (e : string * UpdateSchedule) :
  e ∈ mapSet key value m → e = (key, value) ∨ e ∈ m.
Proof.
  induction m as [|[k' v'] m IH]; simpl.
  - intros ->%list_elem_of_singleton. auto.
  - rewrite eqb_decide. case_bool_decide as Hk.
    + intros [->|Hin]%elem_of_cons; [auto|]. right. apply list_elem_of_further, Hin.
    + intros [->|Hin]%elem_of_cons; [right; apply list_elem_of_here|].
      destruct (IH Hin) as [?|?]; [auto|]. right. apply list_elem_of_further. assumption.
Qed.

Lemma mapSet_here (key : string) (value : UpdateSchedule) (m : list (string * UpdateSchedule)) :
  (key, value) ∈ mapSet key value m.
Proof.
  induction m as [|[k' v'] m IH]; simpl; [apply list_elem_of_here|].
  rewrite eqb_decide. case_bool_decide; [apply list_elem_of_here|].
  apply list_elem_of_further, IH.
Qed.

Lemma mapSet_others (key : string) (value : UpdateSchedule) (m : list (string * UpdateSchedule)) :
  filter (fun e => e.1 ≠ key) (mapSet key value m) = filter (fun e => e.1 ≠ key) m.
Proof.
  induction m as [|[k' v'] m IH]; cbn [mapSet].
  - rewrite filter_cons_False; [reflexivity|]. simpl. auto.
  - rewrite eqb_decide. case_bool_decide as Hk.
    + subst k'. rewrite !filter_cons_False by (simpl; auto). reflexivity.
    + rewrite !filter_cons_True by (simpl; auto). rewrite IH. reflexivity.
Qed.

Lemma filter_all {A : Type} (P : A → Prop) `{∀ x, Decision (P x)} (l : list A) :
  Forall P l → filter P l = l.
Proof.
  induction 1 as [|x l Hx Hl IH]; [reflexivity|].
  rewrite filter_cons, decide_True by assumption. rewrite IH. reflexivity.
Qed.

Lemma mapDelete_filter (key : string) (m : list (string * UpdateSchedule)) :
  NoDup m.*1 → mapDelete key m = filter (fun e => e.1 ≠ key) m.
Proof.
  induction m as [|[k' v'] m IH]; [reflexivity|].
  rewrite fmap_cons. intros [Hnot Hnd]%NoDup_cons. cbn [mapDelete fst] in *.
  rewrite eqb_decide. case_bool_decide as Hk.
  - subst k'. rewrite filter_cons_False by (simpl; auto).
    symmetry. apply filter_all, Forall_forall. intros [k v] Hin. simpl. intros ->.
    apply Hnot. apply list_elem_of_fmap. exists (key, v). auto.
  - rewrite filter_cons_True by (simpl; auto). rewrite IH by assumption. reflexivity.
Qed.

(** The keys of the map are distinct and each is the [id] of its value. *)
Lemma keyed_set (schedule : UpdateSchedule) (m : list (string * UpdateSchedule)) :
  (NoDup m.*1 ∧ ∀ e, e ∈ m → e.1 = id e.2) →
  NoDup (mapSet (id schedule) schedule m).*1 ∧
  ∀ e, e ∈ mapSet (id schedule) schedule m → e.1 = id e.2.
Proof.
  intros [Hnd Hid]. split.
  - rewrite mapSet_keys. case_decide as Hin; [exact Hnd|].
    apply NoDup_app. split; [exact Hnd|]. split; [|apply NoDup_singleton].
    intros k Hk ->%list_elem_of_singleton. contradiction.
  - intros e [->|He]%mapSet_elem; [reflexivity|]. apply Hid, He.
Qed.

Lemma NoDup_fst_filter (P : string * UpdateSchedule → Prop)
  `{∀ e, Decision (P e)} (m : list (string * UpdateSchedule)) :
  NoDup m.*1 → NoDup (filter P m).*1.
Proof.
  induction m as [|e m IH]; [intros; apply NoDup_nil_2|].
  rewrite fmap_cons. intros [Hnot Hnd]%NoDup_cons.
  destruct (decide (P e)) as [Hp|Hp].
  - rewrite filter_cons_True by assumption. rewrite fmap_cons.
    apply NoDup_cons. split; [|apply IH, Hnd].
    intros Hin. apply Hnot.
    apply list_elem_of_fmap in Hin as (e' & -> & [_ Hin]%list_elem_of_filter).
    apply list_elem_of_fmap. eauto.
  - rewrite filter_cons_False by assumption. apply IH, Hnd.
Qed.

Lemma keyed_delete (key : string) (m : list (string * UpdateSchedule)) :
  (NoDup m.*1 ∧ ∀ e, e ∈ m → e.1 = id e.2) →
  NoDup (mapDelete key m).*1 ∧ ∀ e, e ∈ mapDelete key m → e.1 = id e.2.
Proof.
  intros [Hnd Hid]. rewrite mapDelete_filter by assumption. split.
  - apply NoDup_fst_filter, Hnd.
  - intros e [_ He]%list_elem_of_filter. apply Hid, He.
Qed.

Lemma values_filter (key : string) (m : list (string * UpdateSchedule)) :
  (∀ e, e ∈ m → e.1 = id e.2) →
  (filter (fun e => e.1 ≠ key) m).*2 = filter (fun v => id v ≠ key) m.*2.
Proof.
  induction m as [|[k v] m IH]; intros Hid; [reflexivity|].
  assert (k = id v) as -> by (apply (Hid (k, v)), list_elem_of_here).
  rewrite fmap_cons. cbn [snd].
  destruct (decide (id v = key)) as [He|Hne].
  - rewrite !filter_cons_False by (simpl; auto).
    apply IH. intros e He'. apply Hid, list_elem_of_further, He'.
  - rewrite !filter_cons_True by (simpl; auto). rewrite fmap_cons. cbn [snd].
    f_equal. apply IH. intros e He'. apply Hid, list_elem_of_further, He'.
Qed.

Lemma steady_initial : steady initialManager.
Proof.
  split; [split; [apply NoDup_nil_2|intros e He; inversion He]|].
  split; [reflexivity|]. split; [reflexivity|].
  intros h snapshot He. inversion He.
Qed.

Lemma steady_execute (c : Command) (s : Manager) : steady s → steady (execute c s).
Proof.
  intros (Hkeyed & Hrun & Htimers & Hwatch).
  destruct c as [schedule|scheduleId| |]; simpl.
  - split; [apply keyed_set, Hkeyed|]. auto.
  - split; [apply keyed_delete, Hkeyed|]. auto.
  - unfold startIncrementalUpdates. destruct (isRunning s) eqn:Er; simpl.
    + split; [exact Hkeyed|]. split; [rewrite Er; exact Hrun|]. auto.
    + assert (updateInterval s = None) as Hnone.
      { destruct (updateInterval s); [|reflexivity].
        rewrite bool_decide_eq_true_2 in Hrun by eauto. discriminate. }
      rewrite Hnone in Htimers. simpl in Htimers.
      apply fmap_nil_inv in Htimers.
      split; [exact Hkeyed|]. split; [reflexivity|].
      rewrite Htimers. simpl. split; [reflexivity|].
      intros h snapshot [= -> ->]%list_elem_of_singleton.
      apply Forall_forall. intros x [Hx _]%list_elem_of_filter. exact Hx.
  - split; [exact Hkeyed|]. split; [reflexivity|].
    destruct (updateInterval s) as [h|] eqn:Eh; simpl in *.
    + unfold clearInterval. simpl.
      destruct (running (timers s)) as [|[h' snap] [|? ?]] eqn:Et;
        simpl in Htimers; try discriminate.
      injection Htimers as ->. rewrite Eh. cbn [running].
      rewrite filter_cons_False by (simpl; auto). rewrite filter_nil.
      split; [reflexivity|]. intros ? ? He. inversion He.
    + rewrite Eh. split; [exact Htimers|exact Hwatch].
Qed.

Lemma steady_history (cs : list Command) : steady (executeAll cs initialManager).
Proof.
  unfold executeAll. generalize steady_initial. generalize initialManager.
  induction cs as [|c cs IH]; intros s Hs; simpl; [exact Hs|].
  apply IH, steady_execute, Hs.
Qed.

(** X11: the registry is keyed by schedule id.  After any history of
    calls, no two registered schedules share an id.  Adding a schedule
    registers it, replacing the one with its id if there is one (the
    list grows only for a new id), and leaves every other schedule, and
    their order, alone; removing an id removes exactly the schedule with
    that id. *)
Theorem X11_registry_keyed_by_id (cs : list Command) (schedule : UpdateSchedule)
  (scheduleId : string) :
  let s := executeAll cs initialManager in
  NoDup (id <$> getUpdateSchedules s) ∧
  schedule ∈ getUpdateSchedules (addUpdateSchedule schedule s) ∧
  filter (fun x => id x ≠ id schedule)
         (getUpdateSchedules (addUpdateSchedule schedule s))
  = filter (fun x => id x ≠ id schedule) (getUpdateSchedules s) ∧
  length (getUpdateSchedules (addUpdateSchedule schedule s))
  = (if decide (id schedule ∈ id <$> getUpdateSchedules s)
     then length (getUpdateSchedules s)
     else S (length (getUpdateSchedules s))) ∧
  getUpdateSchedules (removeUpdateSchedule scheduleId s)
  = filter (fun x => id x ≠ scheduleId) (getUpdateSchedules s).
Proof.
  intros s. destruct (steady_history cs) as ([Hnd Hid] & _). fold s in Hnd, Hid.
  unfold getUpdateSchedules, addUpdateSchedule, removeUpdateSchedule. simpl.
  set (m := updateSchedules s) in *.
  assert (Hkeys : id <$> m.*2 = m.*1).
  { rewrite <- list_fmap_compose. apply list_fmap_ext.
    intros n e He. simpl. symmetry. apply Hid. eapply list_elem_of_lookup_2, He. }
  split; [rewrite Hkeys; exact Hnd|].
  split.
  { apply list_elem_of_fmap. exists (id schedule, schedule).
    split; [reflexivity|apply mapSet_here]. }
  split.
  { destruct (keyed_set schedule m (conj Hnd Hid)) as [_ Hid'].
    rewrite <- !values_filter by assumption. rewrite mapSet_others. reflexivity. }
  split.
  { rewrite Hkeys, !length_fmap, <- (length_fmap fst (mapSet _ _ _)), mapSet_keys.
    case_decide; [apply length_fmap|].
    rewrite length_app, length_fmap. simpl. lia. }
  rewrite mapDelete_filter by assumption. apply values_filter, Hid.
Qed.

(** X12: at most one timer runs.  After any history of calls,
    [isUpdateRunning()] is true exactly when the service holds a timer
    handle; the timers that run are the one it holds and no other; the
    timer watches enabled schedules only; a second start throws and changes
    nothing; a stop leaves no timer behind; and a start that goes through
    installs one timer, on the schedules that are enabled at that
    moment. *)
Theorem X12_at_most_one_timer (cs : list Command) :
  let s := executeAll cs initialManager in
  (isUpdateRunning s = true ↔ is_Some (updateInterval s)) ∧
  (running (timers s)).*1 = option_list (updateInterval s) ∧
  (length (running (timers s)) ≤ 1)%nat ∧
  (∀ h snapshot, (h, snapshot) ∈ running (timers s) →
     Forall (fun schedule => enabled schedule = true) snapshot) ∧
  (startIncrementalUpdates s).1 = negb (isUpdateRunning s) ∧
  (isUpdateRunning s = true → (startIncrementalUpdates s).2 = s) ∧
  (isUpdateRunning s = false →
     running (timers (startIncrementalUpdates s).2)
     = [(nextHandle (timers s), getActiveSchedules s)]) ∧
  running (timers (stopIncrementalUpdates s)) = [] ∧
  isUpdateRunning (stopIncrementalUpdates s) = false.
Proof.
  intros s. destruct (steady_history cs) as (_ & Hrun & Htimers & Hwatch).
  fold s in Hrun, Htimers, Hwatch.
  pose proof (steady_execute StopUpdates s (steady_history cs)) as (_ & _ & Hstop & _).
  unfold isUpdateRunning.
  split; [rewrite Hrun; apply bool_decide_eq_true|].
  split; [exact Htimers|].
  split.
  { rewrite <- (length_fmap fst), Htimers. destruct (updateInterval s); simpl; lia. }
  split; [exact Hwatch|].
  unfold startIncrementalUpdates.
  split; [destruct (isRunning s); reflexivity|].
  split; [intros ->; reflexivity|].
  split.
  { intros Hr. rewrite Hr. simpl.
    assert (updateInterval s = None) as Hnone.
    { destruct (updateInterval s); [|reflexivity].
      rewrite Hrun, bool_decide_eq_true_2 in Hr by eauto. discriminate. }
    rewrite Hnone in Htimers. apply fmap_nil_inv in Htimers.
    rewrite Htimers. reflexivity. }
  split; [|reflexivity].
  simpl in Hstop. apply fmap_nil_inv in Hstop. exact Hstop.
Qed.

End DatabaseManagerServiceLaws.

(** ** The provider: generated fundamentals and the mixed progress array *)

Module FinancialDataServiceLaws.
Import JSDate DatabaseService FinancialDataService.

Lemma floor_between (lo hi : Z) (q : Q) :
  (inject_Z lo <= q)%Q → (q < inject_Z hi)%Q → (lo <= Qfloor q < hi)%Z.
Proof.
  intros Hlo Hhi. split.
  - rewrite <- (Qfloor_Z lo). apply Qfloor_resp_le, Hlo.
  - rewrite Zlt_Qlt. eapply Qle_lt_trans; [apply Qfloor_le|exact Hhi].
Qed.






Lemma Day_days_before (t n : Z) : Day (t - n * msPerDay) = (Day t - n)%Z.
Proof.
  unfold Day, msPerDay.
  replace (t - n * 86400000)%Z with (t + (- n) * 86400000)%Z by lia.
  rewrite Z.div_add by lia. lia.
Qed.



(** *** [indexOf] and the layout of the mixed progress array *)

Lemma indexOf_Some (l : list string) (x : string) (i : nat) :
  indexOf l x = Some i ↔ l !! i = Some x ∧ ∀ j, (j < i)%nat → l !! j ≠ Some x.
Proof.
  revert i. induction l as [|y l IH]; intros i; simpl.
  - split; [discriminate|]. intros [H _]. discriminate.
  - destruct (String.eqb_spec y x) as [->|Hne].
    + split.
      * intros [= <-]. split; [reflexivity|]. intros j Hj. lia.
      * intros [Hi Hfirst]. destruct i as [|i]; [reflexivity|].
        exfalso. apply (Hfirst 0%nat); [lia|reflexivity].
    + destruct i as [|i].
      * split.
        -- destruct (indexOf l x); discriminate.
        -- intros [[= ->] _]. contradiction.
      * split.
        -- destruct (indexOf l x) as [n|] eqn:E; [|discriminate].
           intros [= <-]. destruct (proj1 (IH n) eq_refl) as [Hn Hfirst].
           split; [exact Hn|].
           intros [|j] Hj; simpl; [congruence|]. apply Hfirst. lia.
        -- intros [Hi Hfirst].
           assert (indexOf l x = Some i) as ->; [|reflexivity].
           apply IH. split; [exact Hi|]. intros j Hj. apply (Hfirst (S j)). lia.
Qed.

Lemma indexOf_elem (l : list string) (x : string) :
  x ∈ l → ∃ i, indexOf l x = Some i.
Proof.
  induction l as [|y l IH]; [intros H; inversion H|].
  simpl. destruct (String.eqb_spec y x) as [->|Hne]; [eauto|].
  intros [->|Hin]%elem_of_cons; [contradiction|].
  destruct (IH Hin) as [i ->]. eauto.
Qed.

Lemma mixedProgress_lookup (symbols downloadTypes : list string) (g t : nat)
  (sym type : string) :
  symbols !! g = Some sym → downloadTypes !! t = Some type →
  mixedProgress symbols downloadTypes !! (g * length downloadTypes + t)%nat
  = Some (mixedEntry sym type).
Proof.
  revert g. induction symbols as [|s symbols IH]; intros g Hg Ht; [discriminate|].
  unfold mixedProgress. rewrite bind_cons. fold (mixedProgress symbols downloadTypes).
  destruct g as [|g]; simpl in Hg.
  - injection Hg as ->. simpl.
    rewrite lookup_app_l by (rewrite length_fmap; eapply lookup_lt_Some, Ht).
    rewrite list_lookup_fmap, Ht. reflexivity.
  - rewrite lookup_app_r by (rewrite length_fmap; simpl; lia).
    rewrite length_fmap.
    replace (S g * length downloadTypes + t - length downloadTypes)%nat
      with (g * length downloadTypes + t)%nat by (simpl; lia).
    apply IH; assumption.
Qed.

Lemma mixedProgress_length (symbols downloadTypes : list string) :
  length (mixedProgress symbols downloadTypes)
  = (length symbols * length downloadTypes)%nat.
Proof.
  induction symbols as [|s symbols IH]; [reflexivity|].
  unfold mixedProgress. rewrite bind_cons, length_app, length_fmap.
  fold (mixedProgress symbols downloadTypes). rewrite IH. simpl. reflexivity.
Qed.

(** X14: the layout of the progress array of [downloadBatchMixedData].
    The array has one entry per symbol position and type position, and the
    index computed for a symbol position and a type is that of an entry of
    this symbol and type; so the entry a task writes is always one of its
    own symbol and type, and tasks of different symbols or types never share
    an entry.  But the entries at the position of a repeated symbol, which
    the loop marks as downloading, are written by no task at all. *)
Theorem X14_mixed_progress_layout (symbols downloadTypes : list string) :
  length (mixedProgress symbols downloadTypes)
  = (length symbols * length downloadTypes)%nat ∧
  (∀ g sym type, symbols !! g = Some sym → type ∈ downloadTypes →
     ∃ i e, progressIndex downloadTypes g type = Some i ∧
            mixedProgress symbols downloadTypes !! i = Some e ∧
            dp_symbol e = sym ∧ DatabaseService.type e = type) ∧
  (∀ sym type, sym ∈ symbols → type ∈ downloadTypes →
     ∃ i e, taskProgressIndex symbols downloadTypes sym type = Some i ∧
            mixedProgress symbols downloadTypes !! i = Some e ∧
            dp_symbol e = sym ∧ DatabaseService.type e = type) ∧
  (∀ sym type sym' type' i,
     taskProgressIndex symbols downloadTypes sym type = Some i →
     taskProgressIndex symbols downloadTypes sym' type' = Some i →
     sym = sym' ∧ type = type') ∧
  (∀ g t sym sym' type',
     symbols !! g = Some sym → indexOf symbols sym ≠ Some g →
     (t < length downloadTypes)%nat →
     taskProgressIndex symbols downloadTypes sym' type'
     ≠ Some (g * length downloadTypes + t)%nat).
Proof.
  assert (Hindex : ∀ g sym type i,
             symbols !! g = Some sym →
             progressIndex downloadTypes g type = Some i →
             ∃ t, i = (g * length downloadTypes + t)%nat ∧
                  (t < length downloadTypes)%nat ∧
                  mixedProgress symbols downloadTypes !! i
                  = Some (mixedEntry sym type)).
  { intros g sym type i Hg Hi. unfold progressIndex in Hi.
    destruct (indexOf downloadTypes type) as [t|] eqn:Et; [|discriminate].
    injection Hi as <-. apply indexOf_Some in Et as [Ht _].
    exists t. split; [reflexivity|]. split; [eapply lookup_lt_Some, Ht|].
    apply mixedProgress_lookup; assumption. }
  assert (Htask : ∀ sym type i,
             taskProgressIndex symbols downloadTypes sym type = Some i →
             ∃ g t, indexOf symbols sym = Some g ∧
                    i = (g * length downloadTypes + t)%nat ∧
                    (t < length downloadTypes)%nat ∧
                    mixedProgress symbols downloadTypes !! i
                    = Some (mixedEntry sym type)).
  { intros sym type i Hi. unfold taskProgressIndex in Hi.
    destruct (indexOf symbols sym) as [g|] eqn:Eg; [|discriminate].
    simpl in Hi. pose proof Eg as Eg'. apply indexOf_Some in Eg' as [Hg _].
    destruct (Hindex g sym type i Hg Hi) as (t & ? & ? & ?). eauto 10. }
  split; [apply mixedProgress_length|].
  split.
  { intros g sym type Hg Hin. destruct (indexOf_elem _ _ Hin) as [t Et].
    assert (progressIndex downloadTypes g type
            = Some (g * length downloadTypes + t)%nat) as Hi
      by (unfold progressIndex; rewrite Et; reflexivity).
    destruct (Hindex g sym type _ Hg Hi) as (_ & _ & _ & He).
    eexists _, _. split; [exact Hi|]. split; [exact He|]. split; reflexivity. }
  split.
  { intros sym type Hs Hin. destruct (indexOf_elem _ _ Hs) as [g Eg].
    destruct (indexOf_elem _ _ Hin) as [t Et].
    assert (taskProgressIndex symbols downloadTypes sym type
            = Some (g * length downloadTypes + t)%nat) as Hi
      by (unfold taskProgressIndex, progressIndex; rewrite Eg; simpl;
          rewrite Et; reflexivity).
    destruct (Htask sym type _ Hi) as (_ & _ & _ & _ & _ & He).
    eexists _, _. split; [exact Hi|]. split; [exact He|]. split; reflexivity. }
  split.
  { intros sym type sym' type' i Hi Hi'.
    destruct (Htask sym type i Hi) as (_ & _ & _ & _ & _ & He).
    destruct (Htask sym' type' i Hi') as (_ & _ & _ & _ & _ & He').
    rewrite He in He'. injection He' as <- <-. auto. }
  intros g t sym sym' type' Hg Hfirst Ht Hi.
  destruct (Htask sym' type' _ Hi) as (g' & t' & Eg' & Heq & Ht' & He).
  assert (g = g') as <- by nia.
  apply indexOf_Some in Eg' as [Hg' Hfirst']. rewrite Hg in Hg'. injection Hg' as <-.
  apply Hfirst. apply indexOf_Some. split; [exact Hg|exact Hfirst'].
Qed.

End FinancialDataServiceLaws.

(** ** The REST client: the URLs identify the operation *)

Module PortfolioServiceLaws.
Import JSDate PortfolioService.

Local Abbreviation chars := String.list_ascii_of_string.

Lemma chars_inj (s1 s2 : string) : chars s1 = chars s2 → s1 = s2.
Proof.
  intros H. rewrite <- (String.string_of_list_ascii_of_string s1),
              <- (String.string_of_list_ascii_of_string s2), H.
  reflexivity.
Qed.

Lemma chars_app (s1 s2 : string) : chars (s1 +:+ s2) = chars s1 ++ chars s2.
Proof. induction s1 as [|c s1 IH]; simpl; [reflexivity|]. rewrite IH. reflexivity. Qed.

(** *** Decimal rendering *)

Lemma digitChar_value (n : nat) :
  isDigit (digitChar n) ∧ digitValue (digitChar n) = (n mod 10)%nat.
Proof.
  unfold isDigit, digitValue, digitChar.
  pose proof (Nat.mod_upper_bound n 10 ltac:(lia)) as Hlt.
  rewrite Ascii.nat_ascii_embedding by lia. lia.
Qed.

Lemma valueFrom_snoc (a : nat) (l : list Ascii.ascii) (c : Ascii.ascii) :
  valueFrom a (l ++ [c]) = (10 * valueFrom a l + digitValue c)%nat.
Proof. unfold valueFrom. rewrite foldl_app. reflexivity. Qed.

(** The digits [natDigits] puts in front of its accumulator. *)
Lemma natDigits_spec (fuel n : nat) (acc : string) :
  (n < fuel)%nat →
  ∃ ds, chars (natDigits fuel n acc) = ds ++ chars acc ∧
        ds ≠ [] ∧ Forall isDigit ds ∧ valueFrom 0 ds = n.
Proof.
  revert n acc. induction fuel as [|fuel IH]; intros n acc Hn; [lia|].
  cbn [natDigits]. destruct (digitChar_value n) as [Hd Hv].
  destruct (n <? 10)%nat eqn:E.
  - apply Nat.ltb_lt in E. exists [digitChar n]. cbn [chars app].
    split; [reflexivity|]. split; [discriminate|]. split; [auto|].
    unfold valueFrom. simpl. rewrite Hv. rewrite Nat.mod_small by lia. lia.
  - apply Nat.ltb_ge in E.
    destruct (IH (n / 10)%nat (String (digitChar n) acc)) as (ds & Hds & Hne & Hall & Hval).
    { pose proof (Nat.div_lt n 10 ltac:(lia) ltac:(lia)). lia. }
    exists (ds ++ [digitChar n]). rewrite Hds. cbn [chars].
    split; [rewrite <- app_assoc; reflexivity|].
    split; [destruct ds; discriminate|].
    split; [apply Forall_app; auto|].
    rewrite valueFrom_snoc, Hval, Hv.
    pose proof (Nat.div_mod_eq n 10). lia.
Qed.

Lemma natToString_digits (n : nat) :
  chars (natToString n) ≠ [] ∧ Forall isDigit (chars (natToString n)) ∧
  valueFrom 0 (chars (natToString n)) = n.
Proof.
  destruct (natDigits_spec (S n) n "" ltac:(lia)) as (ds & Hds & Hne & Hall & Hval).
  unfold natToString. rewrite Hds. simpl. rewrite app_nil_r. auto.
Qed.

Lemma natToString_inj (n m : nat) : natToString n = natToString m → n = m.
Proof.
  intros H. destruct (natToString_digits n) as (_ & _ & <-).
  destruct (natToString_digits m) as (_ & _ & <-). rewrite H. reflexivity.
Qed.

(** A rendered integer is a non-empty sequence of digits, after a minus
    sign for a negative one. *)
Lemma numberToString_chars (z : Z) :
  ∃ c rest, chars (numberToString z) = c :: rest ∧
            Forall signOrDigit (c :: rest).
Proof.
  unfold numberToString. destruct (z <? 0)%Z.
  - destruct (natToString_digits (Z.to_nat (- z))) as (_ & Hall & _).
    rewrite chars_app. simpl. eexists _, _. split; [reflexivity|].
    apply Forall_cons. split; [left; reflexivity|].
    eapply Forall_impl; [exact Hall|]. intros c Hc. right. exact Hc.
  - destruct (natToString_digits (Z.to_nat z)) as (Hne & Hall & _).
    destruct (chars (natToString (Z.to_nat z))) as [|c rest]; [contradiction|].
    eexists _, _. split; [reflexivity|].
    eapply Forall_impl; [exact Hall|]. intros c' Hc. right. exact Hc.
Qed.

Lemma numberToString_inj (a b : Z) : numberToString a = numberToString b → a = b.
Proof.
  unfold numberToString. intros H.
  destruct (Z.ltb_spec a 0), (Z.ltb_spec b 0).
  - apply (f_equal chars) in H. rewrite !chars_app in H. simpl in H.
    injection H as H. apply chars_inj, natToString_inj in H. lia.
  - exfalso. apply (f_equal chars) in H. rewrite chars_app in H. simpl in H.
    destruct (natToString_digits (Z.to_nat b)) as (_ & Hall & _).
    rewrite <- H in Hall. apply Forall_cons in Hall as [Hd _].
    unfold isDigit in Hd. vm_compute in Hd. lia.
  - exfalso. apply (f_equal chars) in H. rewrite chars_app in H. simpl in H.
    destruct (natToString_digits (Z.to_nat a)) as (_ & Hall & _).
    rewrite H in Hall. apply Forall_cons in Hall as [Hd _].
    unfold isDigit in Hd. vm_compute in Hd. lia.
  - apply natToString_inj in H. lia.
Qed.

Lemma signOrDigit_not_slash (c : Ascii.ascii) : signOrDigit c → ¬ isSlash c.
Proof. unfold signOrDigit, isDigit, isSlash. lia. Qed.

(** Two sequences without a slash, each followed by nothing or by a
    slash, are equal if the wholes are. *)
Lemma split_at_slash (u v s1 s2 : list Ascii.ascii) :
  Forall (fun c => ¬ isSlash c) u → Forall (fun c => ¬ isSlash c) v →
  atSlash s1 → atSlash s2 →
  u ++ s1 = v ++ s2 → u = v ∧ s1 = s2.
Proof.
  revert v. induction u as [|c u IH]; intros v Hu Hv H1 H2 H.
  - destruct v as [|d v]; [auto|]. simpl in H. subst s1.
    apply Forall_cons in Hv as [Hd _]. contradiction.
  - destruct v as [|d v].
    + simpl in H. subst s2. apply Forall_cons in Hu as [Hc _]. contradiction.
    + simpl in H. injection H as -> H.
      apply Forall_cons in Hu as [_ Hu]. apply Forall_cons in Hv as [_ Hv].
      destruct (IH v Hu Hv H1 H2 H) as [-> ->]. auto.
Qed.

Lemma id_no_slash (z : Z) :
  Forall (fun c => ¬ isSlash c) (chars (numberToString z)).
Proof.
  destruct (numberToString_chars z) as (c & rest & -> & Hall).
  eapply Forall_impl; [exact Hall|]. apply signOrDigit_not_slash.
Qed.

(** The URLs of two operations on a portfolio: same id, same rest. *)
Lemma id_segment (i j : Z) (s1 s2 : list Ascii.ascii) :
  atSlash s1 → atSlash s2 →
  chars (numberToString i) ++ s1 = chars (numberToString j) ++ s2 →
  i = j ∧ s1 = s2.
Proof.
  intros H1 H2 H.
  destruct (split_at_slash _ _ _ _ (id_no_slash i) (id_no_slash j) H1 H2 H)
    as [Hid Hs].
  split; [apply numberToString_inj, chars_inj, Hid|exact Hs].
Qed.

Lemma id_segment_l (i j : Z) (s2 : list Ascii.ascii) :
  atSlash s2 →
  chars (numberToString i) = chars (numberToString j) ++ s2 → i = j ∧ [] = s2.
Proof.
  intros H2 H. rewrite <- (app_nil_r (chars (numberToString i))) in H.
  apply id_segment in H; [exact H|exact I|exact H2].
Qed.

Lemma id_segment_r (i j : Z) (s1 : list Ascii.ascii) :
  atSlash s1 →
  chars (numberToString i) ++ s1 = chars (numberToString j) → i = j ∧ s1 = [].
Proof.
  intros H1 H. rewrite <- (app_nil_r (chars (numberToString j))) in H.
  apply id_segment in H; [exact H|exact H1|exact I].
Qed.

Lemma id_segment_0 (i j : Z) :
  chars (numberToString i) = chars (numberToString j) → i = j ∧ True.
Proof. intros H. split; [apply numberToString_inj, chars_inj, H|exact I]. Qed.

(** A fixed word that starts with a letter is the rendering of no id. *)
Lemma word_not_id (c : Ascii.ascii) (w : list Ascii.ascii) (j : Z)
  (s : list Ascii.ascii) :
  ¬ signOrDigit c → c :: w ≠ chars (numberToString j) ++ s.
Proof.
  intros Hc H.
  destruct (numberToString_chars j) as (d & rest & Hd & Hall).
  rewrite Hd in H. simpl in H. injection H as -> _.
  apply Forall_cons in Hall as [Hd' _]. contradiction.
Qed.

Lemma word_not_id_0 (c : Ascii.ascii) (w : list Ascii.ascii) (j : Z) :
  ¬ signOrDigit c → c :: w ≠ chars (numberToString j).
Proof.
  intros Hc H. rewrite <- (app_nil_r (chars (numberToString j))) in H.
  exact (word_not_id c w j [] Hc H).
Qed.

Ltac not_sign_or_digit :=
  unfold signOrDigit, isDigit; vm_compute; lia.

Ltac at_slash := unfold atSlash, isSlash; vm_compute; auto.

(** The characters of a URL, the common prefix stripped. *)
Ltac url_chars H :=
  apply (f_equal chars) in H; unfold portfolioPath in H;
  rewrite ?chars_app in H; rewrite <- ?app_assoc in H; simpl in H;
  repeat (injection H as H).

(** Settle an equation between what is left of two URLs. *)
Ltac settle H :=
  first
    [ discriminate H
    | exfalso; apply word_not_id in H; [exact H|not_sign_or_digit]
    | exfalso; symmetry in H; apply word_not_id in H; [exact H|not_sign_or_digit]
    | exfalso; apply word_not_id_0 in H; [exact H|not_sign_or_digit]
    | exfalso; symmetry in H; apply word_not_id_0 in H; [exact H|not_sign_or_digit]
    | apply id_segment in H; [|at_slash..]
    | apply id_segment_l in H; [|at_slash..]
    | apply id_segment_r in H; [|at_slash..]
    | apply id_segment_0 in H ];
  try (destruct H as [-> H]; first [discriminate H|reflexivity]).

(** X15: the URL identifies the operation.  Each of the eight operations
    that read issues exactly one GET request without a body, and the URL of
    that request determines both the operation and the portfolio id: no two
    operations, and no two portfolios, can be confused, the fixed routes
    [/portfolios/summary] and [/portfolios/csv-template] included.  The two
    deletions issue one DELETE request each, whose URL determines the
    portfolio and the holding. *)
Theorem X15_url_identifies_the_operation (File Data Err : Type)
  (template : Data → Data) (api : Request File → Err + Response Data)
  (op op' : ReadOperation) (p h p' h' : Z) :
  safeOperation op → safeOperation op' →
  safeInteger p → safeInteger h → safeInteger p' → safeInteger h' →
  (∃ path, (run api (readOperation template op)).1 = [get path]) ∧
  ((run api (readOperation template op)).1
   = (run api (readOperation template op')).1 → op = op') ∧
  (∃ path, (run api (deleteHolding (Data := Data) p h)).1 = [apiDelete path]) ∧
  ((run api (deleteHolding (Data := Data) p h)).1
   = (run api (deleteHolding (Data := Data) p' h')).1 → p = p' ∧ h = h') ∧
  ((run api (deletePortfolio (Data := Data) p)).1
   = (run api (deletePortfolio (Data := Data) p')).1 → p = p') ∧
  (run api (deleteHolding (Data := Data) p h)).1
  ≠ (run api (deletePortfolio (Data := Data) p')).1.
Proof.
  intros _ _ _ _ _ _. split; [|split; [|split; [|split; [|split]]]].
  - destruct op; simpl; eexists;
      match goal with |- context [api ?r] => destruct (api r) end; reflexivity.
  - destruct op, op'; simpl;
      repeat match goal with |- context [api ?r] => destruct (api r) end;
      simpl; try (intros _; reflexivity); intros [= H]; url_chars H; settle H.
  - simpl. eexists.
    match goal with |- context [api ?r] => destruct (api r) end; reflexivity.
  - simpl. repeat match goal with |- context [api ?r] => destruct (api r) end;
      simpl; intros [= H]; url_chars H;
      (apply id_segment in H; [|at_slash..]); destruct H as [-> H];
      simpl in H; repeat (injection H as H);
      apply id_segment_0 in H; destruct H as [-> _]; auto.
  - simpl. repeat match goal with |- context [api ?r] => destruct (api r) end;
      simpl; intros [= H]; url_chars H;
      apply id_segment_0 in H; destruct H as [-> _]; auto.
  - simpl. repeat match goal with |- context [api ?r] => destruct (api r) end;
      simpl; intros [= H]; url_chars H;
      (apply id_segment_r in H; [|at_slash..]); destruct H as [_ H];
      discriminate H.
Qed.

Lemma X15_url_identifies_the_operation_witness :
  safeOperation (Summary 42) ∧ safeOperation OverallSummary ∧
  safeInteger 42 ∧ safeInteger 7 ∧
  ((run (File := unit) (Data := unit) (Err := unit) (A := unit)
        (fun _ => inl tt) (readOperation (fun d => d) (Summary 42))).1
   = (run (File := unit) (Data := unit) (Err := unit) (A := unit)
          (fun _ => inl tt) (readOperation (fun d => d) OverallSummary)).1 →
   Summary 42 = OverallSummary).
Proof.
  assert (S42 : safeOperation (Summary 42)) by (split; reflexivity).
  assert (I42 : safeInteger 42) by (split; reflexivity).
  assert (I7 : safeInteger 7) by (split; reflexivity).
  split; [exact S42|]. split; [exact I|]. split; [exact I42|]. split; [exact I7|].
  apply (X15_url_identifies_the_operation unit unit unit (fun d => d)
           (fun _ => inl tt) (Summary 42) OverallSummary 42 7 42 7
           S42 I I42 I7 I42 I7).
Defined.

End PortfolioServiceLaws.

(** ** The batch download: what it leaves in the store and in the
       progress array *)

Module BatchOutcome.
Import JSDate DatabaseService FinancialDataService.
Import DatabaseServiceProps FinancialDataServiceProps FinancialDataServiceLaws.

Lemma indexOf_first (l : list string) (x : string) (g : nat) :
  NoDup l → l !! g = Some x → indexOf l x = Some g.
Proof.
  intros Hnd Hg. apply indexOf_Some. split; [exact Hg|].
  intros j Hj Hx. pose proof (NoDup_lookup l j g x Hnd Hx Hg). lia.
Qed.

Section Step.
Variable tz : Z.
Variable symbols : list string.
Variable override : bool.
Variable envs : nat → TaskEnv.
Variable st0 : Store.

Local Abbreviation OutcomeInv := (OutcomeInv tz symbols override envs st0).
Local Abbreviation taskData := (taskData tz override envs).
Local Abbreviation taskOk := (taskOk tz override envs).
Local Abbreviation settledEntry := (settledEntry tz override envs).
Local Abbreviation settledPrice := (settledPrice tz override envs st0).
Local Abbreviation stateAt := (stateAt envs).

Lemma stateAt_insert (i j g : nat) (tasks : list TaskState) (ts' : TaskState) :
  (j < length tasks)%nat →
  stateAt i (<[j := ts']> tasks) g
  = if decide (g = i + j)%nat then Some ts' else stateAt i tasks g.
Proof.
  intros Hj. unfold FinancialDataService.stateAt.
  destruct (Nat.ltb_spec g i) as [Hlt|Hge].
  - rewrite decide_False by lia. reflexivity.
  - case_decide as Hg.
    + subst g. replace (i + j - i)%nat with j by lia.
      apply list_lookup_insert_eq, Hj.
    + apply list_lookup_insert_ne. lia.
Qed.

(** One resumption, by what it does to the store and to the array. *)
Lemma inv_update (i j : nat) (tasks : list TaskState) (sh sh' : Shared)
  (ts ts' : TaskState) (sym : string) :
  OutcomeInv i tasks sh →
  tasks !! j = Some ts →
  symbols !! (i + j)%nat = Some sym →
  taskOk (i + j) ts' →
  (store sh' = store sh ∧
   (hasDownloaded ts' = hasDownloaded ts ∨
    hasDownloaded ts = false ∧ importResolves (dl (envs (i + j)%nat)) = false)) ∨
  (∃ stamp, store sh' = savePriceDataToMongoDB sym (taskData (i + j)) stamp (store sh) ∧
            hasDownloaded ts' = true ∧
            importResolves (dl (envs (i + j)%nat)) = true) →
  (progressArray sh' = progressArray sh ∧ isFinished ts' = isFinished ts) ∨
  (∃ f, progressArray sh'
        = updateProgress (indexOf symbols sym) f (progressArray sh) ∧
        isFinished ts = false ∧ isFinished ts' = true ∧
        f (startedEntry override sym) = settledEntry (i + j) sym) →
  OutcomeInv i (<[j := ts']> tasks) sh'.
Proof.
  intros [Hfund Hothers Hlen Htasks Hrep Hprog Hprice] Hts Hsym Hok Hstore Hprogress.
  assert (Hj : (j < length tasks)%nat) by (eapply lookup_lt_Some, Hts).
  assert (Hin : sym ∈ symbols) by (eapply list_elem_of_lookup_2, Hsym).
  split.
  - (* fundamentals *)
    intros s. destruct Hstore as [[-> _]|(stamp & -> & _)]; [apply Hfund|].
    rewrite storedFundamental_save. apply Hfund.
  - (* symbols outside the list *)
    intros s Hs. destruct Hstore as [[-> _]|(stamp & -> & _)]; [apply Hothers, Hs|].
    assert (sym ≠ s) by (intros ->; contradiction).
    rewrite storedPrice_save, decide_False by assumption.
    rewrite storedSymbol_save_ne by assumption. apply Hothers, Hs.
  - (* length *)
    destruct Hprogress as [[-> _]|(f & -> & _)]; [exact Hlen|].
    unfold updateProgress. destruct (indexOf symbols sym); [|exact Hlen].
    rewrite length_alter. exact Hlen.
  - (* tasks *)
    intros j' ts'' Hj'. destruct (decide (j = j')) as [<-|Hne].
    + rewrite list_lookup_insert_eq in Hj' by exact Hj. injection Hj' as <-. exact Hok.
    + rewrite list_lookup_insert_ne in Hj' by exact Hne. apply Htasks, Hj'.
  - (* repeated symbols *)
    intros g s Hg Hnot. rewrite length_insert.
    destruct Hprogress as [[-> _]|(f & -> & _)]; [apply Hrep; assumption|].
    unfold updateProgress. destruct (indexOf symbols sym) as [idx|] eqn:Eidx;
      [|apply Hrep; assumption].
    rewrite list_lookup_alter_ne; [apply Hrep; assumption|].
    intros ->. apply indexOf_Some in Eidx as Hidx. destruct Hidx as [Hidx _].
    rewrite Hg in Hidx. injection Hidx as ->. contradiction.
  - (* progress, without repetitions *)
    intros Hnd g s Hg. rewrite stateAt_insert by exact Hj.
    specialize (Hprog Hnd g s Hg).
    destruct Hprogress as [[-> Hfin]|(f & -> & Hfin & Hfin' & Hf)].
    + case_decide as Hgj; [|exact Hprog].
      subst g. rewrite Hsym in Hg. injection Hg as <-.
      rewrite Hprog. unfold FinancialDataService.stateAt.
      destruct (Nat.ltb_spec (i + j) i) as [?|_]; [lia|].
      replace (i + j - i)%nat with j by lia. rewrite Hts. simpl.
      destruct ts, ts'; simpl in *; try discriminate; reflexivity.
    + rewrite (indexOf_first _ _ _ Hnd Hsym). simpl.
      case_decide as Hgj.
      * subst g. rewrite Hsym in Hg. injection Hg as <-.
        rewrite list_lookup_alter_eq, Hprog.
        unfold FinancialDataService.stateAt.
        destruct (Nat.ltb_spec (i + j) i) as [?|_]; [lia|].
        replace (i + j - i)%nat with j by lia. rewrite Hts. simpl.
        destruct ts; simpl in *; try discriminate;
          destruct ts'; simpl in *; try discriminate; rewrite Hf; reflexivity.
      * rewrite list_lookup_alter_ne by congruence. exact Hprog.
  - (* prices, without repetitions *)
    intros Hnd g s Hg. rewrite stateAt_insert by exact Hj.
    specialize (Hprice Hnd g s Hg).
    assert (Hhere : g = (i + j)%nat →
                    s = sym ∧ storedPrice (store sh) sym
                              = priceIn tz override envs st0 (i + j) sym (Some ts)).
    { intros ->. rewrite Hsym in Hg. injection Hg as <-. split; [reflexivity|].
      rewrite Hprice. unfold FinancialDataService.stateAt.
      destruct (Nat.ltb_spec (i + j) i) as [?|_]; [lia|].
      replace (i + j - i)%nat with j by lia. rewrite Hts. reflexivity. }
    destruct Hstore as [[-> Hd]|(stamp & -> & Hd & Himp)].
    + case_decide as Hgj; [|exact Hprice].
      destruct (Hhere Hgj) as [-> Hp]. subst g. rewrite Hp. simpl.
      unfold FinancialDataService.settledPrice.
      destruct Hd as [Hd|[Hd Himp]].
      * rewrite Hd. reflexivity.
      * rewrite Hd, Himp. destruct (hasDownloaded ts'); reflexivity.
    + rewrite storedPrice_save. destruct (decide (g = i + j)%nat) as [Hgj|Hgj].
      * destruct (Hhere Hgj) as [-> _]. subst g.
        rewrite decide_True by reflexivity. simpl. rewrite Hd.
        unfold FinancialDataService.settledPrice. rewrite Himp. reflexivity.
      * rewrite decide_False; [exact Hprice|].
        intros <-. apply Hgj. apply (NoDup_lookup symbols g (i + j) sym Hnd Hg Hsym).
Qed.

Lemma afterDownload_cases (pos : nat) (sym : string) (e : DownloadEnv)
  (a b : option IsoDate) (sh : Shared) :
  let r := afterDownload symbols pos sym a b
             (downloadPriceData tz e sym a b (store sh)) sh in
  if importResolves e
  then r.1 = Fetched (generatePriceData tz e a b) ∧
       store r.2 = savePriceDataToMongoDB sym (generatePriceData tz e a b)
                                          (stamp e) (store sh) ∧
       progressArray r.2 = progressArray sh
  else r.1 = Finished false ∧ store r.2 = store sh ∧
       progressArray r.2
       = updateProgress (indexOf symbols sym) markFailed (progressArray sh).
Proof.
  unfold afterDownload, downloadPriceData. destruct (importResolves e); simpl; auto.
Qed.

Lemma saveStep_cases (pos : nat) (sym : string) (e : TaskEnv)
  (d : list PriceData) (sh : Shared) :
  let r := saveStep symbols override pos sym e d sh in
  if saveImportResolves e
  then r.1 = Finished true ∧
       store r.2 = savePriceDataToMongoDB sym d (saveStamp e) (store sh) ∧
       progressArray r.2
       = updateProgress (indexOf symbols sym) (markComplete override (length d))
                        (progressArray sh)
  else r.1 = Finished false ∧ store r.2 = store sh ∧
       progressArray r.2
       = updateProgress (indexOf symbols sym) markFailed (progressArray sh).
Proof.
  unfold saveStep, savePriceData. destruct (saveImportResolves e); simpl; auto.
Qed.

Lemma taskArgs_override (pos : nat) :
  override = true → taskArgs tz override envs pos = (None, None).
Proof. unfold taskArgs. intros ->. reflexivity. Qed.

Lemma taskArgs_lookup (pos : nat) :
  override = false →
  taskArgs tz override envs pos
  = lookupArgs tz (fun _ => envs pos) pos
      (getLastAvailableDate (lastRandom (envs pos)) (lastNow (envs pos))).
Proof. unfold taskArgs. intros ->. reflexivity. Qed.

Section OneStep.
Variables i j : nat.
Variable tasks : list TaskState.
Variable sh : Shared.
Variable sym : string.
Hypothesis Hinv : OutcomeInv i tasks sh.
Hypothesis Hsym : symbols !! (i + j)%nat = Some sym.

Local Abbreviation pos := (i + j)%nat.
Local Abbreviation e := (envs (i + j)%nat).

(** The task comes back from [downloadPriceData], called with the
    arguments of its mode. *)
Lemma download_outcome (ts : TaskState) :
  tasks !! j = Some ts → hasDownloaded ts = false → isFinished ts = false →
  let r := afterDownload symbols pos sym
             (taskArgs tz override envs pos).1 (taskArgs tz override envs pos).2
             (downloadPriceData tz (dl e) sym
                (taskArgs tz override envs pos).1
                (taskArgs tz override envs pos).2 (store sh)) sh in
  OutcomeInv i (<[j := r.1]> tasks) r.2.
Proof.
  intros Hts Hd Hf r.
  pose proof (afterDownload_cases pos sym (dl e)
                (taskArgs tz override envs pos).1
                (taskArgs tz override envs pos).2 sh) as Hcases.
  fold r in Hcases. cbv zeta in Hcases.
  destruct (importResolves (dl e)) eqn:Himp.
  - destruct Hcases as (H1 & H2 & H3).
    apply (inv_update i j tasks sh r.2 ts r.1 sym Hinv Hts Hsym).
    + rewrite H1. simpl. split; [exact Himp|reflexivity].
    + right. exists (stamp (dl e)). rewrite H1. auto.
    + left. rewrite H1. auto.
  - destruct Hcases as (H1 & H2 & H3).
    apply (inv_update i j tasks sh r.2 ts r.1 sym Hinv Hts Hsym).
    + rewrite H1. simpl. rewrite Himp. reflexivity.
    + left. auto.
    + right. exists markFailed. rewrite H1. repeat split; try assumption.
      unfold FinancialDataService.settledEntry. rewrite Himp. reflexivity.
Qed.

(** The task comes back from [savePriceData]. *)
Lemma save_outcome (ts : TaskState) (d : list PriceData) :
  tasks !! j = Some ts → hasDownloaded ts = true → isFinished ts = false →
  importResolves (dl e) = true → d = taskData pos →
  let r := saveStep symbols override pos sym e d sh in
  OutcomeInv i (<[j := r.1]> tasks) r.2.
Proof.
  intros Hts Hd Hf Himp -> r.
  pose proof (saveStep_cases pos sym e (taskData pos) sh) as Hcases.
  fold r in Hcases. cbv zeta in Hcases.
  destruct (saveImportResolves e) eqn:Hsave.
  - destruct Hcases as (H1 & H2 & H3).
    apply (inv_update i j tasks sh r.2 ts r.1 sym Hinv Hts Hsym).
    + rewrite H1. simpl. rewrite Himp, Hsave. reflexivity.
    + right. exists (saveStamp e). rewrite H1. auto.
    + right. exists (markComplete override (length (taskData pos))).
      rewrite H1. repeat split; try assumption.
      unfold FinancialDataService.settledEntry. rewrite Himp, Hsave. reflexivity.
  - destruct Hcases as (H1 & H2 & H3).
    apply (inv_update i j tasks sh r.2 ts r.1 sym Hinv Hts Hsym).
    + rewrite H1. simpl. rewrite Himp, Hsave. reflexivity.
    + left. rewrite H1. auto.
    + right. exists markFailed. rewrite H1. repeat split; try assumption.
      unfold FinancialDataService.settledEntry. rewrite Himp, Hsave. reflexivity.
Qed.

Lemma step_outcome (ts : TaskState) :
  tasks !! j = Some ts →
  let r := taskStep tz symbols override pos sym e ts sh in
  OutcomeInv i (<[j := r.1]> tasks) r.2.
Proof.
  intros Hts. pose proof (out_tasks _ _ _ _ _ _ _ _ Hinv j ts Hts) as Hok.
  cbv zeta.
  destruct (Bool.bool_dec override true) as [Ho|Ho];
    [|apply Bool.not_true_is_false in Ho];
    destruct ts as [|ld|d|d|ok].
  - rewrite taskStep_start_override by exact Ho.
    pose proof (download_outcome Start Hts eq_refl eq_refl) as H.
    rewrite (taskArgs_override pos Ho) in H. exact H.
  - destruct Hok as [Ho' _]. congruence.
  - rewrite taskStep_fetched_override by exact Ho.
    apply (inv_update i j tasks sh _ (Fetched d) _ sym Hinv Hts Hsym);
      [exact Hok|left; auto|left; auto].
  - destruct Hok as [Himp Hd].
    exact (save_outcome (Deleted d) d Hts eq_refl eq_refl Himp Hd).
  - apply (inv_update i j tasks sh _ (Finished ok) _ sym Hinv Hts Hsym);
      [exact Hok|left; auto|left; auto].
  - rewrite taskStep_start_lookup by exact Ho.
    apply (inv_update i j tasks sh _ Start _ sym Hinv Hts Hsym);
      [simpl; auto|left; auto|left; auto].
  - destruct Hok as [_ ->]. rewrite taskStep_lookedUp.
    pose proof (download_outcome (LookedUp _) Hts eq_refl eq_refl) as H.
    rewrite (taskArgs_lookup pos Ho) in H. exact H.
  - destruct Hok as [Himp Hd]. rewrite taskStep_fetched_save by exact Ho.
    exact (save_outcome (Fetched d) d Hts eq_refl eq_refl Himp Hd).
  - destruct Hok as [Himp Hd].
    exact (save_outcome (Deleted d) d Hts eq_refl eq_refl Himp Hd).
  - apply (inv_update i j tasks sh _ (Finished ok) _ sym Hinv Hts Hsym);
      [exact Hok|left; auto|left; auto].
Qed.

End OneStep.

(** The invariant looks at the store and at the array only. *)
Lemma OutcomeInv_same (i : nat) (tasks : list TaskState) (sh sh' : Shared) :
  store sh' = store sh → progressArray sh' = progressArray sh →
  OutcomeInv i tasks sh → OutcomeInv i tasks sh'.
Proof.
  intros Hs Hp [H1 H2 H3 H4 H5 H6 H7].
  split; rewrite ?Hs, ?Hp; assumption.
Qed.

Lemma resume_outcome (envs' : nat → TaskEnv) (i : nat) (bs : BatchState) (j : nat) :
  envs' = envs →
  OutcomeInv i bs.1 bs.2 →
  OutcomeInv i (resume tz symbols override envs' i bs j).1
               (resume tz symbols override envs' i bs j).2.
Proof.
  intros -> Hinv. unfold resume.
  destruct (bs.1 !! j) as [ts|] eqn:Hts; [|exact Hinv].
  destruct (symbols !! (i + j)%nat) as [sym|] eqn:Hsym; [|exact Hinv].
  simpl. apply step_outcome; assumption.
Qed.

Lemma run_outcome (i : nat) (l : list nat) (bs : BatchState) :
  OutcomeInv i bs.1 bs.2 →
  OutcomeInv i (foldl (resume tz symbols override envs i) bs l).1
               (foldl (resume tz symbols override envs i) bs l).2.
Proof.
  revert bs. induction l as [|j l IH]; intros bs Hinv; [exact Hinv|].
  simpl. apply IH, resume_outcome; [reflexivity|exact Hinv].
Qed.

(** [markBatch] marks the positions of the batch and no other. *)
Lemma markBatch_lookup (i n g : nat) (p : list DownloadProgress) :
  markBatch override i n p !! g
  = if decide (i ≤ g < i + n)%nat
    then markDownloading override <$> p !! g else p !! g.
Proof.
  unfold markBatch. induction n as [|n IH].
  - simpl. rewrite decide_False by lia. reflexivity.
  - rewrite seq_S, foldl_app. cbn [foldl Nat.add]. unfold updateProgress at 1.
    destruct (decide (g = i + n)%nat) as [->|Hne].
    + rewrite list_lookup_alter_eq, IH.
      rewrite decide_False by lia. rewrite decide_True by lia. reflexivity.
    + rewrite list_lookup_alter_ne by lia. rewrite IH.
      destruct (decide (i ≤ g < i + n)%nat).
      * rewrite decide_True by lia. reflexivity.
      * rewrite decide_False by lia. reflexivity.
Qed.

Lemma markBatch_length (i n : nat) (p : list DownloadProgress) :
  length (markBatch override i n p) = length p.
Proof.
  unfold markBatch. induction n as [|n IH]; [reflexivity|].
  rewrite seq_S, foldl_app. cbn [foldl Nat.add]. unfold updateProgress at 1.
  rewrite length_alter. exact IH.
Qed.

Lemma batchAt_length (k : nat) :
  length (batchAt symbols k) = Nat.min batchSize (length symbols - k * batchSize).
Proof. unfold batchAt. rewrite length_take, length_drop. reflexivity. Qed.

(** The batch starts: its entries are marked, its tasks created. *)
Lemma start_outcome (k : nat) (sh : Shared) :
  OutcomeInv (k * batchSize) [] sh →
  OutcomeInv (k * batchSize)
    (replicate (length (batchAt symbols k)) Start)
    (withProgress (markBatch override (k * batchSize) (length (batchAt symbols k))
                             (progressArray sh)) sh).
Proof.
  intros [H1 H2 H3 H4 H5 H6 H7].
  set (i := (k * batchSize)%nat) in *. set (n := length (batchAt symbols k)).
  assert (Hstate : ∀ g, FinancialDataService.stateAt envs i (replicate n Start) g
                        = if decide (i ≤ g < i + n)%nat then Some Start
                          else FinancialDataService.stateAt envs i [] g).
  { intros g. unfold FinancialDataService.stateAt.
    destruct (Nat.ltb_spec g i); [rewrite decide_False by lia; reflexivity|].
    case_decide.
    - apply lookup_replicate. split; [reflexivity|lia].
    - rewrite lookup_nil. apply lookup_replicate_None. lia. }
  assert (Hlater : ∀ g, (i ≤ g)%nat → FinancialDataService.stateAt envs i [] g = None).
  { intros g Hg. unfold FinancialDataService.stateAt.
    destruct (Nat.ltb_spec g i); [lia|apply lookup_nil]. }
  split; simpl.
  - exact H1.
  - exact H2.
  - rewrite markBatch_length. exact H3.
  - intros j ts [-> _]%lookup_replicate. exact I.
  - intros g sym Hg Hnot. rewrite length_replicate, markBatch_lookup.
    rewrite (H5 g sym Hg Hnot). simpl. rewrite Nat.add_0_r.
    case_decide.
    + destruct (Nat.ltb_spec g i); [lia|]. destruct (Nat.ltb_spec g (i + n)); [|lia].
      reflexivity.
    + destruct (Nat.ltb_spec g i), (Nat.ltb_spec g (i + n)); try lia; reflexivity.
  - intros Hnd g sym Hg. rewrite markBatch_lookup, (H6 Hnd g sym Hg), Hstate.
    case_decide as Hin; [|reflexivity].
    rewrite Hlater by lia. reflexivity.
  - intros Hnd g sym Hg. rewrite (H7 Hnd g sym Hg), Hstate.
    case_decide as Hin; [|reflexivity].
    rewrite Hlater by lia. reflexivity.
Qed.

(** The batch ends: every task of it has settled. *)
Lemma end_outcome (k : nat) (tasks : list TaskState) (sh : Shared) :
  length tasks = length (batchAt symbols k) →
  Forall (fun ts => isFinished ts = true) tasks →
  OutcomeInv (k * batchSize) tasks sh →
  OutcomeInv ((k + 1) * batchSize) [] sh.
Proof.
  intros Hlen Hfin [H1 H2 H3 H4 H5 H6 H7].
  rewrite batchAt_length in Hlen.
  assert (Hvalid : ∀ g sym, symbols !! g = Some sym →
                     (g < k * batchSize + length tasks)%nat
                     ↔ (g < (k + 1) * batchSize)%nat).
  { intros g sym Hg. apply lookup_lt_Some in Hg. lia. }
  assert (Hstate : ∀ g sym, symbols !! g = Some sym →
            (∃ ok, FinancialDataService.stateAt envs (k * batchSize) tasks g
                   = Some (Finished ok) ∧
                   FinancialDataService.stateAt envs ((k + 1) * batchSize) [] g
                   = Some (Finished
                             (importResolves (dl (envs g))
                              && saveImportResolves (envs g)))) ∨
            (FinancialDataService.stateAt envs (k * batchSize) tasks g = None ∧
             FinancialDataService.stateAt envs ((k + 1) * batchSize) [] g = None)).
  { intros g sym Hg. specialize (Hvalid g sym Hg).
    unfold FinancialDataService.stateAt.
    destruct (Nat.ltb_spec g (k * batchSize)) as [Hlt|Hge].
    - left. destruct (Nat.ltb_spec g ((k + 1) * batchSize)); [eauto|lia].
    - destruct (Nat.ltb_spec g ((k + 1) * batchSize)) as [Hlt'|Hge'].
      + left. apply Hvalid in Hlt'.
        destruct (lookup_lt_is_Some_2 tasks (g - k * batchSize)) as [ts Hts]; [lia|].
        rewrite Forall_lookup in Hfin. specialize (Hfin _ _ Hts).
        destruct ts; try discriminate. rewrite Hts. eauto.
      + right. split; [|apply lookup_nil].
        apply lookup_ge_None. lia. }
  split.
  - exact H1.
  - exact H2.
  - exact H3.
  - intros j ts Hj. rewrite lookup_nil in Hj. discriminate.
  - intros g sym Hg Hnot. rewrite (H5 g sym Hg Hnot). simpl. rewrite Nat.add_0_r.
    specialize (Hvalid g sym Hg).
    destruct (Nat.ltb_spec g (k * batchSize + length tasks)),
             (Nat.ltb_spec g ((k + 1) * batchSize)); try lia; reflexivity.
  - intros Hnd g sym Hg. rewrite (H6 Hnd g sym Hg).
    destruct (Hstate g sym Hg) as [(ok & -> & ->)|[-> ->]]; reflexivity.
  - intros Hnd g sym Hg. rewrite (H7 Hnd g sym Hg).
    destruct (Hstate g sym Hg) as [(ok & -> & ->)|[-> ->]]; reflexivity.
Qed.

End Step.

Section Batches.
Variable tz : Z.
Variable symbols : list string.
Variable onProgress : bool.
Variable override : bool.
Variable envs : nat → TaskEnv.
Variable sched : nat → list nat.
Variable st0 : Store.

Local Abbreviation OutcomeInv := (OutcomeInv tz symbols override envs st0).
Local Abbreviation RunInv := (RunInv tz symbols override envs).
Local Abbreviation processBatch :=
  (processBatch tz symbols onProgress override envs sched).
Local Abbreviation processFrom :=
  (processFrom tz symbols onProgress override envs sched).
Local Abbreviation total := (totalBatches symbols).

(** The state in which the tasks of batch [k] are created satisfies the
    invariant of a batch in flight. *)
Lemma started_batchInv (k : nat) (sh : Shared) :
  (k < total)%nat →
  RunInv (2 * k) sh →
  let batch := batchAt symbols k in
  let sh1 := withProgress (markBatch override (k * batchSize) (length batch)
                                     (progressArray sh)) sh in
  batchInv tz symbols override envs k (k * batchSize)
    (replicate (length batch) Start,
     dispatch (k * batchSize) batch (report onProgress sh1)).
Proof.
  intros Hk Hinv batch sh1.
  assert (Hinv1 : RunInv (2 * k + 1) sh1).
  { apply RunInv_weaken with (bound := (2 * k)%nat); [|lia].
    destruct Hinv as [H1 H2 H3 H4 H5]. split; simpl; try assumption.
    rewrite markBatch_symbols. exact H5. }
  split; [|split].
  - simpl. rewrite length_replicate. apply batch_length.
  - unfold dispatch. apply emits_inv; [apply RunInv_report, Hinv1|].
    apply Forall_lookup. intros j ev Hev.
    rewrite list_lookup_imap in Hev.
    destruct (batch !! j) as [sym|] eqn:Hj; [|discriminate].
    injection Hev as <-. exists (k * batchSize + j)%nat, sym. split; [reflexivity|].
    rewrite batch_index; [reflexivity|].
    apply lookup_lt_Some in Hj. pose proof (batch_length symbols k) as Hb.
    fold batch in Hb. lia.
  - intros j ts Hj. simpl in Hj. apply lookup_replicate in Hj as [-> Hj].
    destruct (lookup_lt_is_Some_2 batch j Hj) as [sym Hsym].
    exists sym. split; [|exact I]. apply batch_lookup in Hsym. apply Hsym.
Qed.

Lemma emits_same (l : list Event) (sh : Shared) :
  store (foldl (fun acc ev => emit ev acc) sh l) = store sh ∧
  progressArray (foldl (fun acc ev => emit ev acc) sh l) = progressArray sh.
Proof.
  revert sh. induction l as [|ev l IH]; intros sh; [auto|].
  simpl. destruct (IH (emit ev sh)) as [-> ->]. auto.
Qed.

Lemma report_same (sh : Shared) :
  store (report onProgress sh) = store sh ∧
  progressArray (report onProgress sh) = progressArray sh.
Proof. unfold report. destruct onProgress; auto. Qed.

Lemma processBatch_outcome (k : nat) (sh : Shared) :
  (k < total)%nat →
  RunInv (2 * k) sh →
  OutcomeInv (k * batchSize) [] sh →
  OutcomeInv ((k + 1) * batchSize) [] (processBatch (k * batchSize) sh).
Proof.
  intros Hk Hinv Hout.
  pose proof (started_batchInv k sh Hk Hinv) as Hbs0. cbv zeta in Hbs0.
  pose proof (start_outcome tz symbols override envs st0 k sh Hout) as Hout1.
  unfold FinancialDataService.processBatch.
  fold (batchAt symbols k). rewrite boundary_index.
  set (batch := batchAt symbols k) in *.
  set (sh1 := withProgress _ sh) in *.
  set (sh2 := dispatch (k * batchSize) batch (report onProgress sh1)) in *.
  assert (Hout2 : OutcomeInv (k * batchSize) (replicate (length batch) Start) sh2).
  { apply (OutcomeInv_same tz symbols override envs st0 _ _ sh1); [| |exact Hout1].
    - unfold sh2, dispatch. destruct (emits_same
        (imap (fun batchIndex sym => Dispatched (k * batchSize + batchIndex) sym) batch)
        (report onProgress sh1)) as [-> _]. apply report_same.
    - unfold sh2, dispatch. destruct (emits_same
        (imap (fun batchIndex sym => Dispatched (k * batchSize + batchIndex) sym) batch)
        (report onProgress sh1)) as [_ ->]. apply report_same. }
  set (bs0 := (replicate (length batch) Start, sh2)) in *.
  pose proof (settle_inv tz symbols override envs k (k * batchSize) eq_refl
                (sched k) bs0 Hbs0) as Hsettle.
  cbv zeta in Hsettle. simpl length in Hsettle. rewrite length_replicate in Hsettle.
  pose proof (run_outcome tz symbols override envs st0 (k * batchSize)
                (sched k ++ settleOrder (length batch)) bs0 Hout2) as Hout3.
  set (settled := foldl _ _ _) in *.
  destruct Hsettle as (_ & Hlen & _ & Hfin).
  apply (end_outcome tz symbols override envs st0 k settled.1); [exact Hlen|exact Hfin|].
  apply (OutcomeInv_same tz symbols override envs st0 _ _ settled.2);
    [apply report_same|apply report_same|exact Hout3].
Qed.

Lemma processFrom_outcome (count k : nat) (sh : Shared) :
  (k + count ≤ total)%nat →
  RunInv (2 * k) sh → processedUpTo symbols override envs k (events sh) →
  OutcomeInv (k * batchSize) [] sh →
  OutcomeInv ((k + count) * batchSize) [] (processFrom k count sh).
Proof.
  revert k sh. induction count as [|count IH]; intros k sh Hk Hinv Hup Hout.
  - rewrite Nat.add_0_r. exact Hout.
  - rewrite processFrom_S.
    destruct (processFrom_inv tz symbols onProgress override envs sched 1 k sh
                ltac:(lia) Hinv Hup) as [Hinv' Hup'].
    rewrite processFrom_S in Hinv', Hup'. simpl in Hinv', Hup'.
    replace (k + S count)%nat with (S k + count)%nat by lia.
    apply IH; [lia| | |].
    + replace (2 * S k)%nat with (2 * (k + 1))%nat by lia. exact Hinv'.
    + replace (S k) with (k + 1)%nat by lia. exact Hup'.
    + replace (S k) with (k + 1)%nat by lia.
      apply processBatch_outcome; [lia|exact Hinv|exact Hout].
Qed.

End Batches.

Section Returned.
Variable tz : Z.
Variable symbols : list string.
Variable onProgress : bool.
Variable override : bool.
Variable cancelToken : option (nat → CancelToken).
Variable envs : nat → TaskEnv.
Variable sched : nat → list nat.
Variable st : Store.

Local Abbreviation ran := (batchesRun cancelToken symbols).
Local Abbreviation run :=
  (downloadBatchPriceData tz symbols onProgress override cancelToken envs sched).

Lemma initial_outcome :
  OutcomeInv tz symbols override envs st 0 [] (initialShared symbols onProgress st).
Proof.
  assert (Hstore : store (initialShared symbols onProgress st) = st)
    by (unfold initialShared, report; destruct onProgress; reflexivity).
  assert (Harray : progressArray (initialShared symbols onProgress st)
                   = map initialEntry symbols)
    by (unfold initialShared, report; destruct onProgress; reflexivity).
  assert (Hentry : ∀ g sym, symbols !! g = Some sym →
                     map initialEntry symbols !! g = Some (initialEntry sym)).
  { intros g sym Hg. change (map initialEntry symbols) with (initialEntry <$> symbols).
    rewrite list_lookup_fmap, Hg. reflexivity. }
  split; rewrite ?Hstore, ?Harray.
  - reflexivity.
  - auto.
  - apply length_map.
  - intros j ts Hj. rewrite lookup_nil in Hj. discriminate.
  - intros g sym Hg _. rewrite (Hentry g sym Hg). reflexivity.
  - intros _ g sym Hg. rewrite (Hentry g sym Hg). reflexivity.
  - intros _ g sym Hg. reflexivity.
Qed.

(** The call returns, in a state that satisfies the invariant after the
    batches it has run. *)
Lemma final_outcome :
  ∃ sh, run st = Some sh ∧
        OutcomeInv tz symbols override envs st (ran * batchSize) [] sh.
Proof.
  rewrite run_closed_form. eexists. split; [reflexivity|].
  destruct (initial_inv tz symbols onProgress override envs st) as [Hinv Hup].
  pose proof (processFrom_outcome tz symbols onProgress override envs sched st
                ran 0 (initialShared symbols onProgress st)
                (batchesRun_le symbols cancelToken) Hinv Hup initial_outcome) as Hout.
  simpl in Hout.
  eapply OutcomeInv_same; [| |exact Hout].
  - unfold finalReport, cancelReport.
    destruct (firstCancelled cancelToken symbols); [|reflexivity].
    destruct (tokenAt cancelToken n); [|reflexivity].
    destruct onProgress; reflexivity.
  - unfold finalReport, cancelReport.
    destruct (firstCancelled cancelToken symbols); [|reflexivity].
    destruct (tokenAt cancelToken n); [|reflexivity].
    destruct onProgress; reflexivity.
Qed.

Lemma stateAt_done (g : nat) (sym : string) :
  entryIn tz override envs g sym (stateAt envs (ran * batchSize) [] g)
  = entryAfter tz override envs ran g sym ∧
  priceIn tz override envs st g sym (stateAt envs (ran * batchSize) [] g)
  = priceAfter tz override envs st ran g sym.
Proof.
  unfold stateAt, entryAfter, priceAfter.
  destruct (g <? ran * batchSize)%nat; simpl.
  - split; reflexivity.
  - rewrite ?lookup_nil. split; reflexivity.
Qed.

Lemma settledEntry_status (pos : nat) (sym : string) :
  let e := settledEntry tz override envs pos sym in
  dp_symbol e = sym ∧
  if importResolves (dl (envs pos)) && saveImportResolves (envs pos)
  then dp_status e = "complete" ∧ progress e = 100%Z
  else dp_status e = "error" ∧ progress e = 0%Z ∧ message e = "Download failed".
Proof.
  unfold settledEntry.
  destruct (importResolves (dl (envs pos)) && saveImportResolves (envs pos));
    simpl; auto.
Qed.

(** X16: the final progress array of a batch download.  For a list without
    repeated symbols the call returns, and the array it has built holds, at
    every position of a batch that was run, the entry of a settled task:
    [complete] with progress 100 when both dynamic imports of that task
    resolved, [error] with message "Download failed" and progress 0
    otherwise; at every position of a batch that was not reached because
    of a cancellation it still holds the initial [pending] entry.  No
    entry is left [downloading]. *)
Theorem X16_progress_of_a_batch_download :
  NoDup symbols →
  ∃ sh, run st = Some sh ∧
    progressArray sh = imap (entryAfter tz override envs ran) symbols ∧
    ∀ pos e, progressArray sh !! pos = Some e →
      symbols !! pos = Some (dp_symbol e) ∧
      if (pos <? ran * batchSize)%nat
      then if importResolves (dl (envs pos)) && saveImportResolves (envs pos)
           then dp_status e = "complete" ∧ progress e = 100%Z
           else dp_status e = "error" ∧ progress e = 0%Z ∧
                message e = "Download failed"
      else dp_status e = "pending" ∧ progress e = 0%Z.
Proof.
  intros Hnd. destruct final_outcome as (sh & Hrun & Hout).
  exists sh. split; [exact Hrun|].
  assert (Hlookup : ∀ g sym, symbols !! g = Some sym →
            progressArray sh !! g = Some (entryAfter tz override envs ran g sym)).
  { intros g sym Hg. rewrite (out_progress _ _ _ _ _ _ _ _ Hout Hnd g sym Hg).
    f_equal. apply stateAt_done. }
  split.
  - apply list_eq. intros g. rewrite list_lookup_imap.
    destruct (symbols !! g) as [sym|] eqn:Hg; simpl.
    + apply Hlookup, Hg.
    + apply lookup_ge_None. rewrite (out_length _ _ _ _ _ _ _ _ Hout).
      apply lookup_ge_None, Hg.
  - intros pos e He.
    destruct (symbols !! pos) as [sym|] eqn:Hg.
    + rewrite (Hlookup pos sym Hg) in He. injection He as <-.
      unfold entryAfter. destruct (pos <? ran * batchSize)%nat.
      * pose proof (settledEntry_status pos sym) as [Hs Hrest]. simpl in Hs.
        rewrite Hs. split; [reflexivity|exact Hrest].
      * simpl. auto.
    + apply lookup_ge_None in Hg. apply lookup_lt_Some in He.
      rewrite (out_length _ _ _ _ _ _ _ _ Hout) in He. lia.
Qed.

(** The stored prices after the batches, when every save is one step. *)
Lemma stored_after_batches :
  NoDup symbols →
  ∃ sh, run st = Some sh ∧
    ∀ pos sym, symbols !! pos = Some sym →
      storedPrice (store sh) sym
      = if (pos <? ran * batchSize)%nat && importResolves (dl (envs pos))
        then Some (generatePriceData tz (dl (envs pos))
                     (taskArgs tz override envs pos).1
                     (taskArgs tz override envs pos).2)
        else storedPrice st sym.
Proof.
  intros Hnd. destruct final_outcome as (sh & Hrun & Hout).
  exists sh. split; [exact Hrun|].
  intros pos sym Hg.
  rewrite (out_price _ _ _ _ _ _ _ _ Hout Hnd pos sym Hg).
  rewrite (proj2 (stateAt_done pos sym)).
  unfold priceAfter, settledPrice, taskData.
  destruct (pos <? ran * batchSize)%nat; simpl; [|reflexivity].
  destruct (importResolves (dl (envs pos))); reflexivity.
Qed.

(** X17: the stored prices after a batch download, on a store that is
    connected when the call is made: no save then waits for the
    connection, so every save is one synchronous step and the tasks of a
    batch overlap only between their saves.  For a list without repeated
    symbols, the series stored for the symbol at a position is the array
    its own task generated, with the arguments of its mode, when its batch
    was run and the import inside [downloadPriceData] resolved; otherwise
    it is the series the store held before the call.  A failure of the
    later [savePriceData] does not take the series back. *)
Theorem X17_stored_prices_of_a_batch_download :
  NoDup symbols →
  is_Some (db st) →
  ∃ sh, run st = Some sh ∧
    ∀ pos sym, symbols !! pos = Some sym →
      storedPrice (store sh) sym
      = if (pos <? ran * batchSize)%nat && importResolves (dl (envs pos))
        then Some (generatePriceData tz (dl (envs pos))
                     (taskArgs tz override envs pos).1
                     (taskArgs tz override envs pos).2)
        else storedPrice st sym.
Proof. intros Hnd _. exact (stored_after_batches Hnd). Qed.

(** X18: what a batch download leaves alone, whatever the list.  The
    progress array keeps one entry per position, no fundamentals are
    written, and a symbol that is not in the list keeps its price series
    and its metadata. *)
Theorem X18_batch_download_frame :
  ∃ sh, run st = Some sh ∧
    length (progressArray sh) = length symbols ∧
    (∀ sym, storedFundamental (store sh) sym = storedFundamental st sym) ∧
    (∀ sym, sym ∉ symbols →
       storedPrice (store sh) sym = storedPrice st sym ∧
       storedSymbol (store sh) sym = storedSymbol st sym).
Proof.
  destruct final_outcome as (sh & Hrun & Hout).
  exists sh. split; [exact Hrun|].
  split; [apply (out_length _ _ _ _ _ _ _ _ Hout)|].
  split; [apply (out_fundamental _ _ _ _ _ _ _ _ Hout)|].
  apply (out_others _ _ _ _ _ _ _ _ Hout).
Qed.

(** X19: a repeated symbol is never reported as settled.  The tasks find
    their entry with [symbols.indexOf(symbol)], which is the first
    position of the symbol, while the batch marks positions: at a position
    whose symbol occurs earlier in the list, the entry of a batch that was
    run stays [downloading] with progress 0 when the call returns. *)
Theorem X19_repeated_symbol_stays_downloading (pos : nat) (sym : string) :
  symbols !! pos = Some sym →
  indexOf symbols sym ≠ Some pos →
  (pos < ran * batchSize)%nat →
  ∃ sh e, run st = Some sh ∧ progressArray sh !! pos = Some e ∧
          dp_symbol e = sym ∧ dp_status e = "downloading" ∧ progress e = 0%Z.
Proof.
  intros Hg Hrep Hlt. destruct final_outcome as (sh & Hrun & Hout).
  exists sh, (startedEntry override sym). split; [exact Hrun|].
  split; [|simpl; auto].
  rewrite (out_repeated _ _ _ _ _ _ _ _ Hout pos sym Hg Hrep).
  simpl length. rewrite Nat.add_0_r.
  destruct (Nat.ltb_spec pos (ran * batchSize)); [reflexivity|lia].
Qed.

End Returned.

Lemma sampleSymbols_NoDup : NoDup sampleSymbols.
Proof. apply (bool_decide_unpack _). vm_compute. reflexivity. Qed.

Lemma X16_progress_of_a_batch_download_witness :
  NoDup sampleSymbols ∧
  ∃ sh,
    downloadBatchPriceData 0 sampleSymbols true false None sampleEnvs sampleSched
                           initialStore = Some sh ∧
    progressArray sh
    = imap (entryAfter 0 false sampleEnvs (batchesRun None sampleSymbols))
           sampleSymbols.
Proof.
  split; [exact sampleSymbols_NoDup|].
  destruct (X16_progress_of_a_batch_download 0 sampleSymbols true false None
              sampleEnvs sampleSched initialStore sampleSymbols_NoDup)
    as (sh & Hrun & Harray & _).
  exists sh. split; [exact Hrun|exact Harray].
Defined.

Lemma X17_stored_prices_of_a_batch_download_witness :
  NoDup ["AAPL"; "MSFT"] ∧ is_Some (db storeWithAapl) ∧
  ∃ sh r,
    downloadBatchPriceData 0 ["AAPL"; "MSFT"] true false None (fun _ => mondayTask)
                           (fun _ => [1; 0; 1]%nat) storeWithAapl = Some sh ∧
    storedPrice storeWithAapl "AAPL" = Some [sampleRecord] ∧
    storedPrice (store sh) "AAPL" = Some [r] ∧
    isoDateString (date r) = "2024-04-01".
Proof.
  assert (Hnd : NoDup ["AAPL"; "MSFT"])
    by (apply (bool_decide_unpack _); vm_compute; reflexivity).
  assert (Hdb : is_Some (db storeWithAapl)) by (vm_compute; eauto).
  split; [exact Hnd|]. split; [exact Hdb|].
  destruct (X17_stored_prices_of_a_batch_download 0 ["AAPL"; "MSFT"] true false None
              (fun _ => mondayTask) (fun _ => [1; 0; 1]%nat) storeWithAapl Hnd Hdb)
    as (sh & Hrun & Hprice).
  exists sh. eexists. split; [exact Hrun|]. split; [reflexivity|].
  split.
  - rewrite (Hprice 0%nat "AAPL" eq_refl). vm_compute. reflexivity.
  - vm_compute. reflexivity.
Defined.

Lemma X19_repeated_symbol_stays_downloading_witness :
  (repeatedSymbols !! 2%nat = Some "AAPL" ∧
   indexOf repeatedSymbols "AAPL" ≠ Some 2%nat ∧
   (2 < batchesRun None repeatedSymbols * batchSize)%nat) ∧
  ∃ sh e,
    downloadBatchPriceData 0 repeatedSymbols true false None sampleEnvs sampleSched
                           initialStore = Some sh ∧
    progressArray sh !! 2%nat = Some e ∧
    dp_symbol e = "AAPL" ∧ dp_status e = "downloading" ∧ progress e = 0%Z.
Proof.
  assert (H1 : repeatedSymbols !! 2%nat = Some "AAPL") by reflexivity.
  assert (H2 : indexOf repeatedSymbols "AAPL" ≠ Some 2%nat)
    by (vm_compute; discriminate).
  assert (H3 : (2 < batchesRun None repeatedSymbols * batchSize)%nat)
    by (vm_compute; lia).
  split; [auto|].
  apply (X19_repeated_symbol_stays_downloading 0 repeatedSymbols true false None
           sampleEnvs sampleSched initialStore 2 "AAPL" H1 H2 H3).
Defined.

(** X20: the order in which the tasks of a batch are resumed does not
    matter, on a store that is connected when the call is made, where
    every save is one synchronous step.  For a list without repeated
    symbols, two calls that differ only in the interleaving of their tasks
    return with the same progress array and the same stored prices and
    fundamentals for every symbol. *)
Theorem X20_interleaving_does_not_matter
  (tz : Z) (symbols : list string) (onProgress override : bool)
  (cancelToken : option (nat → CancelToken)) (envs : nat → TaskEnv)
  (sched sched' : nat → list nat) (st : Store) :
  NoDup symbols →
  is_Some (db st) →
  ∃ sh sh',
    downloadBatchPriceData tz symbols onProgress override cancelToken envs sched st
    = Some sh ∧
    downloadBatchPriceData tz symbols onProgress override cancelToken envs sched' st
    = Some sh' ∧
    progressArray sh' = progressArray sh ∧
    ∀ sym, storedPrice (store sh') sym = storedPrice (store sh) sym ∧
           storedFundamental (store sh') sym = storedFundamental (store sh) sym.
Proof.
  intros Hnd _.
  destruct (final_outcome tz symbols onProgress override cancelToken envs sched st)
    as (sh & Hrun & Hout).
  destruct (final_outcome tz symbols onProgress override cancelToken envs sched' st)
    as (sh' & Hrun' & Hout').
  exists sh, sh'. split; [exact Hrun|]. split; [exact Hrun'|].
  split.
  - apply list_eq. intros g.
    destruct (symbols !! g) as [sym|] eqn:Hg.
    + rewrite (out_progress _ _ _ _ _ _ _ _ Hout Hnd g sym Hg).
      apply (out_progress _ _ _ _ _ _ _ _ Hout' Hnd g sym Hg).
    + apply lookup_ge_None in Hg.
      rewrite (proj2 (lookup_ge_None (progressArray sh) g)),
              (proj2 (lookup_ge_None (progressArray sh') g)); [reflexivity| |].
      * rewrite (out_length _ _ _ _ _ _ _ _ Hout'). exact Hg.
      * rewrite (out_length _ _ _ _ _ _ _ _ Hout). exact Hg.
  - intros sym. split.
    + destruct (decide (sym ∈ symbols)) as [Hin|Hout_list].
      * apply list_elem_of_lookup in Hin as [g Hg].
        rewrite (out_price _ _ _ _ _ _ _ _ Hout Hnd g sym Hg).
        apply (out_price _ _ _ _ _ _ _ _ Hout' Hnd g sym Hg).
      * rewrite (proj1 (out_others _ _ _ _ _ _ _ _ Hout sym Hout_list)).
        apply (out_others _ _ _ _ _ _ _ _ Hout' sym Hout_list).
    + rewrite (out_fundamental _ _ _ _ _ _ _ _ Hout sym).
      apply (out_fundamental _ _ _ _ _ _ _ _ Hout' sym).
Qed.

Lemma twoSymbols_NoDup : NoDup ["AAPL"; "MSFT"].
Proof. apply (bool_decide_unpack _). vm_compute. reflexivity. Qed.

Lemma storeWithAapl_connected : is_Some (db storeWithAapl).
Proof. vm_compute. eauto. Qed.

Lemma X20_interleaving_does_not_matter_witness :
  NoDup ["AAPL"; "MSFT"] ∧ is_Some (db storeWithAapl) ∧
  ∃ sh sh',
    downloadBatchPriceData 0 ["AAPL"; "MSFT"] true false None (fun _ => mondayTask)
                           (fun _ => [1; 0; 1]%nat) storeWithAapl = Some sh ∧
    downloadBatchPriceData 0 ["AAPL"; "MSFT"] true false None (fun _ => mondayTask)
                           (fun _ => []) storeWithAapl = Some sh' ∧
    progressArray sh' = progressArray sh ∧
    storedPrice (store sh') "MSFT" = storedPrice (store sh) "MSFT".
Proof.
  split; [exact twoSymbols_NoDup|]. split; [exact storeWithAapl_connected|].
  destruct (X20_interleaving_does_not_matter 0 ["AAPL"; "MSFT"] true false None
              (fun _ => mondayTask) (fun _ => [1; 0; 1]%nat) (fun _ => [])
              storeWithAapl twoSymbols_NoDup storeWithAapl_connected)
    as (sh & sh' & Hrun & Hrun' & Harray & Hstore).
  exists sh, sh'. split; [exact Hrun|]. split; [exact Hrun'|].
  split; [exact Harray|apply Hstore].
Defined.

Lemma lastAvailable_recent (r : Q) (now : Z) :
  (0 <= r)%Q → (r < 1)%Q →
  ∃ d, getLastAvailableDate r now = Some d ∧ (Day now - 29 <= d <= Day now)%Z.
Proof.
  intros H0 H1. unfold getLastAvailableDate. eexists. split; [reflexivity|].
  unfold toISODate. rewrite Day_days_before.
  destruct (floor_between 0 30 (r * 30)%Q) as [Hlo Hhi].
  - change (inject_Z 0) with 0%Q. nra.
  - change (inject_Z 30) with 30%Q. nra.
  - lia.
Qed.

(** X21: without override a batch keeps no history.  The statement is for
    a zone whose offset from UTC never changes, where the day after a date
    is the next date, and for a store that is connected when the call is
    made, where every save is one synchronous step.
    [getLastAvailableDate] answers with one of the last thirty days
    whatever the store holds, so every task downloads from the day after
    that answer, and the save replaces the series: when the call returns,
    a symbol of a batch that was run whose download import resolved has a
    stored series, and no record of it is dated more than 28 days before
    the lookup of the task that wrote it, or after the day of that task's
    download. *)
Theorem X21_incremental_batch_keeps_four_weeks
  (tz : Z) (symbols : list string) (onProgress : bool)
  (cancelToken : option (nat → CancelToken)) (envs : nat → TaskEnv)
  (sched : nat → list nat) (st : Store) :
  is_Some (db st) →
  (∀ pos, (0 <= lastRandom (envs pos))%Q ∧ (lastRandom (envs pos) < 1)%Q) →
  ∃ sh,
    downloadBatchPriceData (fixedZone tz) symbols onProgress false cancelToken
                           envs sched st
    = Some sh ∧
    ∀ pos sym,
      symbols !! pos = Some sym →
      (pos < batchesRun cancelToken symbols * batchSize)%nat →
      importResolves (dl (envs pos)) = true →
      ∃ writer data,
        symbols !! writer = Some sym ∧
        storedPrice (store sh) sym = Some data ∧
        Forall (fun r => (Day (lastNow (envs writer)) - 28 <= date r
                          <= Day (incNow (envs writer)))%Z) data.
Proof.
  intros _ Hrnd.
  destruct (run_inv_final tz symbols onProgress false cancelToken envs sched st)
    as (sh & Hrun & Hinv & Hdone).
  exists sh. split; [exact Hrun|].
  intros pos sym Hsym Hpos Himp.
  destruct Hinv as [Hgen Hlook Hfresh _ _].
  destruct Hdone as (_ & Hsettled & _).
  destruct (Hsettled pos sym Hpos Hsym) as (ok & (a & b & r & Hdl) & _).
  assert (Hsome : ∃ pos a b d, Downloaded pos sym a b (Some d) ∈ events sh).
  { apply list_elem_of_lookup in Hdl as Hn. destruct Hn as [n Hn].
    destruct (Hgen n pos sym a b r Hn) as (_ & Hr & _).
    unfold downloadOutcome in Hr. rewrite Himp in Hr. subst r.
    eexists pos, a, b, _. exact Hdl. }
  destruct (Hfresh sym Hsome) as (writer & a' & b' & data & Hw & Hstored).
  exists writer, data.
  apply list_elem_of_lookup in Hw as Hn. destruct Hn as [n Hn].
  destruct (Hgen n writer sym a' b' (Some data) Hn)
    as (Hwsym & Hdata & m & lastDate & _ & Hm & Hargs).
  split; [exact Hwsym|]. split; [exact Hstored|].
  destruct (Hlook writer sym lastDate) as [_ Hlast];
    [apply list_elem_of_lookup; eauto|].
  destruct (Hrnd writer) as [H0 H1].
  destruct (lastAvailable_recent (lastRandom (envs writer)) (lastNow (envs writer))
              H0 H1) as (d & Hd & Hrecent).
  rewrite Hd in Hlast. subst lastDate. simpl in Hargs.
  injection Hargs as -> ->.
  unfold downloadOutcome in Hdata.
  destruct (importResolves (dl (envs writer))); [|discriminate].
  injection Hdata as ->.
  pose proof (generatePriceData_range tz (dl (envs writer))
                (Some (incrementalStart tz d))
                (Some (incrementalEnd (envs writer)))) as Hrange.
  simpl in Hrange. rewrite !Day_parseIsoDate in Hrange.
  rewrite incrementalStart_next in Hrange |- *.
  eapply Forall_impl; [exact Hrange|].
  intros x Hx. simpl in Hx. unfold incrementalEnd, toISODate in Hx. lia.
Qed.

Lemma X21_incremental_batch_keeps_four_weeks_witness :
  is_Some (db storeWithAapl) ∧
  (∀ pos : nat, (0 <= lastRandom mondayTask)%Q ∧ (lastRandom mondayTask < 1)%Q) ∧
  ∃ sh,
    downloadBatchPriceData 0 ["AAPL"; "MSFT"] true false None (fun _ => mondayTask)
                           (fun _ => [1; 0; 1]%nat) storeWithAapl = Some sh ∧
    ∃ data,
      storedPrice (store sh) "AAPL" = Some data ∧
      length data = 1%nat ∧
      Forall (fun r => (19786 <= date r <= 19814)%Z) data.
Proof.
  assert (Hrnd : ∀ pos : nat, (0 <= lastRandom mondayTask)%Q ∧
                              (lastRandom mondayTask < 1)%Q)
    by (intros pos; split; vm_compute; [discriminate|reflexivity]).
  split; [exact storeWithAapl_connected|]. split; [exact Hrnd|].
  destruct (X21_incremental_batch_keeps_four_weeks 0 ["AAPL"; "MSFT"] true None
              (fun _ => mondayTask) (fun _ => [1; 0; 1]%nat) storeWithAapl
              storeWithAapl_connected Hrnd)
    as (sh & Hrun & Hstored).
  exists sh. split; [exact Hrun|].
  destruct (Hstored 0%nat "AAPL") as (writer & data & _ & Hdata & Hrange);
    [reflexivity|vm_compute; lia|reflexivity|].
  exists data. split; [exact Hdata|]. split.
  - vm_compute in Hrun. injection Hrun as <-.
    vm_compute in Hdata. injection Hdata as <-. reflexivity.
  - destruct writer as [|[|writer]]; exact Hrange.
Defined.




End BatchOutcome.
